(** * Constraint models of the aps-learn examples

    The scripts of the repository build a CP-SAT model (variables, then
    constraints, then an objective or an enumeration) and hand it to the
    solver engine.  This development embeds the model objects the scripts
    build, the meaning of their constraints, and the enumeration loops, and
    proves the properties the specification states about them. *)

From Stdlib Require Import ZArith Lia ZifyBool DecimalString.
From stdpp Require Import gmap strings pretty list fin_maps sorting.

Local Open Scope Z_scope.

(** ** The model objects ([ortools.sat.python.cp_model]) *)

Module cp_model.

(** Status values returned by [CpSolver.solve]. *)
Inductive CpSolverStatus :=
  | UNKNOWN | MODEL_INVALID | FEASIBLE | INFEASIBLE | OPTIMAL.

Global Instance CpSolverStatus_eq_dec : EqDecision CpSolverStatus.
Proof. solve_decision. Defined.

(** An integer variable: its position in the model, its name, its domain
    [[lb, ub]].  A Boolean variable is an integer variable over [[0, 1]]. *)
Record IntVar := mkIntVar {
  index : nat;
  name : string;
  lb : Z;
  ub : Z
}.

Global Instance IntVar_eq_dec : EqDecision IntVar.
Proof. solve_decision. Defined.

(** Linear expressions, as the overloaded arithmetic operators build them. *)
Inductive LinearExpr :=
  | Var (v : nat)
  | Const (k : Z)
  | Add (e1 e2 : LinearExpr)
  | Sub (e1 e2 : LinearExpr)
  | Mul (e : LinearExpr) (k : Z).

Coercion expr_of_var (x : IntVar) : LinearExpr := Var (index x).

(** A literal is a Boolean variable or its negation ([b.Not()]). *)
Inductive Literal :=
  | Pos (v : nat)
  | Neg (v : nat).

Definition Not (l : Literal) : Literal :=
  match l with Pos v => Neg v | Neg v => Pos v end.

Definition lit (b : IntVar) : Literal := Pos (index b).

(** Comparisons between linear expressions ([<=], [>=], [==], [!=]). *)
Inductive BoundedLinearExpression :=
  | Le (e1 e2 : LinearExpr)
  | Ge (e1 e2 : LinearExpr)
  | Eq (e1 e2 : LinearExpr)
  | Ne (e1 e2 : LinearExpr).

(** An interval variable [(start, size, end)] of fixed size. *)
Record IntervalVar := mkIntervalVar {
  iv_start : LinearExpr;
  iv_size : Z;
  iv_end : LinearExpr;
  iv_name : string
}.

Inductive ConstraintBody :=
  | Linear (b : BoundedLinearExpression)
  | AllDifferent (es : list LinearExpr)
  | Interval (iv : IntervalVar)
  | NoOverlap (ivs : list IntervalVar)
  | MaxEquality (target : LinearExpr) (es : list LinearExpr)
  | ExactlyOne (ls : list Literal)
  | AtMostOne (ls : list Literal)
  | BoolOr (ls : list Literal).

(** A posted constraint with its enforcement literals ([only_enforce_if]). *)
Record Constraint := mkConstraint {
  body : ConstraintBody;
  enforcement : list Literal
}.

Record CpModel := mkCpModel {
  variables : list IntVar;
  constraints : list Constraint;
  objective : option LinearExpr   (* the expression to minimize *)
}.

Definition CpModel_new : CpModel := mkCpModel [] [] None.

(** *** Model building operations *)

Definition new_int_var (lo hi : Z) (nm : string) (m : CpModel) : IntVar * CpModel :=
  let v := mkIntVar (length (variables m)) nm lo hi in
  (v, mkCpModel (variables m ++ [v]) (constraints m) (objective m)).

Definition new_bool_var (nm : string) (m : CpModel) : IntVar * CpModel :=
  new_int_var 0 1 nm m.

Definition post (c : Constraint) (m : CpModel) : CpModel :=
  mkCpModel (variables m) (constraints m ++ [c]) (objective m).

Definition add (b : BoundedLinearExpression) (m : CpModel) : CpModel :=
  post (mkConstraint (Linear b) []) m.

(** [model.add(b).only_enforce_if(l)] *)
Definition add_only_enforce_if (b : BoundedLinearExpression) (l : Literal)
    (m : CpModel) : CpModel :=
  post (mkConstraint (Linear b) [l]) m.

Definition new_interval_var (s : LinearExpr) (size : Z) (e : LinearExpr)
    (nm : string) (m : CpModel) : IntervalVar * CpModel :=
  let iv := mkIntervalVar s size e nm in
  (iv, post (mkConstraint (Interval iv) []) m).

Definition add_all_different (es : list LinearExpr) : CpModel → CpModel :=
  post (mkConstraint (AllDifferent es) []).
Definition add_no_overlap (ivs : list IntervalVar) : CpModel → CpModel :=
  post (mkConstraint (NoOverlap ivs) []).
Definition add_max_equality (t : LinearExpr) (es : list LinearExpr) : CpModel → CpModel :=
  post (mkConstraint (MaxEquality t es) []).
Definition add_exactly_one (ls : list Literal) : CpModel → CpModel :=
  post (mkConstraint (ExactlyOne ls) []).
Definition add_at_most_one (ls : list Literal) : CpModel → CpModel :=
  post (mkConstraint (AtMostOne ls) []).
Definition add_bool_or (ls : list Literal) : CpModel → CpModel :=
  post (mkConstraint (BoolOr ls) []).

(** A second call replaces the objective. *)
Definition minimize (e : LinearExpr) (m : CpModel) : CpModel :=
  mkCpModel (variables m) (constraints m) (Some e).

(** *** Meaning of a model

    A raw solution lists one value per variable, in index order;
    [solver.value(x)] reads position [index x]. *)

Definition Value (a : list Z) (v : nat) : Z := default 0 (a !! v).

Fixpoint eval (a : list Z) (e : LinearExpr) : Z :=
  match e with
  | Var v => Value a v
  | Const k => k
  | Add e1 e2 => eval a e1 + eval a e2
  | Sub e1 e2 => eval a e1 - eval a e2
  | Mul e k => eval a e * k
  end.

Definition lit_true (a : list Z) (l : Literal) : Prop :=
  match l with
  | Pos v => Value a v = 1
  | Neg v => Value a v = 0
  end.

Global Instance lit_true_dec a l : Decision (lit_true a l).
Proof. destruct l; simpl; apply _. Defined.

Definition holds_linear (a : list Z) (b : BoundedLinearExpression) : Prop :=
  match b with
  | Le e1 e2 => eval a e1 ≤ eval a e2
  | Ge e1 e2 => eval a e2 ≤ eval a e1
  | Eq e1 e2 => eval a e1 = eval a e2
  | Ne e1 e2 => eval a e1 ≠ eval a e2
  end.

(** Two intervals are disjoint when one ends before the other starts. *)
Definition disjoint (a : list Z) (i j : IntervalVar) : Prop :=
  eval a (iv_end i) ≤ eval a (iv_start j) ∨ eval a (iv_end j) ≤ eval a (iv_start i).

Fixpoint no_overlap (a : list Z) (ivs : list IntervalVar) : Prop :=
  match ivs with
  | [] => True
  | iv :: rest => Forall (disjoint a iv) rest ∧ no_overlap a rest
  end.

Definition count_true (a : list Z) (ls : list Literal) : nat :=
  length (filter (lit_true a) ls).

Definition holds_body (a : list Z) (b : ConstraintBody) : Prop :=
  match b with
  | Linear b => holds_linear a b
  | AllDifferent es => NoDup (eval a <$> es)
  | Interval iv => 0 ≤ iv_size iv ∧ eval a (iv_start iv) + iv_size iv = eval a (iv_end iv)
  | NoOverlap ivs => no_overlap a ivs
  | MaxEquality t es =>
      Forall (λ e, eval a e ≤ eval a t) es ∧ Exists (λ e, eval a e = eval a t) es
  | ExactlyOne ls => count_true a ls = 1%nat
  | AtMostOne ls => (count_true a ls ≤ 1)%nat
  | BoolOr ls => Exists (lit_true a) ls
  end.

Definition holds (a : list Z) (c : Constraint) : Prop :=
  Forall (lit_true a) (enforcement c) → holds_body a (body c).

Definition in_domain (x : IntVar) (z : Z) : Prop := lb x ≤ z ≤ ub x.

(** [a] is a solution of [m]: one value per variable, each inside its
    domain, and every posted constraint holds. *)
Definition feasible (m : CpModel) (a : list Z) : Prop :=
  Forall2 in_domain (variables m) a ∧ Forall (holds a) (constraints m).

Global Instance holds_linear_dec a b : Decision (holds_linear a b).
Proof. destruct b; simpl; apply _. Defined.

Global Instance disjoint_dec a i j : Decision (disjoint a i j).
Proof. unfold disjoint; apply _. Defined.

Global Instance no_overlap_dec a ivs : Decision (no_overlap a ivs).
Proof. induction ivs as [|iv rest IH]; simpl; apply _. Defined.

Global Instance holds_body_dec a b : Decision (holds_body a b).
Proof. destruct b; simpl; apply _. Defined.

Global Instance holds_dec a c : Decision (holds a c).
Proof. unfold holds; apply _. Defined.

Global Instance in_domain_dec x z : Decision (in_domain x z).
Proof. unfold in_domain; apply _. Defined.

Global Instance feasible_dec m a : Decision (feasible m a).
Proof. unfold feasible; apply _. Defined.

(** *** Scope of a constraint

    [below n] tells that an object mentions only variables of index less
    than [n]. *)

Fixpoint expr_below (n : nat) (e : LinearExpr) : bool :=
  match e with
  | Var v => bool_decide (v < n)%nat
  | Const _ => true
  | Add e1 e2 | Sub e1 e2 => expr_below n e1 && expr_below n e2
  | Mul e _ => expr_below n e
  end.

Definition lit_below (n : nat) (l : Literal) : bool :=
  match l with Pos v | Neg v => bool_decide (v < n)%nat end.

Definition interval_below (n : nat) (iv : IntervalVar) : bool :=
  expr_below n (iv_start iv) && expr_below n (iv_end iv).

Definition body_below (n : nat) (b : ConstraintBody) : bool :=
  match b with
  | Linear (Le e1 e2) | Linear (Ge e1 e2) | Linear (Eq e1 e2)
  | Linear (Ne e1 e2) => expr_below n e1 && expr_below n e2
  | AllDifferent es => forallb (expr_below n) es
  | Interval iv => interval_below n iv
  | NoOverlap ivs => forallb (interval_below n) ivs
  | MaxEquality t es => expr_below n t && forallb (expr_below n) es
  | ExactlyOne ls | AtMostOne ls | BoolOr ls => forallb (lit_below n) ls
  end.

Definition constraint_below (n : nat) (c : Constraint) : bool :=
  body_below n (body c) && forallb (lit_below n) (enforcement c).

(** Every constraint of a well-formed model mentions only variables of
    the model. *)
Definition well_formed (m : CpModel) : Prop :=
  Forall (λ c, constraint_below (length (variables m)) c) (constraints m).

(** *** The solver engine

    The engine is an external collaborator: any function from models to
    responses.  Its contract: a response with status [OPTIMAL] or
    [FEASIBLE] carries a solution of the model ([sound]); and, when run
    without a time limit, it reports one of these whenever the model has a
    solution ([complete]). *)

Record CpSolverResponse := mkResponse {
  status : CpSolverStatus;
  solution : list Z
}.

Definition CpSolver : Type := CpModel → CpSolverResponse.

Definition has_solution (st : CpSolverStatus) : Prop :=
  st = OPTIMAL ∨ st = FEASIBLE.

Definition sound (solve : CpSolver) : Prop :=
  ∀ m, has_solution (status (solve m)) → feasible m (solution (solve m)).

Definition complete (solve : CpSolver) : Prop :=
  ∀ m a, feasible m a → has_solution (status (solve m)).

(** The value of the objective, and optimality of a solution. *)
Definition objective_value (m : CpModel) (a : list Z) : Z :=
  match objective m with Some e => eval a e | None => 0 end.

Definition minimum (m : CpModel) (v : Z) : Prop :=
  (∃ a, feasible m a ∧ objective_value m a = v) ∧
  (∀ a, feasible m a → v ≤ objective_value m a).

End cp_model.
Import cp_model.

(** ** Growth of a model *)

(** [m'] keeps the variables of [m] at their positions and all the
    constraints of [m]. *)
Definition extends (m m' : CpModel) : Prop :=
  variables m `prefix_of` variables m' ∧ constraints m ⊆ constraints m'.

Declare Scope expr_scope.
Delimit Scope expr_scope with E.
Bind Scope expr_scope with LinearExpr.
Notation "e1 + e2" := (Add e1 e2) : expr_scope.
Notation "e1 - e2" := (Sub e1 e2) : expr_scope.
Notation "e * k" := (Mul e k) : expr_scope.

(** ** Exhaustive search over finite domains

    A depth-first enumeration used to list the solutions of the small
    models: [racc] is the reversed prefix chosen so far, [prune] rejects a
    prefix, [check] accepts a complete assignment. *)

Fixpoint search (prune check : list Z → bool) (doms : list (list Z))
    (racc : list Z) : list (list Z) :=
  match doms with
  | [] => let a := reverse racc in if check a then [a] else []
  | d :: ds =>
      d ≫= λ v, if prune (v :: racc) then [] else search prune check ds (v :: racc)
  end.

(** The integers [lo, lo+1, ..., hi]. *)
Definition range (lo hi : Z) : list Z :=
  (λ k : nat, lo + Z.of_nat k) <$> seq 0 (Z.to_nat (hi - lo + 1)).

Definition domains (m : CpModel) : list (list Z) :=
  (λ x, range (lb x) (ub x)) <$> variables m.

(** A list of raw solutions enumerates a model when it has no repetition
    and holds exactly the solutions of the model. *)
Definition enumerates (m : CpModel) (sols : list (list Z)) : Prop :=
  NoDup sols ∧ ∀ a, feasible m a ↔ a ∈ sols.

(** ** Streaming enumeration with a solution callback

    [solver.solve(model, callback)] with [enumerate_all_solutions] calls
    [on_solution_callback] once per solution found, in discovery order. *)

Module cryptarithmetic.

(** [VarArraySolutionPrinter]: the tracked variables and a counter. *)
Record VarArraySolutionPrinter := mkPrinter {
  printer_variables : list IntVar;
  solution_count : nat;
  printed : list (list Z)          (* the lines written so far *)
}.

Definition VarArraySolutionPrinter_init (vars : list IntVar) : VarArraySolutionPrinter :=
  mkPrinter vars 0 [].

Definition on_solution_callback (self : VarArraySolutionPrinter) (a : list Z)
    : VarArraySolutionPrinter :=
  mkPrinter (printer_variables self) (solution_count self + 1)
    (printed self ++ [(λ v, Value a (index v)) <$> printer_variables self]).

(** The engine's side of the call: the callback runs on each solution of
    the stream [found]. *)
Definition solve_with_callback (found : list (list Z))
    (cb : VarArraySolutionPrinter) : VarArraySolutionPrinter :=
  foldl on_solution_callback cb found.

(** [main]: the model of CP + IS + FUN = TRUE.  [None] stands for a failed
    [assert]. *)
Definition main : option (CpModel * list IntVar) :=
  let model := CpModel_new in
  let base := 10 in
  let '(c, model) := new_int_var 1 (base - 1) "C" model in
  let '(p, model) := new_int_var 0 (base - 1) "P" model in
  let '(i, model) := new_int_var 1 (base - 1) "I" model in
  let '(s, model) := new_int_var 0 (base - 1) "S" model in
  let '(f, model) := new_int_var 1 (base - 1) "F" model in
  let '(u, model) := new_int_var 0 (base - 1) "U" model in
  let '(n, model) := new_int_var 0 (base - 1) "N" model in
  let '(t, model) := new_int_var 1 (base - 1) "T" model in
  let '(r, model) := new_int_var 0 (base - 1) "R" model in
  let '(e, model) := new_int_var 0 (base - 1) "E" model in
  let letters := [c; p; i; s; f; u; n; t; r; e] in
  if base >=? Z.of_nat (length letters) then
    let model := add_all_different (expr_of_var <$> letters) model in
    let model :=
      add (Eq (c * base + p + i * base + s + f * base * base + u * base + n)%E
              (t * base * base * base + r * base * base + u * base + e)%E)
          model in
    Some (model, letters)
  else None.

Definition model : CpModel :=
  Eval vm_compute in default CpModel_new (fst <$> main).
Definition letters : list IntVar :=
  Eval vm_compute in default [] (snd <$> main).

(** The linear equality posted by [main] (its second constraint). *)
Definition equation : Constraint :=
  Eval vm_compute in default (mkConstraint (BoolOr []) []) (constraints model !! 1%nat).

(** Pruning and leaf test used to list the solutions.  A prefix is dropped
    as soon as its last digit repeats an earlier one, or as soon as the
    digits chosen so far cannot reach a sum of the form [1000 + E]. *)
Definition repeats (racc : list Z) : bool :=
  match racc with
  | [] => false
  | v :: r => existsb (Z.eqb v) r
  end.

Definition out_of_reach (racc : list Z) : bool :=
  match racc with
  | [i; p; c] =>
      c * 10 + p + i * 10 <? 82
  | [f; s; i; p; c] =>
      let k := c * 10 + p + i * 10 + s + f * 100 in (k <? 991) || (1009 <? k)
  | [n; u; f; s; i; p; c] =>
      let k := c * 10 + p + i * 10 + s + f * 100 + n in (k <? 1000) || (1009 <? k)
  | [t; n; u; f; s; i; p; c] => negb (t =? 1)
  | [r; t; n; u; f; s; i; p; c] => negb (r =? 0)
  | _ => false
  end.

Definition prune (racc : list Z) : bool := repeats racc || out_of_reach racc.

Definition sum_ok (a : list Z) : bool :=
  match a with
  | [c; p; i; s; f; u; n; t; r; e] =>
      c * 10 + p + i * 10 + s + f * 10 * 10 + u * 10 + n
      =? t * 10 * 10 * 10 + r * 10 * 10 + u * 10 + e
  | _ => false
  end.

Definition solutions : list (list Z) :=
  Eval vm_compute in search prune sum_ok (domains model) [].

End cryptarithmetic.

(** ** Helpers for the scripts' loops *)

(** [[model.new_int_var(lo, hi, nm i) for i in idx]] *)
Fixpoint new_int_vars (lo hi : Z) (nm : nat → string) (idx : list nat)
    (m : CpModel) : list IntVar * CpModel :=
  match idx with
  | [] => ([], m)
  | i :: idx' =>
      let '(x, m) := new_int_var lo hi (nm i) m in
      let '(xs, m) := new_int_vars lo hi nm idx' m in
      (x :: xs, m)
  end.

(** [range(n)] for a Python integer [n]. *)
Definition py_range (n : Z) : list nat := seq 0 (Z.to_nat n).

(** [for x in l] over a state, where the body can raise ([None]). *)
Fixpoint for_each {A St : Type} (body : A → St → option St)
    (l : list A) (s : St) : option St :=
  match l with
  | [] => Some s
  | x :: l' => s' ← body x s; for_each body l' s'
  end.

(** [enumerate(l)] *)
Definition enumerate {A : Type} (l : list A) : list (nat * A) := imap pair l.

(** ** Job-shop scheduling ([src/job-shop.py] and
    [out/production/aps-learn/sample.py])

    The two scripts build the same model from their [jobs_data]; they
    differ in how the number of machines is obtained, in the kind of
    dictionary that collects the intervals of a machine, and in the way the
    precedence comparison is written. *)

Module job_shop.

(** A task is [(machine_id, processing_time)]; a job is the list of its
    tasks in execution order. *)
Definition Task : Type := nat * Z.
Definition Job : Type := list Task.

Inductive script := JobShop | Sample.

(** The named tuple [task_type(start, end, interval)]. *)
Record task_type := mk_task_type {
  start : IntVar;
  end_ : IntVar;
  interval : IntervalVar
}.

(** [sum(task[1] for job in jobs_data for task in job)] *)
Definition horizon (jobs_data : list Job) : Z :=
  foldl Z.add 0 (snd <$> mjoin jobs_data).

(** The sum of the durations of all the tasks of all the jobs, as the
    specification words it. *)
Definition total_duration (jobs_data : list Job) : Z :=
  foldr (λ job acc, foldr (λ task acc', task.2 + acc') 0 job + acc) 0 jobs_data.

(** [1 + max(task[0] for job in jobs_data for task in job)] in
    [job-shop.py] ([max] of an empty sequence raises); the constant [2] in
    [sample.py]. *)
Definition machines_count (sc : script) (jobs_data : list Job) : option nat :=
  match sc with
  | JobShop =>
      match fst <$> mjoin jobs_data with
      | [] => None
      | ms => Some (1 + max_list ms)%nat
      end
  | Sample => Some 2%nat
  end.

(** [collections.defaultdict(list)] in [job-shop.py];
    [{i: [] for i in range(machines_count)}] in [sample.py]. *)
Definition initial_intervals (sc : script) (count : nat)
    : gmap nat (list IntervalVar) :=
  match sc with
  | JobShop => ∅
  | Sample => list_to_map ((λ i, (i, [])) <$> seq 0 count)
  end.

(** [machine_to_intervals[machine]]: a missing key yields [[]] in a
    [defaultdict] and raises [KeyError] in a plain dictionary. *)
Definition get_intervals (sc : script) (d : gmap nat (list IntervalVar))
    (machine : nat) : option (list IntervalVar) :=
  match d !! machine with
  | Some ivs => Some ivs
  | None => match sc with JobShop => Some [] | Sample => None end
  end.

Record state := mk_state {
  st_model : CpModel;
  all_tasks : gmap (nat * nat) task_type;
  machine_to_intervals : gmap nat (list IntervalVar)
}.

Definition suffix (job_id task_id : nat) : string :=
  "_" +:+ pretty job_id +:+ "_" +:+ pretty task_id.

(** Body of the variable-creation loop. *)
Definition create_task (sc : script) (horizon : Z) (job_id task_id : nat)
    (task : Task) (st : state) : option state :=
  let '(machine, duration) := task in
  let model := st_model st in
  let '(start_var, model) :=
    new_int_var 0 horizon ("start" +:+ suffix job_id task_id) model in
  let '(end_var, model) :=
    new_int_var 0 horizon ("end" +:+ suffix job_id task_id) model in
  let '(interval_var, model) :=
    new_interval_var start_var duration end_var
      ("interval" +:+ suffix job_id task_id) model in
  let all_tasks :=
    <[(job_id, task_id) := mk_task_type start_var end_var interval_var]>
      (all_tasks st) in
  ivs ← get_intervals sc (machine_to_intervals st) machine;
  Some (mk_state model all_tasks
          (<[machine := ivs ++ [interval_var]]> (machine_to_intervals st))).

(** [next.start >= cur.end] in [job-shop.py], [cur.end <= next.start] in
    [sample.py]. *)
Definition precedence (sc : script) (cur next : task_type)
    : BoundedLinearExpression :=
  match sc with
  | JobShop => Ge (start next) (end_ cur)
  | Sample => Le (end_ cur) (start next)
  end.

Record built := mk_built {
  b_model : CpModel;
  b_all_tasks : gmap (nat * nat) task_type;
  b_makespan : IntVar
}.

(** [main] up to the call of the solver, for any [jobs_data]; [None]
    stands for a raised [ValueError] or [KeyError]. *)
Definition build (sc : script) (jobs_data : list Job) : option built :=
  count ← machines_count sc jobs_data;
  let horizon := horizon jobs_data in
  let model := CpModel_new in
  st ← for_each (λ '(job_id, job),
          for_each (λ '(task_id, task),
            create_task sc horizon job_id task_id task) (enumerate job))
        (enumerate jobs_data)
        (mk_state model ∅ (initial_intervals sc count));
  let all_tasks := all_tasks st in
  model ← for_each (λ machine model,
          ivs ← get_intervals sc (machine_to_intervals st) machine;
          Some (add_no_overlap ivs model))
        (seq 0 count) (st_model st);
  model ← for_each (λ '(job_id, job),
          for_each (λ task_id model,
            next ← all_tasks !! (job_id, task_id + 1)%nat;
            cur ← all_tasks !! (job_id, task_id);
            Some (add (precedence sc cur next) model))
          (seq 0 (length job - 1)))
        (enumerate jobs_data) model;
  let '(obj_var, model) := new_int_var 0 horizon "makespan" model in
  last_tasks ← mapM (λ '(job_id, job),
          t ← all_tasks !! (job_id, (length job - 1)%nat);
          Some (expr_of_var (end_ t)))
        (enumerate jobs_data);
  let model := add_max_equality obj_var last_tasks model in
  let model := minimize obj_var model in
  Some (mk_built model all_tasks obj_var).

(** The data of [src/job-shop.py]. *)
Definition jobs_data : list Job :=
  [ [(0%nat, 3); (1%nat, 2); (2%nat, 2)];
    [(0%nat, 2); (2%nat, 1); (1%nat, 4)];
    [(1%nat, 4); (2%nat, 3)] ].

Definition main : option built := build JobShop jobs_data.

(** Decoding a solution: the start of a task, and its end as printed
    ([start + duration]). *)
Definition task_start (b : built) (a : list Z) (job_id task_id : nat) : option Z :=
  t ← b_all_tasks b !! (job_id, task_id); Some (Value a (index (start t))).

Definition task_at (jobs_data : list Job) (job_id task_id : nat) : option Task :=
  job ← jobs_data !! job_id; job !! task_id.

(** *** Vocabulary for the properties of the built model *)

(** What the model records about the task with variables [t] and duration
    [d]. *)
Definition task_ok (m : CpModel) (t : task_type) (d : Z) : Prop :=
  variables m !! index (start t) = Some (start t) ∧
  variables m !! index (end_ t) = Some (end_ t) ∧
  iv_start (interval t) = Var (index (start t)) ∧
  iv_end (interval t) = Var (index (end_ t)) ∧
  iv_size (interval t) = d ∧
  mkConstraint (Interval (interval t)) [] ∈ constraints m.

(** The keys handled before the loop reaches task [k] of job [j]. *)
Definition created (j k : nat) (key : nat * nat) : Prop :=
  (key.1 < j ∨ (key.1 = j ∧ key.2 < k))%nat.

(** Invariant of the variable-creation loop. *)
Record Inv (jobs : list Job) (count : nat) (j k : nat) (st : state) : Prop := {
  inv_keys : ∀ key,
    is_Some (all_tasks st !! key) ↔
    created j k key ∧ is_Some (task_at jobs key.1 key.2);
  inv_task : ∀ key t,
    all_tasks st !! key = Some t →
    ∃ m d l, task_at jobs key.1 key.2 = Some (m, d) ∧
      task_ok (st_model st) t d ∧
      machine_to_intervals st !! m = Some l ∧ interval t ∈ l;
  inv_pair : ∀ key1 key2 t1 t2 m d1 d2,
    key1 ≠ key2 →
    all_tasks st !! key1 = Some t1 → all_tasks st !! key2 = Some t2 →
    task_at jobs key1.1 key1.2 = Some (m, d1) →
    task_at jobs key2.1 key2.2 = Some (m, d2) →
    ∃ l, machine_to_intervals st !! m = Some l ∧
      ([interval t1; interval t2] `sublist_of` l ∨
       [interval t2; interval t1] `sublist_of` l);
  inv_domain :
    Forall (λ x, lb x = 0 ∧ ub x = horizon jobs) (variables (st_model st));
  inv_machines : ∀ m, is_Some (machine_to_intervals st !! m) → (m < count)%nat
}.

(** The comparison between task [k] of job [j] and the next task is posted
    in [m]. *)
Definition precedes (sc : script) (all_tasks : gmap (nat * nat) task_type)
    (m : CpModel) (j k : nat) : Prop :=
  ∃ cur next,
    all_tasks !! (j, k) = Some cur ∧ all_tasks !! (j, S k) = Some next ∧
    mkConstraint (Linear (precedence sc cur next)) [] ∈ constraints m.

(** What [build] guarantees about its result. *)
Record Built (sc : script) (jobs : list Job) (b : built) : Prop := {
  built_task : ∀ j k m d,
    task_at jobs j k = Some (m, d) →
    ∃ t, b_all_tasks b !! (j, k) = Some t ∧ task_ok (b_model b) t d;
  built_no_overlap : ∀ j1 k1 j2 k2 t1 t2 m d1 d2,
    (j1, k1) ≠ (j2, k2) →
    task_at jobs j1 k1 = Some (m, d1) → task_at jobs j2 k2 = Some (m, d2) →
    b_all_tasks b !! (j1, k1) = Some t1 → b_all_tasks b !! (j2, k2) = Some t2 →
    ∃ l, mkConstraint (NoOverlap l) [] ∈ constraints (b_model b) ∧
      ([interval t1; interval t2] `sublist_of` l ∨
       [interval t2; interval t1] `sublist_of` l);
  built_precedence : ∀ j (job : Job) k,
    jobs !! j = Some job → (k + 1 < length job)%nat →
    precedes sc (b_all_tasks b) (b_model b) j k;
  built_domain :
    Forall (λ x, lb x = 0 ∧ ub x = horizon jobs) (variables (b_model b));
  built_makespan :
    variables (b_model b) !! index (b_makespan b) = Some (b_makespan b) ∧
    objective (b_model b) = Some (expr_of_var (b_makespan b))
}.

End job_shop.

Module sample.
Import job_shop.

(** The data of [out/production/aps-learn/sample.py]. *)
Definition jobs_data : list Job :=
  [ [(0%nat, 2); (1%nat, 3)];
    [(0%nat, 4); (1%nat, 2)];
    [(0%nat, 3); (1%nat, 3)] ].

Definition main : option built := build Sample jobs_data.

Definition result : built :=
  Eval vm_compute in
    default (mk_built CpModel_new ∅ (mkIntVar 0 EmptyString 0 0)) main.

Definition model : CpModel := Eval vm_compute in b_model result.

(** A schedule of length 11: machine 0 runs the jobs in the order 0, 2, 1. *)
Definition schedule : list Z := [0; 2; 2; 5; 5; 9; 9; 11; 2; 5; 5; 8; 11].

End sample.

(** ** Enumeration by blocking constraints ([src/sat-cp/sat-cp.py]) *)

(** All the assignments over a list of domains. *)
Fixpoint product (doms : list (list Z)) : list (list Z) :=
  match doms with
  | [] => [[]]
  | d :: ds => x ← d; cons x <$> product ds
  end.

(** A solver that searches depth first and drops a prefix as soon as a
    constraint over its variables fails; it serves as an instance of the
    solver contract. *)
Definition violates (cs : list Constraint) (racc : list Z) : bool :=
  let p := reverse racc in
  negb (forallb (λ c, implb (constraint_below (length p) c)
                            (bool_decide (holds p c))) cs).

Definition dfs_solve : CpSolver := λ m,
  match search (violates (constraints m)) (λ a, bool_decide (feasible m a))
          (domains m) [] with
  | a :: _ => mkResponse OPTIMAL a
  | [] => mkResponse INFEASIBLE []
  end.

Module sat_cp.

(** The values printed for the tracked variables. *)
Definition values (a : list Z) (variables : list IntVar) : list Z :=
  (λ var, Value a (index var)) <$> variables.

(** Body of the loop over [variables] that reifies "[var] keeps its
    current value". *)
Definition exclude_var (i : nat) (a : list Z)
    (acc : CpModel * list IntVar) (var : IntVar) : CpModel * list IntVar :=
  let '(model, exclusion_constraints) := acc in
  let current_value := Value a (index var) in
  let '(is_equal, model) :=
    new_bool_var ("is_equal_" +:+ name var +:+ "_" +:+ pretty i) model in
  let model :=
    add_only_enforce_if (Eq var (Const current_value)) (lit is_equal) model in
  let model :=
    add_only_enforce_if (Ne var (Const current_value)) (Not (lit is_equal))
      model in
  (model, exclusion_constraints ++ [is_equal]).

(** The blocking step of round [i] after the solution [a]. *)
Definition exclude_solution (i : nat) (a : list Z) (variables : list IntVar)
    (model : CpModel) : CpModel :=
  let '(model, exclusion_constraints) :=
    foldl (exclude_var i a) (model, []) variables in
  add_bool_or ((λ c, Not (lit c)) <$> exclusion_constraints) model.

(** State of the enumeration: the model with its blocking constraints, the
    counter, the solutions printed, the status of the last call of the
    solver, and whether the loop was left by [break]. *)
Record run := mk_run {
  r_model : CpModel;
  solution_count : nat;
  printed : list (list Z);
  last_status : option CpSolverStatus;
  stopped_by_break : bool
}.

(** [for i in rounds: ...], the loop of [simple_sat_program_iterative]. *)
Fixpoint iterate (solve : CpSolver) (variables : list IntVar)
    (rounds : list nat) (r : run) : run :=
  match rounds with
  | [] => r
  | i :: rounds' =>
      let resp := solve (r_model r) in
      if bool_decide (status resp ≠ OPTIMAL ∧ status resp ≠ FEASIBLE) then
        mk_run (r_model r) (solution_count r) (printed r)
          (Some (status resp)) true
      else
        iterate solve variables rounds'
          (mk_run (exclude_solution i (solution resp) variables (r_model r))
             (solution_count r + 1)
             (printed r ++ [values (solution resp) variables])
             (Some (status resp)) false)
  end.

Definition enumerate_solutions (solve : CpSolver) (model : CpModel)
    (variables : list IntVar) (max_solutions : Z) : run :=
  iterate solve variables (py_range max_solutions)
    (mk_run model 0 [] None false).

(** The model of [simple_sat_program_iterative] and its variables. *)
Definition program_model : CpModel * list IntVar :=
  let model := CpModel_new in
  let num_vals := 3 in
  let '(x, model) := new_int_var 0 (num_vals - 1) "x" model in
  let '(y, model) := new_int_var 0 (num_vals - 1) "y" model in
  let '(z, model) := new_int_var 0 (num_vals - 1) "z" model in
  let model := add (Ne x y) model in
  (model, [x; y; z]).

Definition model : CpModel := Eval vm_compute in program_model.1.
Definition variables : list IntVar := Eval vm_compute in program_model.2.

Definition simple_sat_program_iterative (solve : CpSolver) : run :=
  let '(model, variables) := program_model in
  let max_solutions := 10 in
  enumerate_solutions solve model variables max_solutions.

(** The solutions of the model, listed by search. *)
Definition solutions : list (list Z) :=
  Eval vm_compute in
    search (λ _, false) (λ a, bool_decide (feasible model a)) (domains model) [].

(** Vocabulary of the enumeration properties: the tracked variables are
    variables of the model; the feasible region over the tracked
    variables; the number of values in a domain. *)
Definition tracked (m : CpModel) (vars : list IntVar) : Prop :=
  Forall (λ v, cp_model.variables m !! index v = Some v) vars.

Definition region (m : CpModel) (vars : list IntVar) (p : list Z) : Prop :=
  ∃ a, feasible m a ∧ p = values a vars.

Definition domain_size (v : IntVar) : nat := Z.to_nat (ub v - lb v + 1).

Definition domain_product (vars : list IntVar) : nat :=
  foldr (λ v n, (domain_size v * n)%nat) 1%nat vars.

(** The value of the indicator variable of [v] in a solution [a], when
    the solution to exclude is [sol]. *)
Definition indicator (sol a : list Z) (v : IntVar) : Z :=
  if decide (Value a (index v) = Value sol (index v)) then 1 else 0.

Definition indicators (sol a : list Z) (vs : list IntVar) : list Z :=
  indicator sol a <$> vs.

(** Invariant of the loop, for the initial model [m0]. *)
Record enumeration_inv (m0 : CpModel) (vs : list IntVar) (r : run) : Prop := {
  inv_wf : well_formed (r_model r);
  inv_vars : cp_model.variables m0 `prefix_of` cp_model.variables (r_model r);
  inv_region : ∀ q, region (r_model r) vs q ↔ region m0 vs q ∧ q ∉ printed r;
  inv_nodup : NoDup (printed r);
  inv_printed : ∀ p, p ∈ printed r → region m0 vs p;
  inv_count : solution_count r = length (printed r);
  inv_break :
    stopped_by_break r = true ↔
    ∃ st, last_status r = Some st ∧ ¬ has_solution st;
  inv_limit :
    stopped_by_break r = false →
    (last_status r = None ∧ printed r = []) ∨
    (∃ st, last_status r = Some st ∧ has_solution st)
}.

End sat_cp.

(** ** N-queens ([src/sat-cp/n-queens.py]) *)

Module n_queens.

(** [main(board_size)] up to the call of the solver; [None] stands for an
    [IndexError] on [queens[i]]. *)
Definition main (board_size : Z) : option (CpModel * list IntVar) :=
  let model := CpModel_new in
  let '(queens, model) :=
    new_int_vars 0 (board_size - 1) (λ i, "x_" +:+ pretty i)
      (py_range board_size) model in
  let model := add_all_different (expr_of_var <$> queens) model in
  plus ← mapM (λ i : nat, q ← queens !! i;
                 Some (Add (expr_of_var q) (Const (Z.of_nat i))))
            (py_range board_size);
  let model := add_all_different plus model in
  minus ← mapM (λ i : nat, q ← queens !! i;
                  Some (Sub (expr_of_var q) (Const (Z.of_nat i))))
             (py_range board_size);
  let model := add_all_different minus model in
  Some (model, queens).

(** The model for the default board size. *)
Definition model : CpModel :=
  Eval vm_compute in default CpModel_new (fst <$> main 8).
Definition queens : list IntVar :=
  Eval vm_compute in default [] (snd <$> main 8).

(** Backtracking used to list the solutions: [attacks j v r] tells that
    the queen just placed on row [v] attacks one of the queens [r], the
    nearest being [j] columns away. *)
Fixpoint attacks (j : Z) (v : Z) (r : list Z) : bool :=
  match r with
  | [] => false
  | w :: r' => (v =? w) || (v =? w + j) || (v =? w - j) || attacks (j + 1) v r'
  end.

Definition prune (racc : list Z) : bool :=
  match racc with
  | [] => false
  | v :: r => attacks 1 v r
  end.

Definition solutions : list (list Z) :=
  Eval vm_compute in search prune (λ _, true) (domains model) [].

(** No two queens of [a] share a row or a diagonal. *)
Definition safe (a : list Z) : Prop :=
  ∀ i k x y, (i < k)%nat → a !! i = Some x → a !! k = Some y →
    x ≠ y ∧ x + Z.of_nat i ≠ y + Z.of_nat k ∧ x - Z.of_nat i ≠ y - Z.of_nat k.

End n_queens.

(** ** Nurse rostering ([src/nurse-shift.py]) *)

Module nurse_shift.

(** The fairness band: [min_shifts_per_nurse] and [max_shifts_per_nurse]. *)
Definition min_shifts_per_nurse (num_nurses num_shifts num_days : Z) : Z :=
  (num_shifts * num_days) `div` num_nurses.

Definition max_shifts_per_nurse (num_nurses num_shifts num_days : Z) : Z :=
  if (num_shifts * num_days) `mod` num_nurses =? 0
  then min_shifts_per_nurse num_nurses num_shifts num_days
  else min_shifts_per_nurse num_nurses num_shifts num_days + 1.

(** [sum(xs)]: Python starts the sum from [0]. *)
Definition sum (xs : list IntVar) : LinearExpr :=
  foldl (λ acc x, Add acc (expr_of_var x)) (Const 0) xs.

Definition key : Type := nat * nat * nat.

(** The model built by [main] for given sizes, with the dictionary
    [shifts]; [None] stands for a [KeyError]. *)
Definition build (num_nurses num_shifts num_days : Z)
    : option (CpModel * gmap key IntVar) :=
  let all_nurses := py_range num_nurses in
  let all_shifts := py_range num_shifts in
  let all_days := py_range num_days in
  let model := CpModel_new in
  let '(model, shifts) :=
    foldl (λ st n,
      foldl (λ st d,
        foldl (λ '(model, shifts) s,
          let '(b, model) :=
            new_bool_var ("shift_n" +:+ pretty n +:+ "_d" +:+ pretty d
                          +:+ "_s" +:+ pretty s) model in
          (model, <[(n, d, s) := b]> shifts))
        st all_shifts) st all_days) (model, ∅) all_nurses in
  model ← foldl (λ om d,
      foldl (λ om s,
        model ← om;
        xs ← mapM (λ n, shifts !! (n, d, s)) all_nurses;
        Some (add_exactly_one (lit <$> xs) model))
      om all_shifts) (Some model) all_days;
  model ← foldl (λ om n,
      foldl (λ om d,
        model ← om;
        xs ← mapM (λ s, shifts !! (n, d, s)) all_shifts;
        Some (add_at_most_one (lit <$> xs) model))
      om all_days) (Some model) all_nurses;
  let lo := min_shifts_per_nurse num_nurses num_shifts num_days in
  let hi := max_shifts_per_nurse num_nurses num_shifts num_days in
  model ← foldl (λ om n,
      model ← om;
      shifts_worked ←
        mapM (λ ds : nat * nat, shifts !! (n, ds.1, ds.2))
          (d ← all_days; s ← all_shifts; [(d, s)]);
      let model := add (Le (Const lo) (sum shifts_worked)) model in
      let model := add (Le (sum shifts_worked) (Const hi)) model in
      Some model) (Some model) all_nurses;
  Some (model, shifts).

Definition num_nurses : Z := 4.
Definition num_shifts : Z := 3.
Definition num_days : Z := 3.

Definition main : option (CpModel * gmap key IntVar) :=
  build num_nurses num_shifts num_days.

Definition model : CpModel :=
  Eval vm_compute in default CpModel_new (fst <$> main).

Definition shifts : gmap key IntVar :=
  Eval vm_compute in default ∅ (snd <$> main).

(** The variable of [shifts[(n, d, s)]]. *)
Definition shift_var (n d s : nat) : option IntVar := shifts !! (n, d, s).

(** Decoding: does nurse [n] work shift [s] of day [d] in solution [a]? *)
Definition works (a : list Z) (n d s : nat) : Prop :=
  match shift_var n d s with
  | Some b => Value a (index b) ≠ 0
  | None => False
  end.

Global Instance works_dec a n d s : Decision (works a n d s).
Proof. unfold works. destruct (shift_var n d s); apply _. Defined.
Global Typeclasses Opaque works.

(** What the callback prints from a solution: the nurses on a shift, the
    shifts of a nurse on a day, and all the shifts of a nurse. *)
Definition assigned_nurses (a : list Z) (d s : nat) : list nat :=
  filter (λ n, works a n d s) (py_range num_nurses).

Definition shifts_on_day (a : list Z) (n d : nat) : list nat :=
  filter (λ s, works a n d s) (py_range num_shifts).

Definition shifts_worked (a : list Z) (n : nat) : list (nat * nat) :=
  filter (λ ds, works a n ds.1 ds.2)
    (d ← py_range num_days; s ← py_range num_shifts; [(d, s)]).

(** A roster used as an example: on day [d], shift [s] goes to nurse
    [(3 * d + s) mod 4]. *)
Definition example_roster : list Z :=
  Eval vm_compute in
    n ← seq 0 4; d ← seq 0 3; s ← seq 0 3;
    [if bool_decide (((3 * d + s) `mod` 4)%nat = n) then 1 else 0].

(** Vocabulary for the roster properties. *)

(** Sum of the values of the variables [idx]. *)
Definition ones (a : list Z) (idx : list nat) : Z :=
  foldr (λ i acc, Value a i + acc) 0 idx.

Definition binary (a : list Z) (idx : list nat) : Prop :=
  Forall (λ i, 0 ≤ Value a i ≤ 1) idx.

(** The variable of nurse [n], day [d], shift [s] is number
    [(n * 3 + d) * 3 + s]. *)
Definition slot (n d s : nat) : nat := ((n * 3 + d) * 3 + s)%nat.

(** The (day, shift) pairs, in the order of the loops of [main]. *)
Definition day_shifts : list (nat * nat) :=
  Eval vm_compute in d ← seq 0 3; s ← seq 0 3; [(d, s)].

End nurse_shift.

(** *** The schedules a job-shop model admits *)

Module job_shop_model.
Import job_shop.

(** The variables are created two per task, job after job: [offset] is the
    number of tasks created before task [k] of job [j]. *)
Definition offset (jobs_data : list Job) (j k : nat) : nat :=
  (length (mjoin (take j jobs_data)) + k)%nat.

Definition tasks_count (jobs_data : list Job) : nat := length (mjoin jobs_data).

(** The times a raw solution gives to a task, and its makespan. *)
Definition start_of (jobs_data : list Job) (a : list Z) (j k : nat) : Z :=
  Value a (2 * offset jobs_data j k).
Definition end_of (jobs_data : list Job) (a : list Z) (j k : nat) : Z :=
  Value a (2 * offset jobs_data j k + 1).
Definition makespan_of (jobs_data : list Job) (a : list Z) : Z :=
  Value a (2 * tasks_count jobs_data).

(** A schedule of [jobs_data]: every time lies in [[0, horizon]]; a task
    ends its duration after it starts; a task starts once the previous task
    of its job has ended; two tasks of one machine do not overlap; the
    makespan is the latest end of the last tasks of the jobs. *)
Record schedule (jobs_data : list Job) (a : list Z) : Prop := {
  sch_length : length a = (2 * tasks_count jobs_data + 1)%nat;
  sch_range : Forall (λ z, 0 ≤ z ≤ horizon jobs_data) a;
  sch_duration : ∀ j k m d,
    task_at jobs_data j k = Some (m, d) →
    0 ≤ d ∧ end_of jobs_data a j k = start_of jobs_data a j k + d;
  sch_precedence : ∀ j k,
    is_Some (task_at jobs_data j (S k)) →
    end_of jobs_data a j k ≤ start_of jobs_data a j (S k);
  sch_machine : ∀ j1 k1 j2 k2 m d1 d2,
    (j1, k1) ≠ (j2, k2) →
    task_at jobs_data j1 k1 = Some (m, d1) →
    task_at jobs_data j2 k2 = Some (m, d2) →
    end_of jobs_data a j1 k1 ≤ start_of jobs_data a j2 k2 ∨
    end_of jobs_data a j2 k2 ≤ start_of jobs_data a j1 k1;
  sch_makespan_ub : ∀ j (job : Job),
    jobs_data !! j = Some job →
    end_of jobs_data a j (length job - 1) ≤ makespan_of jobs_data a;
  sch_makespan_eq : ∃ j (job : Job),
    jobs_data !! j = Some job ∧
    end_of jobs_data a j (length job - 1) = makespan_of jobs_data a
}.



(** The total processing time of a job, and of a machine. *)
Definition job_length (job : Job) : Z := foldr (λ task acc, task.2 + acc) 0 job.

Definition machine_load (jobs_data : list Job) (machine : nat) : Z :=
  foldr (λ task acc, if decide (task.1 = machine) then task.2 + acc else acc)
    0 (mjoin jobs_data).

(** *** Vocabulary of the construction *)

(** [iv] is the interval of the task [key], which runs on machine [m]. *)
Definition on_machine (jobs_data : list Job)
    (all_tasks : gmap (nat * nat) task_type) (m : nat)
    (key : nat * nat) (iv : IntervalVar) : Prop :=
  ∃ t d, all_tasks !! key = Some t ∧ interval t = iv ∧
         task_at jobs_data key.1 key.2 = Some (m, d).

(** The constraints the loops of [build] post. *)
Inductive posted (sc : script) (jobs_data : list Job)
    (all_tasks : gmap (nat * nat) task_type) : Constraint → Prop :=
  | posted_interval key t :
      all_tasks !! key = Some t →
      posted sc jobs_data all_tasks (mkConstraint (Interval (interval t)) [])
  | posted_no_overlap m keys l :
      NoDup keys → Forall2 (on_machine jobs_data all_tasks m) keys l →
      posted sc jobs_data all_tasks (mkConstraint (NoOverlap l) [])
  | posted_precedence j k cur next :
      all_tasks !! (j, k) = Some cur → all_tasks !! (j, S k) = Some next →
      posted sc jobs_data all_tasks
        (mkConstraint (Linear (precedence sc cur next)) []).

(** Invariant of the variable-creation loop: the position of every
    variable, and the constraints posted so far. *)
Record Layout (sc : script) (jobs_data : list Job) (j k : nat) (st : state)
    : Prop := {
  lay_length :
    length (variables (st_model st)) = (2 * offset jobs_data j k)%nat;
  lay_index : ∀ j' k' t,
    all_tasks st !! (j', k') = Some t →
    index (start t) = (2 * offset jobs_data j' k')%nat ∧
    index (end_ t) = (2 * offset jobs_data j' k' + 1)%nat;
  lay_posted :
    Forall (posted sc jobs_data (all_tasks st)) (constraints (st_model st));
  lay_machine : ∀ m l,
    machine_to_intervals st !! m = Some l →
    ∃ keys, NoDup keys ∧ Forall2 (on_machine jobs_data (all_tasks st) m) keys l
}.

(** What [build] guarantees besides [Built]: the keys of [all_tasks], the
    position of every variable, and the complete list of constraints. *)
Record Exact (sc : script) (jobs_data : list Job) (b : built) : Prop := {
  ex_keys : ∀ j k,
    is_Some (b_all_tasks b !! (j, k)) ↔ is_Some (task_at jobs_data j k);
  ex_index : ∀ j k t,
    b_all_tasks b !! (j, k) = Some t →
    index (start t) = (2 * offset jobs_data j k)%nat ∧
    index (end_ t) = (2 * offset jobs_data j k + 1)%nat;
  ex_length :
    length (variables (b_model b)) = (2 * tasks_count jobs_data + 1)%nat;
  ex_makespan : index (b_makespan b) = (2 * tasks_count jobs_data)%nat;
  ex_nonempty : ∀ j (job : Job), jobs_data !! j = Some job → job ≠ [];
  ex_constraints : ∃ cs last_tasks,
    constraints (b_model b)
    = cs ++ [mkConstraint (MaxEquality (b_makespan b) last_tasks) []] ∧
    Forall (posted sc jobs_data (b_all_tasks b)) cs ∧
    Forall2 (λ (p : nat * Job) e,
        ∃ t, b_all_tasks b !! (p.1, (length p.2 - 1)%nat) = Some t ∧
             e = expr_of_var (end_ t))
      (enumerate jobs_data) last_tasks
}.


End job_shop_model.

(** *** The report of [job-shop.py] *)

Module job_shop_output.
Import job_shop.

(** The named tuple [assigned_task_type(start, job, index, duration)]. *)
Record assigned_task_type := mk_assigned {
  a_start : Z;
  a_job : nat;
  a_index : nat;
  a_duration : Z
}.

Global Instance assigned_task_type_eq_dec : EqDecision assigned_task_type.
Proof. solve_decision. Defined.

(** Tuples compare field by field, from the left: the order [sort()]
    uses. *)
Definition assigned_le (x y : assigned_task_type) : Prop :=
  a_start x < a_start y ∨
  a_start x = a_start y ∧
    ((a_job x < a_job y)%nat ∨
     a_job x = a_job y ∧
       ((a_index x < a_index y)%nat ∨
        a_index x = a_index y ∧ a_duration x ≤ a_duration y)).

Global Instance assigned_le_dec x y : Decision (assigned_le x y).
Proof. unfold assigned_le. apply _. Defined.

(** Body of the loop that fills [assigned_jobs], a
    [collections.defaultdict(list)]. *)
Definition assign (b : built) (a : list Z) (job_id task_id : nat)
    (task : Task) (assigned_jobs : gmap nat (list assigned_task_type))
    : option (gmap nat (list assigned_task_type)) :=
  let machine := task.1 in
  t ← b_all_tasks b !! (job_id, task_id);
  Some (<[machine :=
            default [] (assigned_jobs !! machine)
            ++ [mk_assigned (Value a (index (start t))) job_id task_id task.2]]>
          assigned_jobs).

Definition assigned_jobs (b : built) (a : list Z) (jobs_data : list Job)
    : option (gmap nat (list assigned_task_type)) :=
  for_each (λ '(job_id, job),
      for_each (λ '(task_id, task), assign b a job_id task_id task)
        (enumerate job))
    (enumerate jobs_data) ∅.

(** [assigned_jobs[machine].sort()] and the row it leaves. *)
Definition sorted_row (assigned_jobs : gmap nat (list assigned_task_type))
    (machine : nat) : list assigned_task_type :=
  merge_sort assigned_le (default [] (assigned_jobs !! machine)).

(** [f"{s:15}"]: [s] followed by spaces up to the width, never cut. *)
Fixpoint spaces (n : nat) : string :=
  match n with
  | O => EmptyString
  | S n' => " " +:+ spaces n'
  end.

Definition pad (width : nat) (s : string) : string :=
  s +:+ spaces (width - String.length s).

Definition task_name (x : assigned_task_type) : string :=
  "job_" +:+ pretty (a_job x) +:+ "_task_" +:+ pretty (a_index x).

Definition interval_text (x : assigned_task_type) : string :=
  "[" +:+ pretty (a_start x) +:+ "," +:+ pretty (a_start x + a_duration x)
  +:+ "]".

(** The two lines of a machine, without their final newline. *)
Definition machine_lines (machine : nat) (row : list assigned_task_type)
    : string * string :=
  let sol_line_tasks := "Machine " +:+ pretty machine +:+ ": " in
  let sol_line := "           " in
  foldl (λ '(sol_line_tasks, sol_line) assigned_task,
      (sol_line_tasks +:+ pad 15 (task_name assigned_task),
       sol_line +:+ pad 15 (interval_text assigned_task)))
    (sol_line_tasks, sol_line) row.

(** What the script prints after the call of the solver: either
    ["Solution:"], the schedule length ([solver.objective_value], printed
    as a float) and the lines of [output], or ["No solution found."]. *)
Inductive report :=
  | Solution (schedule_length : Z) (output : list string)
  | NoSolution.

Definition main_with (solve : CpSolver) (jobs_data : list Job)
    : option report :=
  all_machines ← seq 0 <$> machines_count JobShop jobs_data;
  b ← build JobShop jobs_data;
  let resp := solve (b_model b) in
  if decide (status resp = OPTIMAL ∨ status resp = FEASIBLE) then
    assigned_jobs ← assigned_jobs b (solution resp) jobs_data;
    let output :=
      machine ← all_machines;
      let '(sol_line_tasks, sol_line) :=
        machine_lines machine (sorted_row assigned_jobs machine) in
      [sol_line_tasks; sol_line] in
    Some (Solution (objective_value (b_model b) (solution resp)) output)
  else Some NoSolution.

(** The entries of a row come from the tasks of its machine. *)
Definition entry_of (jobs_data : list Job) (a : list Z) (machine : nat)
    (x : assigned_task_type) : Prop :=
  task_at jobs_data (a_job x) (a_index x) = Some (machine, a_duration x) ∧
  a_start x = job_shop_model.start_of jobs_data a (a_job x) (a_index x).

End job_shop_output.

(** *** The report of [sample.py] *)

Module sample_output.
Import job_shop.


(** What the script prints after the call of the solver: the value of
    [makespan], the status and one line [(job, task, start)] per task, or
    the message that there is no feasible solution. *)
Inductive report :=
  | Found (makespan : Z) (st : CpSolverStatus) (starts : list (nat * nat * Z))
  | NoFeasible.

Definition main_with (solve : CpSolver) (jobs_data : list Job)
    : option report :=
  b ← build Sample jobs_data;
  let resp := solve (b_model b) in
  if decide (status resp = OPTIMAL ∨ status resp = FEASIBLE) then
    starts ← mapM (λ '(job_id, task_id),
          t ← b_all_tasks b !! (job_id, task_id);
          Some (job_id, task_id, Value (solution resp) (index (start t))))
        ('(job_id, job) ← enumerate jobs_data;
         task_id ← seq 0 (length job); [(job_id, task_id)]);
    Some (Found (Value (solution resp) (index (b_makespan b)))
            (status resp) starts)
  else Some NoFeasible.

End sample_output.

(** *** The solution printer of [n-queens.py] *)

Module n_queens_printer.

(** [NQueenSolutionPrinter]: the queens, the counter, and what was printed:
    for each solution the number shown in its header and the lines of the
    board.  The elapsed time that the header also shows is read from the
    clock and is left out. *)
Record NQueenSolutionPrinter := mk_printer {
  printer_queens : list IntVar;
  solution_count : nat;
  printed : list (nat * list string)
}.

Definition NQueenSolutionPrinter_init (queens : list IntVar)
    : NQueenSolutionPrinter :=
  mk_printer queens 0 [].

(** One line of the board: ["Q "] where the queen of column [j] stands on
    row [i], ["_ "] elsewhere. *)
Definition board_row (queens : list IntVar) (a : list Z) (i : nat) : string :=
  foldl (λ line q,
      line +:+ (if decide (Value a (index q) = Z.of_nat i) then "Q" else "_")
           +:+ " ")
    EmptyString queens.

Definition board (queens : list IntVar) (a : list Z) : list string :=
  let all_queens := seq 0 (length queens) in
  board_row queens a <$> all_queens.

(** The header is printed before the counter is incremented. *)
Definition on_solution_callback (self : NQueenSolutionPrinter) (a : list Z)
    : NQueenSolutionPrinter :=
  mk_printer (printer_queens self) (solution_count self + 1)
    (printed self ++ [(solution_count self, board (printer_queens self) a)]).

(** The engine's side of [solver.solve(model, solution_printer)]: the
    callback runs on each solution of the stream [found]. *)
Definition solve_with_callback (found : list (list Z))
    (cb : NQueenSolutionPrinter) : NQueenSolutionPrinter :=
  foldl on_solution_callback cb found.

(** [s] written [n] times. *)
Fixpoint repeated (n : nat) (s : string) : string :=
  match n with
  | O => EmptyString
  | S n' => s +:+ repeated n' s
  end.

(** The placement turned upside down: row [x] becomes row
    [board_size - 1 - x]. *)
Definition mirror (board_size : Z) (a : list Z) : list Z :=
  (λ x, board_size - 1 - x) <$> a.

End n_queens_printer.

(** *** Enumeration through a callback with a limit ([sat-cp.py]) *)

Module sat_cp_printer.

(** [VarArraySolutionPrinter(variables, limit)]: the counter, the
    solutions collected, the lines printed, and whether [StopSearch] was
    called. *)
Record VarArraySolutionPrinter := mk_printer {
  printer_variables : list IntVar;
  solution_count : nat;
  solutions : list (list Z);
  limit : Z;
  lines : list string;
  stopped : bool
}.

Definition VarArraySolutionPrinter_init (variables : list IntVar) (limit : Z)
    : VarArraySolutionPrinter :=
  mk_printer variables 0 [] limit [] false.

Definition on_solution_callback (self : VarArraySolutionPrinter) (a : list Z)
    : VarArraySolutionPrinter :=
  let solution_count := (solution_count self + 1)%nat in
  let solution := (λ var, Value a (index var)) <$> printer_variables self in
  let solutions := solutions self ++ [solution] in
  let lines :=
    lines self
    ++ ["解 " +:+ pretty solution_count +:+ ":"]
    ++ imap (λ i var,
          "  " +:+ name var +:+ " = " +:+ pretty (default 0 (solution !! i)))
        (printer_variables self)
    ++ [EmptyString] in
  mk_printer (printer_variables self) solution_count solutions (limit self)
    lines
    (if decide (limit self ≤ Z.of_nat solution_count) then true
     else stopped self).

(** The engine's side of [solver.solve(model, solution_printer)]: the
    callback runs on each solution of the stream [found], until it has
    asked to stop. *)
Fixpoint solve_with_callback (found : list (list Z))
    (cb : VarArraySolutionPrinter) : VarArraySolutionPrinter :=
  match found with
  | [] => cb
  | a :: rest =>
      let cb := on_solution_callback cb a in
      if stopped cb then cb else solve_with_callback rest cb
  end.

(** [simple_sat_program_multiple_solutions], for the stream of solutions
    that the engine finds. *)
Definition program_model : CpModel * list IntVar :=
  let model := CpModel_new in
  let num_vals := 3 in
  let '(x, model) := new_int_var 0 (num_vals - 1) "x" model in
  let '(y, model) := new_int_var 0 (num_vals - 1) "y" model in
  let '(z, model) := new_int_var 0 (num_vals - 1) "z" model in
  let model := add (Ne x y) model in
  (model, [x; y; z]).

Definition simple_sat_program_multiple_solutions (found : list (list Z))
    : VarArraySolutionPrinter :=
  let '(model, variables) := program_model in
  let solution_printer := VarArraySolutionPrinter_init variables 10 in
  solve_with_callback found solution_printer.

End sat_cp_printer.

(** *** Rosters of [nurse-shift.py] for any sizes *)

Module nurse_shift_model.
Import nurse_shift.

(** The keys of [shifts] in the order in which [main] creates the
    variables, and the (day, shift) pairs in loop order. *)
Definition triples (num_nurses num_shifts num_days : Z) : list key :=
  n ← py_range num_nurses; d ← py_range num_days; s ← py_range num_shifts;
  [(n, d, s)].

Definition pairs (rows columns : Z) : list (nat * nat) :=
  x ← py_range rows; y ← py_range columns; [(x, y)].

(** The variable of nurse [n], day [d], shift [s] is number
    [(n * num_days + d) * num_shifts + s]. *)
Definition slot_of (num_shifts num_days : Z) (n d s : nat) : nat :=
  ((n * Z.to_nat num_days + d) * Z.to_nat num_shifts + s)%nat.

Definition shift_name (k : key) : string :=
  "shift_n" +:+ pretty k.1.1 +:+ "_d" +:+ pretty k.1.2 +:+ "_s" +:+ pretty k.2.

Definition shift_at (j : nat) (k : key) : IntVar :=
  mkIntVar j (shift_name k) 0 1.

(** [cs] posted on [m]. *)
Definition posts (cs : list Constraint) (m : CpModel) : CpModel :=
  mkCpModel (variables m) (constraints m ++ cs) (objective m).

(** The rosters: one 0/1 value per (nurse, day, shift); every shift of
    every day has one nurse; a nurse works at most one shift a day; the
    number of shifts of every nurse lies in the fairness band. *)
Record roster (num_nurses num_shifts num_days : Z) (a : list Z) : Prop := {
  ro_length :
    length a
    = (Z.to_nat num_nurses * Z.to_nat num_days * Z.to_nat num_shifts)%nat;
  ro_binary : Forall (λ v, 0 ≤ v ≤ 1) a;
  ro_exactly_one d s :
    d ∈ py_range num_days → s ∈ py_range num_shifts →
    ones a ((λ n, slot_of num_shifts num_days n d s) <$> py_range num_nurses)
    = 1;
  ro_at_most_one n d :
    n ∈ py_range num_nurses → d ∈ py_range num_days →
    ones a ((λ s, slot_of num_shifts num_days n d s) <$> py_range num_shifts)
    ≤ 1;
  ro_fair n :
    n ∈ py_range num_nurses →
    min_shifts_per_nurse num_nurses num_shifts num_days
    ≤ ones a ((λ ds : nat * nat, slot_of num_shifts num_days n ds.1 ds.2)
              <$> pairs num_days num_shifts)
    ≤ max_shifts_per_nurse num_nurses num_shifts num_days
}.

(** The roster that hands the shifts out in turn: shift [s] of day [d] goes
    to nurse [(d * num_shifts + s) mod num_nurses]. *)
Definition round_robin (num_nurses num_shifts num_days : Z) : list Z :=
  (λ k : key,
     if decide (((k.1.2 * Z.to_nat num_shifts + k.2)
                 `mod` Z.to_nat num_nurses)%nat = k.1.1)
     then 1 else 0)
  <$> triples num_nurses num_shifts num_days.

End nurse_shift_model.

(** *** The solution printer of [nurse-shift.py] *)

Module nurse_shift_printer.
Import nurse_shift.

(** [NursesPartialSolutionPrinter]: its fields, the lines printed so far,
    and whether [stop_search] was called. *)
Record NursesPartialSolutionPrinter := mk_printer {
  _shifts : gmap key IntVar;
  _num_nurses : Z;
  _num_days : Z;
  _num_shifts : Z;
  _solution_count : nat;
  _solution_limit : Z;
  lines : list string;
  stopped : bool
}.

Definition NursesPartialSolutionPrinter_init (shifts : gmap key IntVar)
    (num_nurses num_days num_shifts limit : Z) : NursesPartialSolutionPrinter :=
  mk_printer shifts num_nurses num_days num_shifts 0 limit [] false.

(** The lines of one nurse on one day; [None] stands for a [KeyError]. *)
Definition nurse_lines (self : NursesPartialSolutionPrinter) (a : list Z)
    (d n : nat) (out : list string) : option (list string) :=
  '(is_working, out) ←
    for_each (λ s '(is_working, out),
        b ← _shifts self !! (n, d, s);
        if decide (Value a (index b) ≠ 0)
        then Some (true,
                   out ++ ["  Nurse " +:+ pretty n +:+ " works shift "
                           +:+ pretty s])
        else Some (is_working, out))
      (py_range (_num_shifts self)) (false, out);
  Some (if is_working : bool then out
        else out ++ ["  Nurse " +:+ pretty n +:+ " does not work"]).

Definition on_solution_callback (self : NursesPartialSolutionPrinter)
    (a : list Z) : option NursesPartialSolutionPrinter :=
  let solution_count := (_solution_count self + 1)%nat in
  let out := lines self ++ ["Solution " +:+ pretty solution_count] in
  out ← for_each (λ d out,
      let out := out ++ ["Day " +:+ pretty d] in
      for_each (nurse_lines self a d) (py_range (_num_nurses self)) out)
    (py_range (_num_days self)) out;
  if decide (_solution_limit self ≤ Z.of_nat solution_count)
  then Some (mk_printer (_shifts self) (_num_nurses self) (_num_days self)
               (_num_shifts self) solution_count (_solution_limit self)
               (out ++ ["Stop search after " +:+ pretty (_solution_limit self)
                        +:+ " solutions"])
               true)
  else Some (mk_printer (_shifts self) (_num_nurses self) (_num_days self)
               (_num_shifts self) solution_count (_solution_limit self)
               out (stopped self)).

(** The engine's side of [solver.solve(model, solution_printer)]: the
    callback runs on each solution of the stream [found], until it has
    asked to stop. *)
Fixpoint solve_with_callback (found : list (list Z))
    (cb : NursesPartialSolutionPrinter) : option NursesPartialSolutionPrinter :=
  match found with
  | [] => Some cb
  | a :: rest =>
      cb ← on_solution_callback cb a;
      if stopped cb then Some cb else solve_with_callback rest cb
  end.

(** [main] for given sizes and limit, on the stream of solutions that the
    engine finds. *)
Definition main_with (num_nurses num_shifts num_days solution_limit : Z)
    (found : list (list Z)) : option NursesPartialSolutionPrinter :=
  '(model, shifts) ← build num_nurses num_shifts num_days;
  let solution_printer :=
    NursesPartialSolutionPrinter_init shifts num_nurses num_days num_shifts
      solution_limit in
  solve_with_callback found solution_printer.

(** A printer that holds the dictionary and the sizes of a build. *)
Definition printer_of (N S D : Z) (self : NursesPartialSolutionPrinter) : Prop :=
  (∀ n d s, n ∈ py_range N → d ∈ py_range D → s ∈ py_range S →
     ∃ b, _shifts self !! (n, d, s) = Some b ∧ index b = nurse_shift_model.slot_of S D n d s) ∧
  _num_nurses self = N ∧ _num_days self = D ∧ _num_shifts self = S.

(** The shifts that nurse [n] works on day [d] in a solution, and the line
    of that nurse on that day. *)
Definition working_shifts (num_shifts num_days : Z) (a : list Z) (d n : nat)
    : list nat :=
  filter (λ s, Value a (nurse_shift_model.slot_of num_shifts num_days n d s) ≠ 0)
    (py_range num_shifts).

Definition nurse_line (num_shifts num_days : Z) (a : list Z) (d n : nat)
    : string :=
  match working_shifts num_shifts num_days a d n with
  | s :: _ => "  Nurse " +:+ pretty n +:+ " works shift " +:+ pretty s
  | [] => "  Nurse " +:+ pretty n +:+ " does not work"
  end.

Definition solution_lines (num_nurses num_shifts num_days : Z) (a : list Z)
    : list string :=
  d ← py_range num_days;
  ("Day " +:+ pretty d) :: (nurse_line num_shifts num_days a d <$> py_range num_nurses).

(** Five rosters of the 4 nurses, 3 shifts and 3 days of [main]: the shifts
    handed out in turn starting from nurse [k], for [k = 0..3], and the
    first of them with the shifts of each day in reverse order. *)
Definition example_rosters : list (list Z) :=
  Eval vm_compute in
    ((λ k : nat,
        n ← seq 0 4; d ← seq 0 3; s ← seq 0 3;
        [if bool_decide (((3 * d + s + k) `mod` 4)%nat = n) then 1 else 0])
     <$> seq 0 4)
    ++ [n ← seq 0 4; d ← seq 0 3; s ← seq 0 3;
        [if bool_decide (((3 * d + (2 - s)) `mod` 4)%nat = n) then 1 else 0]].

End nurse_shift_printer.

(** * Proofs *)

(** Splits a hypothesis [Forall2 in_domain xs a] over a concrete list of
    variables into one value and one domain fact per variable. *)
Ltac split_solution H :=
  repeat match type of H with
  | Forall2 _ (_ :: _) _ =>
      let z := fresh "z" in let D := fresh "D" in
      apply Forall2_cons_inv_l in H as (z & ? & D & H & ->)
  | Forall2 _ [] _ => apply Forall2_nil_inv_l in H as ->
  end.

(** Closes an arithmetic goal by cases on [H : x ∈ [x1; ...; xn]]. *)
Ltac members H :=
  repeat (apply elem_of_cons in H as [?|H]);
  [..|by apply elem_of_nil in H]; simplify_eq; simpl; lia.

Lemma elem_of_range lo hi z : z ∈ range lo hi ↔ lo ≤ z ≤ hi.
Proof.
  unfold range. rewrite list_elem_of_fmap. split.
  - intros (k & -> & Hk). apply elem_of_seq in Hk. lia.
  - intros Hz. exists (Z.to_nat (z - lo)). split; [lia|].
    apply elem_of_seq. lia.
Qed.

Lemma in_domains m a :
  Forall2 in_domain (variables m) a → Forall2 (λ v d, v ∈ d) a (domains m).
Proof.
  unfold domains. intros H. apply Forall2_flip. apply Forall2_fmap_l.
  eapply Forall2_impl; [exact H|]. intros x z Hz. simpl.
  by apply elem_of_range.
Qed.

Section search.
Context (P : list Z → Prop) (prune check : list Z → bool).
Hypothesis prune_sound : ∀ p s, P (p ++ s) → prune (reverse p) = false.
Hypothesis check_complete : ∀ a, P a → check a = true.

Lemma search_complete doms p s :
  Forall2 (λ v d, v ∈ d) s doms → P (p ++ s) →
  p ++ s ∈ search prune check doms (reverse p).
Proof.
  intros Hs. revert p. induction Hs as [|v d s doms Hv Hs IH]; intros p HP; simpl.
  - rewrite reverse_involutive, app_nil_r.
    rewrite app_nil_r in HP. rewrite (check_complete _ HP). by left.
  - apply list_elem_of_bind. exists v. split; [|done].
    assert (Hpre : prune (v :: reverse p) = false).
    { rewrite <- reverse_snoc. apply (prune_sound _ s).
      by rewrite <- app_assoc. }
    rewrite Hpre. rewrite <- reverse_snoc.
    replace (p ++ v :: s) with ((p ++ [v]) ++ s) by (by rewrite <- app_assoc).
    apply IH. by rewrite <- app_assoc.
Qed.

Lemma search_all doms a :
  Forall2 (λ v d, v ∈ d) a doms → P a → a ∈ search prune check doms [].
Proof. intros Ha HP. by apply (search_complete doms [] a). Qed.
End search.

Lemma enumerates_length m l1 l2 :
  enumerates m l1 → enumerates m l2 → length l1 = length l2.
Proof.
  intros [N1 H1] [N2 H2]. apply Permutation_length.
  apply NoDup_Permutation; [done..|]. intros a. by rewrite <- H1, <- H2.
Qed.

(** ** Loops *)

Lemma for_each_inv {A St} (body : A → St → option St) (I : nat → St → Prop)
    (l : list A) s s' :
  I 0%nat s →
  (∀ i x s1 s2, l !! i = Some x → I i s1 → body x s1 = Some s2 → I (S i) s2) →
  for_each body l s = Some s' → I (length l) s'.
Proof.
  revert I s. induction l as [|x l IH]; intros I s H0 Hstep Hrun; simpl in *.
  - by injection Hrun as <-.
  - destruct (body x s) as [s1|] eqn:Hx; [|done]. simpl in Hrun.
    apply (IH (λ i, I (S i)) s1); [|intros i; apply (Hstep (S i))|done].
    by apply (Hstep 0%nat x s s1).
Qed.

Lemma enumerate_lookup {A} (l : list A) i p :
  enumerate l !! i = Some p ↔ p.1 = i ∧ l !! i = Some p.2.
Proof.
  unfold enumerate. rewrite list_lookup_imap. destruct p as [j y].
  destruct (l !! i) as [x|]; simpl; split.
  - by intros [= <- <-].
  - by intros [<- [= <-]].
  - done.
  - by intros [_ ?].
Qed.

Lemma length_enumerate {A} (l : list A) : length (enumerate l) = length l.
Proof. apply length_imap. Qed.

(** ** Growth of a model *)

Global Instance extends_preorder : PreOrder extends.
Proof.
  split.
  - intros m. by split.
  - intros m1 m2 m3 [? ?] [? ?]. split; by etrans.
Qed.

Lemma extends_new_int_var lo hi nm m x m' :
  new_int_var lo hi nm m = (x, m') →
  extends m m' ∧ variables m' = variables m ++ [x] ∧
  index x = length (variables m) ∧ lb x = lo ∧ ub x = hi ∧
  constraints m' = constraints m.
Proof.
  unfold new_int_var. intros [= <- <-]. simpl. split_and!; try done.
  split; simpl; [by apply prefix_app_r|done].
Qed.

Lemma extends_post c m :
  extends m (post c m) ∧ variables (post c m) = variables m ∧
  c ∈ constraints (post c m).
Proof.
  unfold post. simpl. split_and!; [|done|set_solver].
  split; simpl; [done|set_solver].
Qed.

Lemma extends_variable m m' i x :
  extends m m' → variables m !! i = Some x → variables m' !! i = Some x.
Proof. intros [? _] ?. by eapply prefix_lookup_Some. Qed.

Lemma extends_constraint m m' c :
  extends m m' → c ∈ constraints m → c ∈ constraints m'.
Proof. intros [_ H]. apply H. Qed.

(** Reading a solution *)

Lemma feasible_holds m a c :
  feasible m a → c ∈ constraints m → enforcement c = [] → holds_body a (body c).
Proof.
  intros [_ Hc] Hin He. apply (proj1 (Forall_forall _ _) Hc c Hin).
  rewrite He. constructor.
Qed.

Lemma feasible_domain m a x :
  feasible m a → variables m !! index x = Some x →
  lb x ≤ Value a (index x) ≤ ub x.
Proof.
  intros [Hd _] Hx.
  destruct (Forall2_lookup_l _ _ _ _ _ Hd Hx) as (z & Hz & Hdom).
  unfold Value. by rewrite Hz.
Qed.

Lemma no_overlap_sublist a l1 l2 :
  l1 `sublist_of` l2 → no_overlap a l2 → no_overlap a l1.
Proof.
  induction 1 as [|x l1 l2 Hsub IH|x l1 l2 Hsub IH]; simpl; [done|..].
  - intros [Hx Hrest]. split; [|by apply IH].
    apply Forall_forall. intros y Hy.
    apply (proj1 (Forall_forall _ _) Hx). by eapply elem_of_sublist.
  - intros [_ Hrest]. by apply IH.
Qed.

Lemma no_overlap_pair a x y l :
  no_overlap a l → [x; y] `sublist_of` l ∨ [y; x] `sublist_of` l →
  disjoint a x y.
Proof.
  intros Hl [Hs|Hs]; pose proof (no_overlap_sublist a _ _ Hs Hl) as [H _];
    apply Forall_cons in H as [H _]; unfold disjoint in *; tauto.
Qed.

(** ** The cryptarithmetic puzzle *)

Module cryptarithmetic_facts.
Import cryptarithmetic.

Lemma cryptarithm_feasible_inv a :
  feasible model a →
  ∃ c p i s f u n t r e,
    a = [c; p; i; s; f; u; n; t; r; e] ∧
    (1 ≤ c ≤ 9 ∧ 0 ≤ p ≤ 9 ∧ 1 ≤ i ≤ 9 ∧ 0 ≤ s ≤ 9 ∧ 1 ≤ f ≤ 9) ∧
    (0 ≤ u ≤ 9 ∧ 0 ≤ n ≤ 9 ∧ 1 ≤ t ≤ 9 ∧ 0 ≤ r ≤ 9 ∧ 0 ≤ e ≤ 9) ∧
    NoDup a ∧
    c * 10 + p + i * 10 + s + f * 10 * 10 + u * 10 + n
    = t * 10 * 10 * 10 + r * 10 * 10 + u * 10 + e.
Proof.
  intros [Hd Hc]. unfold model in Hd, Hc. cbn [variables constraints] in Hd, Hc.
  split_solution Hd. unfold in_domain in *. cbn [lb ub] in *.
  apply Forall_cons in Hc as [H1 Hc]. apply Forall_cons in Hc as [H2 _].
  unfold holds in H1, H2. cbn in H1, H2.
  do 10 eexists. split; [reflexivity|]. split; [done|]. split; [done|].
  split; [by apply H1|by apply H2].
Qed.

Lemma repeats_false (p : list Z) : NoDup p → repeats (reverse p) = false.
Proof.
  induction p as [|v q _] using rev_ind; [done|].
  rewrite reverse_snoc. intros [_ [Hv _]]%NoDup_app. simpl.
  apply not_true_is_false. intros (x & Hx & ->%Z.eqb_eq)%existsb_exists.
  apply (Hv x); [|by left].
  apply list_elem_of_In in Hx. by rewrite elem_of_reverse in Hx.
Qed.

Lemma cryptarithm_prune_sound p s : feasible model (p ++ s) → prune (reverse p) = false.
Proof.
  intros (c & p' & i & s' & f & u & n & t & r & e & E & B1 & B2 & N & Hsum)%cryptarithm_feasible_inv.
  apply orb_false_intro.
  { apply repeats_false. by apply NoDup_app in N as [? _]. }
  assert (t ≠ r).
  { intros ->. rewrite E in N.
    by pose proof (NoDup_lookup _ 7%nat 8%nat r N eq_refl eq_refl). }
  clear N.
  do 11 (try (destruct p as [|? p]; simpl in E; [clear E|injection E as -> E])).
  all: try (by destruct p).
  all: cbv [reverse rev_append out_of_reach]; lia.
Qed.

Lemma sum_ok_complete a : feasible model a → sum_ok a = true.
Proof.
  intros (c & p' & i & s' & f & u & n & t & r & e & -> & _ & _ & _ & Hsum)%cryptarithm_feasible_inv.
  simpl. lia.
Qed.

Lemma cryptarithm_solutions_search : solutions = search prune sum_ok (domains model) [].
Proof. vm_compute. reflexivity. Qed.

Lemma cryptarithm_solutions_feasible : Forall (feasible model) solutions.
Proof. compute_done. Qed.

Lemma cryptarithm_solutions_enumerate : enumerates model solutions.
Proof.
  split.
  - compute_done.
  - intros a. split.
    + intros Ha. rewrite cryptarithm_solutions_search.
      apply (search_all (feasible model) prune sum_ok cryptarithm_prune_sound sum_ok_complete);
        [apply in_domains, Ha|done].
    + intros Ha. by apply (proj1 (Forall_forall _ _) cryptarithm_solutions_feasible).
Qed.

(** 23 + 74 + 968 = 1065 is a solution; changing E to 6 breaks the sum; and
    25 + 74 + 966 = 1065 satisfies the sum but repeats the digits 5 and 6. *)
Example cryptarithm_accepts : feasible model [2; 3; 7; 4; 9; 6; 8; 1; 0; 5].
Proof. compute_done. Qed.

Example cryptarithm_rejects_sum : ¬ feasible model [2; 3; 7; 4; 9; 6; 8; 1; 0; 6].
Proof. compute_done. Qed.

Example cryptarithm_rejects_repeat :
  holds [2; 5; 7; 4; 9; 6; 6; 1; 0; 5] equation ∧
  ¬ feasible model [2; 5; 7; 4; 9; 6; 6; 1; 0; 5].
Proof. split; compute_done. Qed.

Lemma callback_count found cb :
  solution_count (solve_with_callback found cb)
  = (solution_count cb + length found)%nat.
Proof.
  unfold solve_with_callback. revert cb.
  induction found as [|a found IH]; intros cb; simpl; [lia|].
  rewrite IH. simpl. lia.
Qed.

(** C2: the model built by [main] for CP + IS + FUN = TRUE (ten digit
    variables, leading letters in [1,9], all different, the base-10 sum) has
    exactly 72 distinct solutions, and a callback enumeration that delivers
    every solution once ends with [solution_count = 72]. *)
Theorem cryptarithm_has_72_solutions :
  main = Some (model, letters) ∧
  (∃ sols, enumerates model sols ∧ length sols = 72%nat) ∧
  (∀ found, enumerates model found →
     solution_count
       (solve_with_callback found (VarArraySolutionPrinter_init letters))
     = 72%nat).
Proof.
  split; [reflexivity|]. split.
  - exists solutions. split; [apply cryptarithm_solutions_enumerate|reflexivity].
  - intros found Hfound. rewrite callback_count. simpl.
    by rewrite (enumerates_length _ _ _ Hfound cryptarithm_solutions_enumerate).
Qed.

Lemma cryptarithm_has_72_solutions_witness :
  enumerates model solutions ∧
  solution_count
    (solve_with_callback solutions (VarArraySolutionPrinter_init letters))
  = 72%nat.
Proof.
  split; [apply cryptarithm_solutions_enumerate|].
  apply (proj2 (proj2 cryptarithm_has_72_solutions) solutions).
  apply cryptarithm_solutions_enumerate.
Defined.

(** C10: in the equality posted by [main], U carries the coefficient 10 on
    both sides, so whether the equality holds does not depend on the value
    of U; besides its domain, only the all-different constraint restricts
    U. *)
Theorem equation_independent_of_U :
  constraints model =
    [mkConstraint (AllDifferent (expr_of_var <$> letters)) []; equation] ∧
  equation =
    mkConstraint
      (Linear (Eq (Var 0 * 10 + Var 1 + Var 2 * 10 + Var 3 + Var 4 * 10 * 10
                   + Var 5 * 10 + Var 6)%E
                  (Var 7 * 10 * 10 * 10 + Var 8 * 10 * 10 + Var 5 * 10
                   + Var 9)%E)) [] ∧
  letters !! 5%nat = Some (mkIntVar 5 "U" 0 9) ∧
  (∀ c p i s f n t r e u u',
     holds [c; p; i; s; f; u; n; t; r; e] equation ↔
     holds [c; p; i; s; f; u'; n; t; r; e] equation) ∧
  (∀ c p i s f n t r e u u',
     feasible model [c; p; i; s; f; u; n; t; r; e] →
     0 ≤ u' ≤ 9 → u' ∉ [c; p; i; s; f; n; t; r; e] →
     feasible model [c; p; i; s; f; u'; n; t; r; e]).
Proof.
  split; [reflexivity|]. split; [reflexivity|]. split; [reflexivity|].
  assert (Hind : ∀ c p i s f n t r e u u',
     holds [c; p; i; s; f; u; n; t; r; e] equation →
     holds [c; p; i; s; f; u'; n; t; r; e] equation).
  { intros c p i s f n t r e u u' H _. specialize (H (Forall_nil_2 _)).
    unfold equation in *. cbn in *. lia. }
  split.
  - intros. split; apply Hind.
  - intros c p i s f n t r e u u' [Hd Hc] Hu' Hnew.
    unfold model in Hd, Hc |- *. cbn [variables constraints] in Hd, Hc.
    split; cbn [variables constraints].
    + repeat (apply Forall2_cons_1 in Hd as [? Hd]).
      repeat (constructor; [first [assumption | exact Hu']|]). constructor.
    + apply Forall_cons in Hc as [H1 Hc]. apply Forall_cons in Hc as [H2 _].
      constructor; [|constructor; [|constructor]].
      * intros _. specialize (H1 (Forall_nil_2 _)). cbn in H1 |- *.
        rewrite !NoDup_cons, !not_elem_of_cons in H1 |- *.
        rewrite !not_elem_of_cons in Hnew.
        destruct_and?. split_and?; try done; congruence.
      * by apply (Hind _ _ _ _ _ _ _ _ _ u).
Qed.

Lemma equation_independent_of_U_witness :
  feasible model [2; 3; 7; 4; 9; 6; 8; 1; 0; 5] ∧
  feasible model [2; 3; 7; 4; 9; 6; 8; 1; 0; 5].
Proof.
  assert (H : feasible model [2; 3; 7; 4; 9; 6; 8; 1; 0; 5]) by compute_done.
  split; [exact H|].
  apply (proj2 (proj2 (proj2 (proj2 equation_independent_of_U)))
           2 3 7 4 9 8 1 0 5 6 6 H); [lia|compute_done].
Defined.

End cryptarithmetic_facts.

(** ** N-queens *)

Module n_queens_facts.
Import n_queens.

Lemma NoDup_imap_lookup (f : nat → Z → Z) (a : list Z) i k x y :
  NoDup (imap f a) → i ≠ k → a !! i = Some x → a !! k = Some y → f i x ≠ f k y.
Proof.
  intros N Hik Hi Hk E. apply Hik.
  apply (NoDup_lookup _ i k (f i x) N).
  - by rewrite list_lookup_imap, Hi.
  - by rewrite list_lookup_imap, Hk, E.
Qed.

Lemma queens_feasible_inv a :
  feasible model a →
  length a = 8%nat ∧ Forall (λ q, 0 ≤ q ≤ 7) a ∧ safe a.
Proof.
  intros [Hd Hc]. unfold model in Hd, Hc. cbn [variables constraints] in Hd, Hc.
  split_solution Hd. unfold in_domain in *. cbn [lb ub] in *.
  split; [reflexivity|]. split; [repeat constructor; lia|].
  apply Forall_cons in Hc as [H1 Hc]. apply Forall_cons in Hc as [H2 Hc].
  apply Forall_cons in Hc as [H3 _].
  specialize (H1 (Forall_nil_2 _)). specialize (H2 (Forall_nil_2 _)).
  specialize (H3 (Forall_nil_2 _)). cbn in H1, H2, H3.
  set (a := [z; z0; z1; z2; z3; z4; z5; z6]) in *.
  change (NoDup (imap (λ _ x, x) a)) in H1.
  change (NoDup (imap (λ (i : nat) x, x + Z.of_nat i) a)) in H2.
  change (NoDup (imap (λ (i : nat) x, x - Z.of_nat i) a)) in H3.
  intros i k x y Hik Hi Hk. split_and!.
  - apply (NoDup_imap_lookup _ a i k x y H1); [lia|done..].
  - apply (NoDup_imap_lookup _ a i k x y H2); [lia|done..].
  - apply (NoDup_imap_lookup _ a i k x y H3); [lia|done..].
Qed.

Lemma attacks_false r j v :
  (∀ d w, r !! d = Some w →
     v ≠ w ∧ v ≠ w + (j + Z.of_nat d) ∧ v ≠ w - (j + Z.of_nat d)) →
  attacks j v r = false.
Proof.
  revert j. induction r as [|w r IH]; intros j H; simpl; [done|].
  destruct (H 0%nat w eq_refl) as (? & ? & ?).
  rewrite IH.
  - lia.
  - intros d w' Hd. destruct (H (S d) w' Hd) as (? & ? & ?). lia.
Qed.

Lemma queens_prune_sound p s : feasible model (p ++ s) → prune (reverse p) = false.
Proof.
  intros (_ & _ & Hsafe)%queens_feasible_inv.
  induction p as [|v p _] using rev_ind; [done|].
  rewrite reverse_snoc. simpl. apply attacks_false. intros d w Hd.
  assert (Hlen : (d < length p)%nat).
  { apply lookup_lt_Some in Hd. by rewrite length_reverse in Hd. }
  rewrite reverse_lookup in Hd by done.
  destruct (Hsafe (length p - S d)%nat (length p) w v) as (? & ? & ?).
  - lia.
  - rewrite <- app_assoc. by rewrite lookup_app_l by lia.
  - rewrite <- app_assoc. by apply list_lookup_middle.
  - lia.
Qed.

(** A placement with no attack is a solution; two queens on one diagonal
    are rejected. *)
Example queens_accepts : feasible model [0; 4; 7; 5; 2; 6; 1; 3].
Proof. compute_done. Qed.

Example queens_rejects_diagonal : ¬ feasible model [0; 1; 7; 5; 2; 6; 4; 3].
Proof. compute_done. Qed.

Lemma queens_solutions_search :
  solutions = search prune (λ _, true) (domains model) [].
Proof. vm_compute. reflexivity. Qed.

Lemma queens_solutions_feasible : Forall (feasible model) solutions.
Proof. compute_done. Qed.

(** C3: the model built for [board_size = 8] (queens[0..7] over [0,7],
    all-different on queens, on queens[i]+i and on queens[i]-i) has exactly
    92 distinct solutions. *)
Theorem eight_queens_has_92_solutions :
  main 8 = Some (model, queens) ∧
  ∃ sols, enumerates model sols ∧ length sols = 92%nat.
Proof.
  split; [reflexivity|]. exists solutions. split; [|reflexivity]. split.
  - compute_done.
  - intros a. split.
    + intros Ha. rewrite queens_solutions_search.
      apply (search_all (feasible model) prune (λ _, true) queens_prune_sound);
        [done|apply in_domains, Ha|done].
    + intros Ha. by apply (proj1 (Forall_forall _ _) queens_solutions_feasible).
Qed.

End n_queens_facts.

(** ** Nurse rostering *)

Module nurse_shift_facts.
Import nurse_shift.

Lemma count_true_ones a idx :
  binary a idx → Z.of_nat (count_true a (Pos <$> idx)) = ones a idx.
Proof.
  unfold count_true. induction 1 as [|i idx Hi _ IH]; [done|].
  cbn [fmap list_fmap]. rewrite filter_cons. cbn [foldr ones] in *.
  unfold ones in *. destruct (decide _) as [E|E]; simpl in E; cbn [length]; lia.
Qed.

Lemma filter_length_ones {A} (P : A → Prop) `{∀ x, Decision (P x)}
    (g : A → nat) a (xs : list A) :
  binary a (g <$> xs) → (∀ x, x ∈ xs → P x ↔ Value a (g x) ≠ 0) →
  Z.of_nat (length (filter P xs)) = ones a (g <$> xs).
Proof.
  induction xs as [|x xs IH]; [done|].
  cbn [fmap list_fmap]. intros [Hx Hb]%Forall_cons HP.
  rewrite filter_cons. cbn [foldr ones] in *. unfold ones in *.
  specialize (IH Hb (λ y Hy, HP y (list_elem_of_further _ _ _ Hy))).
  pose proof (HP x (list_elem_of_here _ _)).
  destruct (decide (P x)); cbn [length].
  - assert (Value a (g x) ≠ 0) by tauto. lia.
  - assert (Value a (g x) = 0) by (destruct (decide (Value a (g x) = 0)); tauto).
    lia.
Qed.

Lemma works_slot a n d s :
  (n < 4)%nat → (d < 3)%nat → (s < 3)%nat →
  works a n d s ↔ Value a (slot n d s) ≠ 0.
Proof.
  intros Hn Hd Hs. unfold works.
  destruct n as [|[|[|[|n]]]]; [..|lia];
    (destruct d as [|[|[|d]]]; [..|lia]);
    (destruct s as [|[|[|s]]]; [..|lia]).
  all: destruct (shift_var _ _ _) as [b|] eqn:E; vm_compute in E; [|done].
  all: by injection E as <-.
Qed.

Lemma feasible_binary a idx : feasible model a → binary a idx.
Proof.
  intros [Hd _]. apply Forall_forall. intros i _. unfold Value.
  destruct (a !! i) as [z|] eqn:E; simpl; [|lia].
  destruct (Forall2_lookup_r _ _ _ _ _ Hd E) as (x & Hx & Hdom).
  assert (Hall : Forall (λ x, lb x = 0 ∧ ub x = 1) (variables model))
    by compute_done.
  destruct (Forall_lookup_1 _ _ _ _ Hall Hx) as [Hlb Hub].
  unfold in_domain in Hdom. lia.
Qed.

Lemma posted a k c :
  feasible model a → constraints model !! k = Some c →
  enforcement c = [] → holds_body a (body c).
Proof.
  intros [_ Hc] Hk He. pose proof (Forall_lookup_1 _ _ _ _ Hc Hk) as H.
  apply H. rewrite He. constructor.
Qed.

Lemma exactly_one_nurse a d s :
  feasible model a → (d < 3)%nat → (s < 3)%nat →
  ones a ((λ n, slot n d s) <$> [0; 1; 2; 3]%nat) = 1.
Proof.
  intros Ha Hd Hs.
  rewrite <- count_true_ones by by apply feasible_binary.
  destruct d as [|[|[|d]]]; [..|lia]; (destruct s as [|[|[|s]]]; [..|lia]).
  all: match goal with |- context [λ n, slot n ?d ?s] =>
         pose proof (posted a (d * 3 + s)%nat _ Ha eq_refl eq_refl) as H end.
  all: cbn in H; cbn; by rewrite H.
Qed.

Lemma at_most_one_shift a n d :
  feasible model a → (n < 4)%nat → (d < 3)%nat →
  ones a ((λ s, slot n d s) <$> [0; 1; 2]%nat) ≤ 1.
Proof.
  intros Ha Hn Hd.
  rewrite <- count_true_ones by by apply feasible_binary.
  destruct n as [|[|[|[|n]]]]; [..|lia]; (destruct d as [|[|[|d]]]; [..|lia]).
  all: match goal with |- context [λ s, slot ?n ?d s] =>
         pose proof (posted a (9 + n * 3 + d)%nat _ Ha eq_refl eq_refl) as H end.
  all: cbn in H; cbn; lia.
Qed.

Lemma fair_share a n :
  feasible model a → (n < 4)%nat →
  2 ≤ ones a ((λ ds : nat * nat, slot n ds.1 ds.2) <$> day_shifts) ≤ 3.
Proof.
  intros Ha Hn.
  destruct n as [|[|[|[|n]]]]; [..|lia].
  all: match goal with |- context [λ ds : nat * nat, slot ?n ds.1 ds.2] =>
         pose proof (posted a (21 + 2 * n)%nat _ Ha eq_refl eq_refl) as Hlo;
         pose proof (posted a (22 + 2 * n)%nat _ Ha eq_refl eq_refl) as Hhi
       end.
  all: cbn in Hlo, Hhi; cbn; lia.
Qed.

(** C6: for 4 nurses, 3 shifts a day and 3 days the fairness band is
    [2, 3]; in every solution of the model each (day, shift) has exactly
    one nurse, each nurse works at most one shift a day, and each nurse
    works 2 or 3 shifts in total. *)
Theorem roster_is_fair :
  min_shifts_per_nurse 4 3 3 = 9 `div` 4 ∧
  min_shifts_per_nurse 4 3 3 = 2 ∧
  max_shifts_per_nurse 4 3 3 = min_shifts_per_nurse 4 3 3 + 1 ∧
  max_shifts_per_nurse 4 3 3 = 3 ∧
  main = Some (model, shifts) ∧
  ∀ a, feasible model a →
    (∀ d s, (d < 3)%nat → (s < 3)%nat → length (assigned_nurses a d s) = 1%nat) ∧
    (∀ n d, (n < 4)%nat → (d < 3)%nat → (length (shifts_on_day a n d) ≤ 1)%nat) ∧
    (∀ n, (n < 4)%nat →
       length (shifts_worked a n) = 2%nat ∨ length (shifts_worked a n) = 3%nat).
Proof.
  do 4 (split; [reflexivity|]). split; [by vm_compute|].
  intros a Ha. split_and!.
  - intros d s Hd Hs. apply Nat2Z.inj. unfold assigned_nurses.
    change (py_range num_nurses) with [0; 1; 2; 3]%nat.
    rewrite (filter_length_ones _ (λ n, slot n d s) a).
    + by apply exactly_one_nurse.
    + by apply feasible_binary.
    + intros n Hn. apply works_slot; [|done..]. members Hn.
  - intros n d Hn Hd. apply Nat2Z.inj_le. unfold shifts_on_day.
    change (py_range num_shifts) with [0; 1; 2]%nat.
    rewrite (filter_length_ones _ (λ s, slot n d s) a).
    + by apply at_most_one_shift.
    + by apply feasible_binary.
    + intros s Hs. apply works_slot; [done..|]. members Hs.
  - intros n Hn. unfold shifts_worked.
    change (d ← py_range num_days; s ← py_range num_shifts; [(d, s)])
      with day_shifts.
    pose proof (fair_share a n Ha Hn) as H.
    rewrite <- (filter_length_ones (λ ds, works a n ds.1 ds.2)) in H.
    + lia.
    + by apply feasible_binary.
    + intros [d s] Hds. apply works_slot; [done|..].
      all: unfold day_shifts in Hds; members Hds.
Qed.

Lemma roster_is_fair_witness :
  feasible model example_roster ∧
  length (assigned_nurses example_roster 1 2) = 1%nat ∧
  (length (shifts_on_day example_roster 3 1) ≤ 1)%nat ∧
  (length (shifts_worked example_roster 0) = 2%nat ∨
   length (shifts_worked example_roster 0) = 3%nat).
Proof.
  assert (H : feasible model example_roster) by compute_done.
  destruct (proj2 (proj2 (proj2 (proj2 (proj2 roster_is_fair))))
              example_roster H) as (H1 & H2 & H3).
  split; [exact H|]. split; [apply H1; lia|]. split; [apply H2; lia|].
  apply H3; lia.
Defined.

End nurse_shift_facts.

(** ** The two-machine, three-job shop of [sample.py] *)

Module sample_facts.
Import job_shop sample.

(** Turns [H : Forall (holds a) cs], for a concrete list [cs] of
    constraints without enforcement literals, into arithmetic facts. *)
Ltac unpack_constraints H :=
  repeat (let C := fresh "C" in
          apply Forall_cons in H as [C H];
          specialize (C (Forall_nil_2 _));
          cbn in C;
          rewrite ?Forall_cons, ?Forall_nil, ?Exists_cons, ?Exists_nil in C;
          unfold disjoint in C; cbn in C);
  clear H.

(** The schedule of length 11 is a solution; starting task 1 of job 0 at
    time 1, before task 0 of that job has ended, is not; nor is running
    jobs 0 and 2 on machine 0 at the same time. *)
Example schedule_accepted : feasible model schedule.
Proof. compute_done. Qed.

Example schedule_rejected_precedence :
  ¬ feasible model [0; 2; 1; 4; 5; 9; 9; 11; 2; 5; 5; 8; 11].
Proof. compute_done. Qed.

Example schedule_rejected_overlap :
  ¬ feasible model [0; 2; 2; 5; 5; 9; 9; 11; 1; 4; 5; 8; 11].
Proof. compute_done. Qed.

Lemma makespan_at_least_11 a : feasible model a → 11 ≤ objective_value model a.
Proof.
  intros [Hd Hc]. unfold model in Hd, Hc |- *.
  cbn [variables constraints] in Hd, Hc. split_solution Hd.
  unfold in_domain in *. cbn [lb ub] in *.
  unpack_constraints Hc. cbn. lia.
Qed.

(** C1 (corrected): the minimum makespan of the model that [sample.py]
    builds from its [jobs_data] is 11. *)
Theorem sample_minimum_makespan :
  b_model <$> main = Some model ∧ horizon jobs_data = 17 ∧ minimum model 11.
Proof.
  split; [reflexivity|]. split; [reflexivity|]. split.
  - exists schedule. split; [compute_done|reflexivity].
  - apply makespan_at_least_11.
Qed.

(** C1 as stated fails: 9 is not the minimum makespan of that model (no
    schedule is shorter than 11). *)
Lemma sample_minimum_is_not_9 : ¬ minimum model 9.
Proof.
  intros [(a & Ha & Hobj) _]. pose proof (makespan_at_least_11 a Ha). lia.
Qed.

End sample_facts.

(** ** Job-shop scheduling *)

Module job_shop_facts.
Import job_shop.

Lemma task_ok_extends m m' t d : extends m m' → task_ok m t d → task_ok m' t d.
Proof.
  intros He (? & ? & ? & ? & ? & ?).
  split_and!; eauto using extends_variable, extends_constraint.
Qed.

Lemma task_at_machine jobs j k m d :
  task_at jobs j k = Some (m, d) → m ∈ fst <$> mjoin jobs.
Proof.
  unfold task_at. intros H. apply bind_Some in H as (job & Hj & Hk).
  apply list_elem_of_fmap. exists (m, d). split; [done|].
  apply list_elem_of_join. exists job.
  split; by eapply list_elem_of_lookup_2.
Qed.

Lemma machine_in_range sc jobs count j k m d :
  machines_count sc jobs = Some count →
  task_at jobs j k = Some (m, d) →
  sc = JobShop → (m < count)%nat.
Proof.
  intros Hc Ht ->. apply task_at_machine in Ht. simpl in Hc.
  pose proof (max_list_elem_of_le _ _ Ht).
  destruct (fst <$> mjoin jobs); [done|]. injection Hc as <-. simpl in *. lia.
Qed.

Lemma get_intervals_Some sc d m l :
  d !! m = Some l → get_intervals sc d m = Some l.
Proof. unfold get_intervals. by intros ->. Qed.

Lemma create_task_inv sc jobs count j k task st st' :
  machines_count sc jobs = Some count →
  task_at jobs j k = Some task →
  Inv jobs count j k st →
  create_task sc (horizon jobs) j k task st = Some st' →
  Inv jobs count j (S k) st'.
Proof.
  intros Hcount Htask [HK HT HP HD HR]. destruct task as [m d].
  unfold create_task.
  destruct (new_int_var _ _ _ (st_model st)) as [sv m1] eqn:E1.
  destruct (new_int_var _ _ _ m1) as [ev m2] eqn:E2.
  apply extends_new_int_var in E1 as (X1 & V1 & I1 & L1 & U1 & C1).
  apply extends_new_int_var in E2 as (X2 & V2 & I2 & L2 & U2 & C2).
  unfold new_interval_var.
  set (iv := mkIntervalVar sv d ev _).
  destruct (extends_post (mkConstraint (Interval iv) []) m2) as (X3 & V3 & C3).
  set (m3 := post _ m2) in *.
  assert (X : extends (st_model st) m3) by (etrans; [|done]; by etrans).
  destruct (get_intervals sc _ m) as [ivs|] eqn:Hget; [|done].
  simpl. intros [= <-].
  assert (Hfresh : all_tasks st !! (j, k) = None).
  { apply eq_None_not_Some. rewrite HK. unfold created. simpl. lia. }
  assert (Hold : ∀ l, machine_to_intervals st !! m = Some l → l = ivs).
  { intros l Hl. rewrite (get_intervals_Some _ _ _ _ Hl) in Hget. congruence. }
  set (t := mk_task_type sv ev iv).
  assert (Hnew : task_ok m3 t d).
  { unfold task_ok, t. simpl. split_and!; try done.
    - apply (extends_variable m1); [by etrans|].
      rewrite V1, I1. by apply list_lookup_middle.
    - apply (extends_variable m2); [done|].
      rewrite V2, I2. by apply list_lookup_middle. }
  split; simpl.
  - (* keys *)
    intros key. rewrite lookup_insert_is_Some, HK. unfold created.
    destruct key as [j' k']. simpl. split.
    + intros [[= <- <-]|[Hne [Hc Hs]]]; [by rewrite Htask; split; [lia|eauto]|].
      split; [lia|done].
    + intros [Hc Hs]. destruct (decide ((j, k) = (j', k'))) as [|Hne]; [by left|].
      right. split; [done|]. split; [|done].
      assert (¬ (j' = j ∧ k' = k)) by (intros [-> ->]; done). lia.
  - (* tasks *)
    intros key t'. rewrite lookup_insert_Some.
    intros [[<- <-]|[Hne Hkey]].
    + exists m, d, (ivs ++ [iv]). rewrite lookup_insert_eq.
      split_and!; [done..|]. apply elem_of_app. right. by left.
    + destruct (HT key t' Hkey) as (m' & d' & l & Hat & Hok & Hl & Hin).
      exists m', d'. destruct (decide (m = m')) as [<-|Hm].
      * exists (ivs ++ [iv]). rewrite lookup_insert_eq.
        rewrite (Hold l Hl) in Hin.
        split_and!; [done|by eapply task_ok_extends|done|].
        apply elem_of_app. by left.
      * exists l. rewrite lookup_insert_ne by done.
        split_and!; [done|by eapply task_ok_extends|done..].
  - (* pairs *)
    intros key1 key2 t1 t2 m' d1 d2 Hne.
    rewrite !lookup_insert_Some.
    intros [[<- <-]|[Hne1 H1]] [[<- <-]|[Hne2 H2]] Hat1 Hat2; [done|..].
    + simpl in Hat1. rewrite Htask in Hat1. injection Hat1 as <- <-.
      destruct (HT key2 t2 H2) as (m' & d' & l & Hat & _ & Hl & Hin).
      rewrite Hat2 in Hat. injection Hat as <- <-.
      exists (ivs ++ [iv]). rewrite lookup_insert_eq. split; [done|]. right.
      rewrite (Hold l Hl) in Hin. apply (sublist_app [_] _ [_] [_]); [|done].
      by apply singleton_sublist_l.
    + simpl in Hat2. rewrite Htask in Hat2. injection Hat2 as <- <-.
      destruct (HT key1 t1 H1) as (m' & d' & l & Hat & _ & Hl & Hin).
      rewrite Hat1 in Hat. injection Hat as <- <-.
      exists (ivs ++ [iv]). rewrite lookup_insert_eq. split; [done|]. left.
      rewrite (Hold l Hl) in Hin. apply (sublist_app [_] _ [_] [_]); [|done].
      by apply singleton_sublist_l.
    + destruct (HP key1 key2 t1 t2 m' d1 d2 Hne H1 H2 Hat1 Hat2) as (l & Hl & Hsub).
      destruct (decide (m = m')) as [<-|Hm].
      * exists (ivs ++ [iv]). rewrite lookup_insert_eq. split; [done|].
        rewrite <- (Hold l Hl).
        destruct Hsub; [left|right]; by apply sublist_inserts_r.
      * exists l. by rewrite lookup_insert_ne by done.
  - (* domains *)
    rewrite V2, V1. rewrite !Forall_app, !Forall_singleton. done.
  - (* machines *)
    intros m'. rewrite lookup_insert_is_Some.
    intros [<-|[_ Hm']]; [|by apply HR].
    destruct sc.
    + by eapply machine_in_range.
    + apply HR. unfold get_intervals in Hget.
      destruct (machine_to_intervals st !! m); [eauto|done].
Qed.

Lemma creation_initial_inv sc jobs count :
  Inv jobs count 0 0 (mk_state CpModel_new ∅ (initial_intervals sc count)).
Proof.
  split; simpl.
  - intros key. rewrite lookup_empty. unfold created. split.
    + by intros [? ?].
    + intros [? _]. lia.
  - intros key t. by rewrite lookup_empty.
  - intros key1 key2 t1 t2 m d1 d2 _. by rewrite lookup_empty.
  - constructor.
  - intros m [l Hl]. destruct sc; simpl in Hl.
    + by rewrite lookup_empty in Hl.
    + apply elem_of_list_to_map_2 in Hl.
      apply list_elem_of_fmap in Hl as (i & [= -> _] & Hi).
      apply elem_of_seq in Hi. lia.
Qed.

Lemma task_at_Some (jobs : list Job) j (job : Job) k task :
  jobs !! j = Some job → job !! k = Some task → task_at jobs j k = Some task.
Proof. unfold task_at. by intros ->. Qed.

Lemma task_at_lt (jobs : list Job) j (job : Job) k :
  jobs !! j = Some job → is_Some (task_at jobs j k) → (k < length job)%nat.
Proof.
  unfold task_at. intros Hj [task Hk]. rewrite Hj in Hk. simpl in Hk.
  by eapply lookup_lt_Some.
Qed.

Lemma job_loop_inv sc (jobs : list Job) count j (job : Job) st st' :
  machines_count sc jobs = Some count →
  jobs !! j = Some job →
  Inv jobs count j 0 st →
  for_each (λ '(task_id, task),
      create_task sc (horizon jobs) j task_id task) (enumerate job) st
    = Some st' →
  Inv jobs count (S j) 0 st'.
Proof.
  intros Hcount Hjob Hinv Hrun.
  apply (for_each_inv _ (λ k, Inv jobs count j k)) in Hrun; [|done|].
  - rewrite length_enumerate in Hrun. destruct Hrun as [HK HT HP HD HR].
    split; try done. intros key. rewrite HK. unfold created.
    split; intros [Hc Hs]; (split; [|done]).
    + lia.
    + destruct (decide (key.1 = j)) as [E|]; [|lia].
      rewrite E in Hs. pose proof (task_at_lt _ _ _ _ Hjob Hs). lia.
  - intros k [k' task] s1 s2 [Hk Ht]%enumerate_lookup Hi Hbody.
    simpl in Hk, Ht. subst k'.
    by eapply create_task_inv; [done|by eapply task_at_Some|done|done].
Qed.

Lemma creation_loop_inv sc jobs count st :
  machines_count sc jobs = Some count →
  for_each (λ '(job_id, job),
      for_each (λ '(task_id, task),
        create_task sc (horizon jobs) job_id task_id task) (enumerate job))
    (enumerate jobs) (mk_state CpModel_new ∅ (initial_intervals sc count))
    = Some st →
  Inv jobs count (length jobs) 0 st.
Proof.
  intros Hcount Hrun.
  apply (for_each_inv _ (λ j, Inv jobs count j 0)) in Hrun.
  - by rewrite length_enumerate in Hrun.
  - apply creation_initial_inv.
  - intros j [j' job] s1 s2 [Hj Hjob]%enumerate_lookup Hi Hbody.
    simpl in Hj, Hjob. subst j'. by eapply job_loop_inv.
Qed.

(** The no-overlap loop posts one constraint per machine. *)
Lemma no_overlap_loop_inv sc (m2i : gmap nat (list IntervalVar)) count m0 m1 :
  for_each (λ machine model,
      ivs ← get_intervals sc m2i machine; Some (add_no_overlap ivs model))
    (seq 0 count) m0 = Some m1 →
  extends m0 m1 ∧ variables m1 = variables m0 ∧
  ∀ m, (m < count)%nat →
    ∃ l, get_intervals sc m2i m = Some l ∧
         mkConstraint (NoOverlap l) [] ∈ constraints m1.
Proof.
  intros Hrun.
  apply (for_each_inv _ (λ i m1,
    extends m0 m1 ∧ variables m1 = variables m0 ∧
    ∀ m, (m < i)%nat →
      ∃ l, get_intervals sc m2i m = Some l ∧
           mkConstraint (NoOverlap l) [] ∈ constraints m1)) in Hrun.
  - by rewrite length_seq in Hrun.
  - split; [done|]. split; [done|]. intros m ?. lia.
  - intros i x s1 s2 Hx (Hext & Hv & Hposted) Hbody.
    apply lookup_seq in Hx as [-> _]. simpl in Hbody.
    destruct (get_intervals sc m2i i) as [ivs|] eqn:Hget; [|done].
    injection Hbody as <-. unfold add_no_overlap.
    destruct (extends_post (mkConstraint (NoOverlap ivs) []) s1) as (X & V & C).
    split; [by etrans|]. split; [by rewrite V|].
    intros m Hm. destruct (decide (m = i)) as [->|].
    + by exists ivs.
    + destruct (Hposted m ltac:(lia)) as (l & ? & ?). exists l.
      split; [done|]. by eapply extends_constraint.
Qed.

(** The precedence loop posts one comparison per adjacent pair of tasks. *)
Lemma precedes_extends sc all_tasks m m' j k :
  extends m m' → precedes sc all_tasks m j k → precedes sc all_tasks m' j k.
Proof.
  intros He (cur & next & ? & ? & ?). exists cur, next.
  split_and!; [done..|]. by eapply extends_constraint.
Qed.

Lemma precedence_job_inv sc all_tasks j n m0 m1 :
  for_each (λ task_id model,
      next ← all_tasks !! (j, task_id + 1)%nat;
      cur ← all_tasks !! (j, task_id);
      Some (add (precedence sc cur next) model)) (seq 0 n) m0 = Some m1 →
  extends m0 m1 ∧ variables m1 = variables m0 ∧
  ∀ k, (k < n)%nat → precedes sc all_tasks m1 j k.
Proof.
  intros Hrun.
  apply (for_each_inv _ (λ i m1,
    extends m0 m1 ∧ variables m1 = variables m0 ∧
    ∀ k, (k < i)%nat → precedes sc all_tasks m1 j k)) in Hrun.
  - by rewrite length_seq in Hrun.
  - split; [done|]. split; [done|]. intros k ?. lia.
  - intros i x s1 s2 Hx (Hext & Hv & Hposted) Hbody.
    apply lookup_seq in Hx as [-> _]. simpl in Hbody.
    rewrite Nat.add_1_r in Hbody.
    destruct (all_tasks !! (j, S i)) as [next|] eqn:Hnext; [|done].
    destruct (all_tasks !! (j, i)) as [cur|] eqn:Hcur; [|done].
    injection Hbody as <-. unfold add.
    destruct (extends_post (mkConstraint (Linear (precedence sc cur next)) []) s1)
      as (X & V & C).
    split; [by etrans|]. split; [by rewrite V|].
    intros k Hk. destruct (decide (k = i)) as [->|].
    + by exists cur, next.
    + eapply precedes_extends; [done|]. apply Hposted. lia.
Qed.

Lemma precedence_loop_inv sc all_tasks (jobs : list Job) m0 m1 :
  for_each (λ '(job_id, job),
      for_each (λ task_id model,
        next ← all_tasks !! (job_id, task_id + 1)%nat;
        cur ← all_tasks !! (job_id, task_id);
        Some (add (precedence sc cur next) model))
      (seq 0 (length job - 1)))
    (enumerate jobs) m0 = Some m1 →
  extends m0 m1 ∧ variables m1 = variables m0 ∧
  ∀ j (job : Job) k, jobs !! j = Some job → (k + 1 < length job)%nat →
    precedes sc all_tasks m1 j k.
Proof.
  intros Hrun.
  apply (for_each_inv _ (λ i m1,
    extends m0 m1 ∧ variables m1 = variables m0 ∧
    ∀ j (job : Job) k, (j < i)%nat → jobs !! j = Some job →
      (k + 1 < length job)%nat → precedes sc all_tasks m1 j k)) in Hrun.
  - rewrite length_enumerate in Hrun. destruct Hrun as (? & ? & H).
    split; [done|]. split; [done|]. intros j job k Hj Hk.
    eapply H; [|done..]. by eapply lookup_lt_Some.
  - split; [done|]. split; [done|]. intros j job k ?. lia.
  - intros i [i' job] s1 s2 [Hi Hjob]%enumerate_lookup (Hext & Hv & Hposted) Hbody.
    simpl in Hi, Hjob. subst i'.
    apply precedence_job_inv in Hbody as (X & V & Hnew).
    split; [by etrans|]. split; [by rewrite V|].
    intros j job' k Hj Hjob' Hk. destruct (decide (j = i)) as [->|].
    + apply Hnew.
      assert (Some job' = Some job) as [= ->]
        by (etrans; [symmetry; exact Hjob'|exact Hjob]).
      lia.
    + eapply precedes_extends; [done|]. eapply Hposted; [|done..]. lia.
Qed.

Lemma build_Built sc jobs b : build sc jobs = Some b → Built sc jobs b.
Proof.
  unfold build. intros H.
  apply bind_Some in H as (count & Hcount & H).
  apply bind_Some in H as (st & Hst & H).
  apply bind_Some in H as (m1 & Hm1 & H).
  apply bind_Some in H as (m2 & Hm2 & H).
  destruct (new_int_var _ _ _ m2) as [obj m3] eqn:E3.
  apply bind_Some in H as (last_tasks & Hlast & H).
  injection H as <-.
  apply creation_loop_inv in Hst as [HK HT HP HD HR]; [|done].
  apply no_overlap_loop_inv in Hm1 as (X1 & V1 & HNO).
  apply precedence_loop_inv in Hm2 as (X2 & V2 & HPR).
  apply extends_new_int_var in E3 as (X3 & V3 & I3 & L3 & U3 & C3).
  destruct (extends_post (mkConstraint (MaxEquality obj last_tasks) []) m3)
    as (X4 & V4 & C4).
  set (m4 := post _ m3) in *.
  set (mf := minimize obj m4).
  assert (X4f : extends m4 mf) by done.
  assert (X1f : extends m1 mf).
  { etrans; [done|]. etrans; [done|]. by etrans. }
  assert (X : extends (st_model st) mf) by by etrans.
  assert (Vf : variables mf = variables m2 ++ [obj])
    by (etrans; [exact V4|exact V3]).
  change (Built sc jobs (mk_built mf (all_tasks st) obj)).
  split; cbn [b_model b_all_tasks b_makespan].
  - intros j k m d Hat.
    assert (is_Some (all_tasks st !! (j, k))) as [t Ht].
    { apply HK. unfold created. simpl. rewrite Hat. split; [|eauto].
      left. unfold task_at in Hat. apply bind_Some in Hat as (job & Hj & _).
      by eapply lookup_lt_Some. }
    exists t. split; [done|].
    destruct (HT _ _ Ht) as (m' & d' & l & Hat' & Hok & _).
    simpl in Hat'. rewrite Hat in Hat'. injection Hat' as <- <-.
    by eapply task_ok_extends.
  - intros j1 k1 j2 k2 t1 t2 m d1 d2 Hne Hat1 Hat2 H1 H2.
    destruct (HP _ _ _ _ m d1 d2 Hne H1 H2 Hat1 Hat2) as (l & Hl & Hsub).
    exists l. split; [|done].
    destruct (HNO m) as (l' & Hget & Hin); [apply HR; eauto|].
    rewrite (get_intervals_Some _ _ _ _ Hl) in Hget. injection Hget as <-.
    by apply (extends_constraint m1).
  - intros j job k Hj Hk. eapply precedes_extends; [|by eapply HPR].
    etrans; [done|]. by etrans.
  - rewrite Vf, V2, V1. rewrite Forall_app, Forall_singleton. done.
  - split; [|done]. rewrite Vf, I3. by apply list_lookup_middle.
Qed.

Lemma foldl_add_shift (zs : list Z) (x : Z) :
  foldl Z.add x zs = x + foldl Z.add 0 zs.
Proof.
  revert x. induction zs as [|z zs IH]; intros x; simpl; [lia|].
  rewrite (IH (x + z)), (IH (0 + z)). lia.
Qed.

Lemma job_duration (job : Job) :
  foldl Z.add 0 (snd <$> job) = foldr (λ task acc, task.2 + acc) 0 job.
Proof.
  induction job as [|[m d] job IH]; [done|].
  cbn [fmap list_fmap foldl foldr snd]. rewrite foldl_add_shift, IH. lia.
Qed.

Lemma horizon_total (jobs : list Job) : horizon jobs = total_duration jobs.
Proof.
  unfold horizon. induction jobs as [|job jobs IH]; [done|].
  change (mjoin (job :: jobs)) with (job ++ mjoin jobs).
  rewrite fmap_app, foldl_app, foldl_add_shift, job_duration.
  exact (f_equal (Z.add _) IH).
Qed.

Lemma task_interval (m : CpModel) a t d :
  feasible m a → task_ok m t d →
  0 ≤ d ∧ Value a (index (end_ t)) = Value a (index (start t)) + d.
Proof.
  intros Ha (_ & _ & Hs & He & Hd & Hc).
  pose proof (feasible_holds m a _ Ha Hc eq_refl) as [H0 H]. simpl in H0, H.
  rewrite Hs, He, Hd in H. rewrite Hd in H0. simpl in H. lia.
Qed.

(** C7: in every solution of a job-shop model, a task of a job ends (its
    end variable, which is its start plus its duration) no later than the
    next task of the same job starts. *)
Theorem precedence_in_every_solution sc (jobs : list Job) b a :
  build sc jobs = Some b → feasible (b_model b) a →
  ∀ j (job : Job) k m d,
    jobs !! j = Some job → job !! k = Some (m, d) → (k + 1 < length job)%nat →
    ∃ cur next,
      b_all_tasks b !! (j, k) = Some cur ∧
      b_all_tasks b !! (j, S k) = Some next ∧
      Value a (index (end_ cur)) = Value a (index (start cur)) + d ∧
      Value a (index (end_ cur)) ≤ Value a (index (start next)).
Proof.
  intros [HT _ HP _ _]%build_Built Ha j job k m d Hj Hk Hlen.
  destruct (HP j job k Hj Hlen) as (cur & next & Hcur & Hnext & Hc).
  exists cur, next. split; [done|]. split; [done|].
  destruct (HT j k m d (task_at_Some _ _ _ _ _ Hj Hk)) as (t & Ht & Hok).
  assert (t = cur) as -> by congruence.
  split; [by eapply task_interval|].
  pose proof (feasible_holds _ a _ Ha Hc eq_refl) as H.
  destruct sc; exact H.
Qed.

(** C8: in every solution of a job-shop model, two distinct tasks on the
    same machine occupy disjoint half-open intervals
    [[start, start + duration)]. *)
Theorem machines_never_overlap sc (jobs : list Job) b a :
  build sc jobs = Some b → feasible (b_model b) a →
  ∀ j1 k1 j2 k2 m d1 d2,
    (j1, k1) ≠ (j2, k2) →
    task_at jobs j1 k1 = Some (m, d1) → task_at jobs j2 k2 = Some (m, d2) →
    ∃ s1 s2,
      task_start b a j1 k1 = Some s1 ∧ task_start b a j2 k2 = Some s2 ∧
      (s1 + d1 ≤ s2 ∨ s2 + d2 ≤ s1) ∧
      ∀ time, ¬ (s1 ≤ time < s1 + d1 ∧ s2 ≤ time < s2 + d2).
Proof.
  intros [HT HN _ _ _]%build_Built Ha j1 k1 j2 k2 m d1 d2 Hne Hat1 Hat2.
  destruct (HT _ _ _ _ Hat1) as (t1 & H1 & Hok1).
  destruct (HT _ _ _ _ Hat2) as (t2 & H2 & Hok2).
  destruct (HN _ _ _ _ t1 t2 m d1 d2 Hne Hat1 Hat2 H1 H2) as (l & Hc & Hsub).
  pose proof (feasible_holds _ a _ Ha Hc eq_refl) as Hl. simpl in Hl.
  pose proof (no_overlap_pair a _ _ l Hl Hsub) as Hd.
  destruct (task_interval _ a _ _ Ha Hok1) as [_ E1].
  destruct (task_interval _ a _ _ Ha Hok2) as [_ E2].
  destruct Hok1 as (_ & _ & S1 & F1 & _). destruct Hok2 as (_ & _ & S2 & F2 & _).
  unfold disjoint in Hd. rewrite S1, F1, S2, F2 in Hd. simpl in Hd.
  exists (Value a (index (start t1))), (Value a (index (start t2))).
  unfold task_start. rewrite H1, H2. simpl.
  split; [done|]. split; [done|]. split; lia.
Qed.

(** C9: the horizon is the sum of all durations, a function of
    [jobs_data] alone; every variable of the model has domain
    [[0, horizon]], so the start and the end of every task and the makespan
    lie in [[0, horizon]] in every solution. *)
Theorem times_within_horizon sc (jobs : list Job) b :
  build sc jobs = Some b →
  horizon jobs = total_duration jobs ∧
  Forall (λ x, lb x = 0 ∧ ub x = horizon jobs) (variables (b_model b)) ∧
  ∀ a, feasible (b_model b) a →
    0 ≤ Value a (index (b_makespan b)) ≤ horizon jobs ∧
    ∀ j k task, task_at jobs j k = Some task →
      ∃ t, b_all_tasks b !! (j, k) = Some t ∧
        0 ≤ Value a (index (start t)) ≤ horizon jobs ∧
        0 ≤ Value a (index (end_ t)) ≤ horizon jobs.
Proof.
  intros [HT _ _ HD [HM _]]%build_Built.
  split; [apply horizon_total|]. split; [done|].
  assert (Hvar : ∀ a x, feasible (b_model b) a →
    variables (b_model b) !! index x = Some x →
    0 ≤ Value a (index x) ≤ horizon jobs).
  { intros a x Ha Hx. pose proof (feasible_domain _ a x Ha Hx) as H.
    destruct (Forall_lookup_1 _ _ _ _ HD Hx) as [Hl Hu].
    by rewrite Hl, Hu in H. }
  intros a Ha. split; [by apply Hvar|].
  intros j k [m d] Hat. destruct (HT j k m d Hat) as (t & Ht & Hs & He & _).
  exists t. split; [done|]. split; by apply Hvar.
Qed.

(** [main] of [job-shop.py] builds a model with 17 variables: two per
    task and the makespan. *)
Example job_shop_main_builds :
  ∃ b, main = Some b ∧ length (variables (b_model b)) = 17%nat.
Proof. eexists. split; [vm_compute; reflexivity|reflexivity]. Qed.

(** The three theorems at the model of [sample.py] and its schedule of
    length 11. *)
Lemma sample_schedule_feasible : feasible (b_model sample.result) sample.schedule.
Proof. compute_done. Qed.

Lemma precedence_in_every_solution_witness :
  build Sample sample.jobs_data = Some sample.result ∧
  ∃ cur next,
    b_all_tasks sample.result !! (1, 0)%nat = Some cur ∧
    b_all_tasks sample.result !! (1, 1)%nat = Some next ∧
    Value sample.schedule (index (end_ cur))
    = Value sample.schedule (index (start cur)) + 4 ∧
    Value sample.schedule (index (end_ cur))
    ≤ Value sample.schedule (index (start next)).
Proof.
  split; [reflexivity|].
  apply (precedence_in_every_solution Sample sample.jobs_data sample.result
           sample.schedule eq_refl sample_schedule_feasible
           1%nat [(0%nat, 4); (1%nat, 2)] 0%nat 0%nat 4 eq_refl eq_refl).
  simpl. lia.
Defined.

Lemma machines_never_overlap_witness :
  build Sample sample.jobs_data = Some sample.result ∧
  ∃ s1 s2,
    task_start sample.result sample.schedule 0 0 = Some s1 ∧
    task_start sample.result sample.schedule 2 0 = Some s2 ∧
    (s1 + 2 ≤ s2 ∨ s2 + 3 ≤ s1) ∧
    ∀ time, ¬ (s1 ≤ time < s1 + 2 ∧ s2 ≤ time < s2 + 3).
Proof.
  split; [reflexivity|].
  apply (machines_never_overlap Sample sample.jobs_data sample.result
           sample.schedule eq_refl sample_schedule_feasible
           0%nat 0%nat 2%nat 0%nat 0%nat 2 3); [|reflexivity..].
  intros [= ?].
Defined.

Lemma times_within_horizon_witness :
  build Sample sample.jobs_data = Some sample.result ∧
  horizon sample.jobs_data = 17 ∧
  0 ≤ Value sample.schedule (index (b_makespan sample.result)) ≤ 17.
Proof.
  split; [reflexivity|]. split; [reflexivity|].
  destruct (times_within_horizon Sample sample.jobs_data sample.result eq_refl)
    as (_ & _ & H).
  apply (H sample.schedule sample_schedule_feasible).
Defined.

End job_shop_facts.

(** ** Assignments that extend one another *)

Lemma Value_app_l a b v : (v < length a)%nat → Value (a ++ b) v = Value a v.
Proof. intros H. unfold Value. by rewrite lookup_app_l. Qed.

Lemma eval_app a b e :
  expr_below (length a) e → eval (a ++ b) e = eval a e.
Proof.
  induction e as [v|k|e1 IH1 e2 IH2|e1 IH1 e2 IH2|e IH k]; simpl; intros H.
  - apply Value_app_l. by apply bool_decide_unpack in H.
  - done.
  - apply andb_True in H as [? ?]. by rewrite IH1, IH2.
  - apply andb_True in H as [? ?]. by rewrite IH1, IH2.
  - by rewrite IH.
Qed.

Lemma evals_app a b es :
  forallb (expr_below (length a)) es → eval (a ++ b) <$> es = eval a <$> es.
Proof.
  intros H. apply list_fmap_ext. intros i e He. apply eval_app.
  apply Is_true_true in H. rewrite forallb_forall in H.
  apply Is_true_true, H, list_elem_of_In. by eapply list_elem_of_lookup_2.
Qed.

Lemma lit_true_app a b l :
  lit_below (length a) l → lit_true (a ++ b) l ↔ lit_true a l.
Proof.
  destruct l as [v|v]; simpl; intros H%bool_decide_unpack;
    by rewrite Value_app_l.
Qed.

Lemma forallb_Forall {A} (f : A → bool) (l : list A) :
  forallb f l ↔ Forall (λ x, f x) l.
Proof.
  induction l as [|x l IH]; simpl; [by split; [constructor|]|].
  rewrite andb_True, Forall_cons. by rewrite IH.
Qed.

Lemma lits_true_app a b ls :
  forallb (lit_below (length a)) ls →
  Forall (lit_true (a ++ b)) ls ↔ Forall (lit_true a) ls.
Proof.
  rewrite forallb_Forall. induction 1 as [|l ls Hl _ IH]; [done|].
  by rewrite !Forall_cons, IH, lit_true_app.
Qed.

Lemma exists_true_app a b ls :
  forallb (lit_below (length a)) ls →
  Exists (lit_true (a ++ b)) ls ↔ Exists (lit_true a) ls.
Proof.
  rewrite forallb_Forall. induction 1 as [|l ls Hl _ IH].
  - by rewrite !Exists_nil.
  - by rewrite !Exists_cons, IH, lit_true_app.
Qed.

Lemma count_true_app a b ls :
  forallb (lit_below (length a)) ls → count_true (a ++ b) ls = count_true a ls.
Proof.
  unfold count_true. rewrite forallb_Forall.
  induction 1 as [|l ls Hl _ IH]; [done|].
  rewrite !filter_cons.
  destruct (decide (lit_true (a ++ b) l)) as [H|H];
    destruct (decide (lit_true a l)) as [H'|H']; simpl; try by rewrite IH.
  - by apply lit_true_app in H.
  - by apply (lit_true_app a b) in H'.
Qed.

Lemma disjoint_app a b i j :
  interval_below (length a) i → interval_below (length a) j →
  disjoint (a ++ b) i j ↔ disjoint a i j.
Proof.
  unfold interval_below, disjoint. intros [? ?]%andb_True [? ?]%andb_True.
  by rewrite !eval_app.
Qed.

Lemma no_overlap_app a b ivs :
  forallb (interval_below (length a)) ivs →
  no_overlap (a ++ b) ivs ↔ no_overlap a ivs.
Proof.
  rewrite forallb_Forall. induction 1 as [|iv ivs Hiv Hivs IH]; [done|].
  simpl. rewrite IH. apply and_iff_compat_r.
  clear IH. induction Hivs as [|j ivs Hj _ IH]; [by rewrite !Forall_nil|].
  by rewrite !Forall_cons, IH, disjoint_app.
Qed.

Lemma holds_body_app a b bd :
  body_below (length a) bd → holds_body (a ++ b) bd ↔ holds_body a bd.
Proof.
  destruct bd as [[e1 e2|e1 e2|e1 e2|e1 e2]|es|iv|ivs|t es|ls|ls|ls];
    simpl; intros H.
  1-4: apply andb_True in H as [? ?]; by rewrite !eval_app.
  - by rewrite evals_app.
  - apply andb_True in H as [? ?]. by rewrite !eval_app.
  - by apply no_overlap_app.
  - apply andb_True in H as [Ht Hes]. rewrite (eval_app _ _ t) by done.
    apply forallb_Forall in Hes.
    assert (H1 : Forall (λ e, eval (a ++ b) e ≤ eval a t) es
                 ↔ Forall (λ e, eval a e ≤ eval a t) es).
    { induction Hes as [|e es He _ IH]; [by rewrite !Forall_nil|].
      by rewrite !Forall_cons, IH, eval_app. }
    assert (H2 : Exists (λ e, eval (a ++ b) e = eval a t) es
                 ↔ Exists (λ e, eval a e = eval a t) es).
    { clear H1. induction Hes as [|e es He _ IH]; [by rewrite !Exists_nil|].
      by rewrite !Exists_cons, IH, eval_app. }
    by rewrite H1, H2.
  - by rewrite count_true_app.
  - by rewrite count_true_app.
  - by apply exists_true_app.
Qed.

Lemma holds_app a b c :
  constraint_below (length a) c → holds (a ++ b) c ↔ holds a c.
Proof.
  unfold constraint_below, holds. intros [Hb He]%andb_True.
  by rewrite lits_true_app, holds_body_app.
Qed.

Lemma all_hold_app a b cs :
  Forall (λ c, constraint_below (length a) c) cs →
  Forall (holds (a ++ b)) cs ↔ Forall (holds a) cs.
Proof.
  induction 1 as [|c cs Hc _ IH]; [by rewrite !Forall_nil|].
  by rewrite !Forall_cons, IH, holds_app.
Qed.

Lemma expr_below_mono n n' e :
  (n ≤ n')%nat → expr_below n e → expr_below n' e.
Proof.
  intros Hn. induction e; simpl; try done.
  - intros H%bool_decide_unpack. apply bool_decide_pack. lia.
  - intros [? ?]%andb_True. apply andb_True. auto.
  - intros [? ?]%andb_True. apply andb_True. auto.
Qed.

Lemma lit_below_mono n n' l : (n ≤ n')%nat → lit_below n l → lit_below n' l.
Proof.
  intros Hn. destruct l; simpl; intros H%bool_decide_unpack;
    apply bool_decide_pack; lia.
Qed.

Lemma forallb_impl {A} (f g : A → bool) (l : list A) :
  (∀ x, f x → g x) → forallb f l → forallb g l.
Proof.
  intros Hfg. rewrite !forallb_Forall. intros H.
  eapply Forall_impl; [exact H|]. apply Hfg.
Qed.

Lemma constraint_below_mono n n' c :
  (n ≤ n')%nat → constraint_below n c → constraint_below n' c.
Proof.
  intros Hn. unfold constraint_below. intros [Hb He]%andb_True.
  apply andb_True. split.
  - destruct (body c) as [[e1 e2|e1 e2|e1 e2|e1 e2]|es|iv|ivs|t es|ls|ls|ls];
      simpl in *; unfold interval_below in *;
      repeat match goal with
      | H : Is_true (_ && _) |- _ => apply andb_True in H as [? ?]
      | |- Is_true (_ && _) => apply andb_True; split
      end;
      eauto using expr_below_mono, lit_below_mono, forallb_impl.
    eapply forallb_impl; [|done]. intros iv [? ?]%andb_True.
    apply andb_True. eauto using expr_below_mono.
  - eauto using lit_below_mono, forallb_impl.
Qed.

(** ** Solutions of an extended model *)

Lemma feasible_length m a : feasible m a → length a = length (variables m).
Proof. intros [H _]. symmetry. by eapply Forall2_length. Qed.

Lemma feasible_post c m a : feasible (post c m) a ↔ feasible m a ∧ holds a c.
Proof.
  unfold feasible, post. simpl. rewrite Forall_app, Forall_singleton. tauto.
Qed.

Lemma well_formed_post c m :
  well_formed m → constraint_below (length (variables m)) c →
  well_formed (post c m).
Proof.
  unfold well_formed, post. simpl. intros H Hc.
  rewrite Forall_app, Forall_singleton. done.
Qed.

Lemma well_formed_new_int_var lo hi nm m x m' :
  well_formed m → new_int_var lo hi nm m = (x, m') → well_formed m'.
Proof.
  unfold well_formed, new_int_var. intros H [= <- <-]. simpl.
  eapply Forall_impl; [exact H|]. intros c. simpl.
  apply constraint_below_mono. rewrite length_app. lia.
Qed.

Lemma feasible_new_int_var lo hi nm m x m' a' :
  well_formed m → new_int_var lo hi nm m = (x, m') →
  feasible m' a' ↔ ∃ a z, a' = a ++ [z] ∧ feasible m a ∧ lo ≤ z ≤ hi.
Proof.
  unfold new_int_var. intros Hwf [= <- <-]. unfold feasible. simpl. split.
  - intros [Hd Hc].
    apply Forall2_app_inv_l in Hd as (a & zs & Ha & Hz & ->).
    apply Forall2_cons_inv_l in Hz as (z & zs' & Hz & ->%Forall2_nil_inv_l & ->).
    exists a, z. split; [done|]. split; [|done]. split; [done|].
    apply (all_hold_app a [z]); [|done].
    by rewrite <- (Forall2_length _ _ _ Ha).
  - intros (a & z & -> & [Hd Hc] & Hz). split.
    + apply Forall2_app; [done|]. constructor; [exact Hz|constructor].
    + apply all_hold_app; [|done]. by rewrite <- (Forall2_length _ _ _ Hd).
Qed.

(** ** Enumeration by blocking constraints *)

Module sat_cp_facts.
Import sat_cp.
Local Abbreviation variables := cp_model.variables (only parsing).

Lemma indicators_app sol a b vs :
  Forall (λ v, (index v < length a)%nat) vs →
  indicators sol (a ++ b) vs = indicators sol a vs.
Proof.
  intros H. apply list_fmap_ext. intros i v Hv. unfold indicator.
  rewrite Value_app_l; [done|].
  apply (proj1 (Forall_forall _ _) H). by eapply list_elem_of_lookup_2.
Qed.

Lemma exclude_var_spec i sol m1 excl v m2 excl' :
  well_formed m1 → (index v < length (variables m1))%nat →
  exclude_var i sol (m1, excl) v = (m2, excl') →
  well_formed m2 ∧
  (∃ b, excl' = excl ++ [b] ∧ index b = length (variables m1) ∧
        variables m2 = variables m1 ++ [b]) ∧
  ∀ a', feasible m2 a' ↔
        ∃ a, feasible m1 a ∧ a' = a ++ [indicator sol a v].
Proof.
  intros Hwf Hv. unfold exclude_var, new_bool_var.
  destruct (new_int_var 0 1 _ m1) as [b m1'] eqn:E.
  pose proof (well_formed_new_int_var _ _ _ _ _ _ Hwf E) as Hwf1.
  pose proof (λ a', feasible_new_int_var _ _ _ _ _ _ a' Hwf E) as Hfeas.
  apply extends_new_int_var in E as (_ & V & I & _ & _ & _).
  unfold add_only_enforce_if. intros [= <- <-].
  set (n := length (variables m1)) in *.
  assert (Hn : length (variables m1') = S n) by (rewrite V, length_app; simpl; lia).
  set (c1 := mkConstraint (Linear (Eq v (Const (Value sol (index v))))) [lit b]).
  set (c2 := mkConstraint (Linear (Ne v (Const (Value sol (index v)))))
               [Not (lit b)]).
  assert (Hc1 : constraint_below (S n) c1).
  { unfold constraint_below, c1, lit. simpl. rewrite I.
    rewrite !bool_decide_eq_true_2 by lia. done. }
  assert (Hc2 : constraint_below (S n) c2).
  { unfold constraint_below, c2, lit. simpl. rewrite I.
    rewrite !bool_decide_eq_true_2 by lia. done. }
  split; [|split].
  - apply well_formed_post; [apply well_formed_post; [done|]|]; simpl;
      by rewrite Hn.
  - exists b. done.
  - intros a'. rewrite !feasible_post, Hfeas. split.
    + intros [[(a & z & -> & Ha & Hz) H1] H2]. exists a. split; [done|].
      pose proof (feasible_length _ _ Ha) as Hlen. fold n in Hlen.
      unfold holds, c1, c2, lit in H1, H2. simpl in H1, H2.
      rewrite I in H1, H2. rewrite !Forall_singleton in H1, H2.
      simpl in H1, H2. unfold Value in H1 at 1. unfold Value in H2 at 1.
      rewrite list_lookup_middle in H1, H2 by done. simpl in H1, H2.
      rewrite Value_app_l in H1, H2 by lia.
      unfold indicator. f_equal. f_equal.
      destruct (decide _) as [Heq|Hne].
      * destruct (decide (z = 0)) as [->|]; [|lia]. by specialize (H2 eq_refl).
      * destruct (decide (z = 1)) as [->|]; [|lia]. by specialize (H1 eq_refl).
    + intros (a & Ha & ->).
      pose proof (feasible_length _ _ Ha) as Hlen. fold n in Hlen.
      assert (Hval : Value (a ++ [indicator sol a v]) (index b)
                     = indicator sol a v).
      { unfold Value. by rewrite I, list_lookup_middle. }
      split; [split|].
      * exists a, (indicator sol a v). split; [done|]. split; [done|].
        unfold indicator. destruct (decide _); lia.
      * unfold holds, c1, lit. simpl. rewrite Forall_singleton. simpl.
        rewrite Hval, Value_app_l by lia. unfold indicator.
        destruct (decide _); [done|lia].
      * unfold holds, c2, lit. simpl. rewrite Forall_singleton. simpl.
        rewrite Hval, Value_app_l by lia. unfold indicator.
        destruct (decide _); [lia|done].
Qed.

Lemma exclude_vars_spec i sol vs : ∀ m1 excl m2 excl',
  well_formed m1 →
  Forall (λ v, (index v < length (variables m1))%nat) vs →
  foldl (exclude_var i sol) (m1, excl) vs = (m2, excl') →
  well_formed m2 ∧
  (∃ new, excl' = excl ++ new ∧ variables m2 = variables m1 ++ new ∧
     length new = length vs ∧
     ∀ k b, new !! k = Some b → index b = (length (variables m1) + k)%nat) ∧
  ∀ a', feasible m2 a' ↔
        ∃ a, feasible m1 a ∧ a' = a ++ indicators sol a vs.
Proof.
  induction vs as [|v vs IH]; intros m1 excl m2 excl' Hwf Hvs; cbn [foldl].
  - intros [= <- <-]. split; [done|]. split.
    + exists []. rewrite !app_nil_r. split; [done|]. split; [done|].
      split; [done|]. intros k b. by rewrite lookup_nil.
    + intros a'. split.
      * intros Ha. exists a'. by rewrite app_nil_r.
      * intros (a & Ha & ->). by rewrite app_nil_r.
  - apply Forall_cons in Hvs as [Hv Hvs].
    destruct (exclude_var i sol (m1, excl) v) as [m1' excl1] eqn:E.
    apply exclude_var_spec in E as (Hwf1 & (b & -> & Ib & Vb) & Hf1); [|done..].
    intros Hrest.
    assert (Hvs' : Forall (λ v, (index v < length (variables m1'))%nat) vs).
    { eapply Forall_impl; [exact Hvs|]. intros v'. simpl.
      rewrite Vb, length_app. simpl. lia. }
    apply IH in Hrest as (Hwf2 & (new & -> & Vnew & Hlen & Hidx) & Hf2);
      [|done..].
    split; [done|]. split.
    + exists (b :: new). rewrite <- app_assoc. split; [done|].
      split; [by rewrite Vnew, Vb, <- app_assoc|].
      split; [simpl; lia|]. intros [|k] b'; simpl.
      * intros [= <-]. lia.
      * intros Hk. rewrite (Hidx k b' Hk), Vb, length_app. simpl. lia.
    + intros a'. rewrite Hf2. split.
      * intros (a1 & (a & Ha & ->)%Hf1 & ->). exists a. split; [done|].
        rewrite <- app_assoc. simpl. do 2 f_equal.
        apply indicators_app. rewrite (feasible_length _ _ Ha). done.
      * intros (a & Ha & ->). exists (a ++ [indicator sol a v]). split.
        -- apply Hf1. by exists a.
        -- rewrite <- app_assoc. simpl. do 2 f_equal. symmetry.
           apply indicators_app. rewrite (feasible_length _ _ Ha). done.
Qed.

Lemma values_differ (sol a : list Z) (vs : list IntVar) :
  values a vs ≠ values sol vs ↔
  ∃ k v, vs !! k = Some v ∧ Value a (index v) ≠ Value sol (index v).
Proof.
  unfold values. induction vs as [|v vs IH].
  - split; [done|]. intros (k & v & Hk & _). by rewrite lookup_nil in Hk.
  - rewrite !fmap_cons. split.
    + intros Hne. destruct (decide (Value a (index v) = Value sol (index v)))
        as [Heq|Hv].
      * destruct (proj1 IH) as (k & v' & Hk & Hv').
        { intros E. apply Hne. by f_equal. }
        by exists (S k), v'.
      * by exists 0%nat, v.
    + intros ([|k] & v' & Hk & Hv') [= E1 E2]; simpl in Hk.
      * by injection Hk as ->.
      * apply IH; [|done]. by exists k, v'.
Qed.

(** The blocking step excludes exactly the solutions that agree with
    [sol] on the tracked variables: the solutions of the new model are the
    solutions of the old one that differ from [sol] on a tracked variable,
    each extended by the values of the indicators. *)
Lemma exclude_solution_spec i sol vs m :
  well_formed m →
  Forall (λ v, (index v < length (variables m))%nat) vs →
  well_formed (exclude_solution i sol vs m) ∧
  variables m `prefix_of` variables (exclude_solution i sol vs m) ∧
  ∀ a', feasible (exclude_solution i sol vs m) a' ↔
        ∃ a, feasible m a ∧ a' = a ++ indicators sol a vs ∧
             values a vs ≠ values sol vs.
Proof.
  intros Hwf Hvs. unfold exclude_solution.
  destruct (foldl _ _ vs) as [m2 excl] eqn:E.
  apply exclude_vars_spec in E
    as (Hwf2 & (new & -> & Vnew & Hlen & Hidx) & Hf); [|done..].
  simpl in *. unfold add_bool_or.
  set (c := mkConstraint _ []).
  assert (Hor : ∀ a, feasible m a →
            holds (a ++ indicators sol a vs) c ↔ values a vs ≠ values sol vs).
  { intros a Ha. pose proof (feasible_length _ _ Ha) as Hla.
    unfold holds, c. simpl. rewrite values_differ, Exists_exists. split.
    - intros H. destruct (H (Forall_nil_2 _)) as (l & Hl & Ht).
      apply list_elem_of_fmap in Hl as (b & -> & Hb).
      apply list_elem_of_lookup in Hb as (k & Hk).
      pose proof (lookup_lt_Some _ _ _ Hk) as Hlt. rewrite Hlen in Hlt.
      destruct (lookup_lt_is_Some_2 vs k Hlt) as [v Hv].
      exists k, v. split; [done|]. unfold lit in Ht. simpl in Ht.
      rewrite (Hidx k b Hk), <- Hla in Ht. unfold Value in Ht at 1.
      rewrite lookup_app_r in Ht by lia.
      replace (length a + k - length a)%nat with k in Ht by lia.
      unfold indicators in Ht. rewrite list_lookup_fmap, Hv in Ht.
      simpl in Ht. unfold indicator in Ht. by destruct (decide _).
    - intros (k & v & Hv & Hne) _.
      pose proof (lookup_lt_Some _ _ _ Hv) as Hlt. rewrite <- Hlen in Hlt.
      destruct (lookup_lt_is_Some_2 new k Hlt) as [b Hb].
      exists (Not (lit b)). split.
      + apply list_elem_of_fmap. exists b. split; [done|].
        by eapply list_elem_of_lookup_2.
      + unfold lit. simpl. rewrite (Hidx k b Hb), <- Hla. unfold Value at 1.
        rewrite lookup_app_r by lia.
        replace (length a + k - length a)%nat with k by lia.
        unfold indicators. rewrite list_lookup_fmap, Hv. simpl.
        unfold indicator. by destruct (decide _). }
  split; [|split; [rewrite Vnew; by apply prefix_app_r|]].
  - apply well_formed_post; [done|]. unfold constraint_below, c. simpl.
    rewrite andb_True. split; [|done].
    apply forallb_Forall, Forall_forall. intros l Hl.
    apply list_elem_of_fmap in Hl as (b & -> & Hb).
    apply list_elem_of_lookup in Hb as (k & Hk).
    pose proof (lookup_lt_Some _ _ _ Hk) as Hlt. rewrite Hlen in Hlt.
    unfold lit. simpl. rewrite (Hidx k b Hk). apply bool_decide_pack.
    rewrite Vnew, length_app. lia.
  - intros a'. rewrite feasible_post, Hf. split.
    + intros [(a & Ha & ->) Hc]. exists a. split; [done|]. split; [done|].
      by apply Hor.
    + intros (a & Ha & -> & Hne). split; [by exists a|]. by apply Hor.
Qed.

(** ** The enumeration loop *)

Lemma tracked_below m vs :
  tracked m vs → Forall (λ v, (index v < length (variables m))%nat) vs.
Proof.
  intros H. eapply Forall_impl; [exact H|].
  intros v Hv. simpl in *. by eapply lookup_lt_Some.
Qed.

Lemma tracked_prefix m m' vs :
  variables m `prefix_of` variables m' → tracked m vs → tracked m' vs.
Proof.
  intros Hpre H. eapply Forall_impl; [exact H|].
  intros v Hv. simpl in *. by eapply prefix_lookup_Some.
Qed.

Lemma values_app a b vs :
  Forall (λ v, (index v < length a)%nat) vs → values (a ++ b) vs = values a vs.
Proof.
  intros H. apply list_fmap_ext. intros i v Hv.
  apply Value_app_l, (proj1 (Forall_forall _ _) H).
  by eapply list_elem_of_lookup_2.
Qed.

(** One blocking step removes exactly one point of the region. *)
Lemma region_exclude i sol vs m :
  well_formed m → tracked m vs →
  ∀ q, region (exclude_solution i sol vs m) vs q ↔
       region m vs q ∧ q ≠ values sol vs.
Proof.
  intros Hwf Htr%tracked_below q.
  destruct (exclude_solution_spec i sol vs m Hwf Htr) as (_ & _ & Hf).
  unfold region. split.
  - intros (a' & (a & Ha & -> & Hne)%Hf & ->).
    rewrite values_app by by rewrite (feasible_length _ _ Ha).
    split; [by exists a|done].
  - intros [(a & Ha & ->) Hne]. exists (a ++ indicators sol a vs). split.
    + apply Hf. by exists a.
    + symmetry. apply values_app. by rewrite (feasible_length _ _ Ha).
Qed.

Lemma not_excluded_status (st : CpSolverStatus) :
  ¬ (st ≠ OPTIMAL ∧ st ≠ FEASIBLE) ↔ has_solution st.
Proof. unfold has_solution. destruct st; intuition congruence. Qed.

Lemma enumeration_initial_inv m0 vs :
  well_formed m0 → enumeration_inv m0 vs (mk_run m0 0 [] None false).
Proof.
  intros Hwf. split; simpl; try done.
  - intros q. split; [|tauto]. intros H. split; [done|]. apply not_elem_of_nil.
  - constructor.
  - intros p H. by apply elem_of_nil in H.
  - split; [done|]. by intros (st & ? & _).
  - by left.
Qed.

(** Counting the rounds *)

Lemma iterate_count_le solve vs rounds : ∀ r,
  (solution_count (iterate solve vs rounds r)
   ≤ solution_count r + length rounds)%nat.
Proof.
  induction rounds as [|i rounds IH]; intros r; simpl; [lia|].
  case_bool_decide; simpl; [lia|].
  etrans; [apply IH|]. simpl. lia.
Qed.

Lemma iterate_count solve vs rounds : ∀ r,
  stopped_by_break (iterate solve vs rounds r) = false →
  solution_count (iterate solve vs rounds r)
  = (solution_count r + length rounds)%nat.
Proof.
  induction rounds as [|i rounds IH]; intros r; simpl; [lia|].
  case_bool_decide; simpl; [done|].
  intros Hb. rewrite (IH _ Hb). simpl. lia.
Qed.

(** The region lies inside the product of the domains of the tracked
    variables. *)

Lemma elem_of_product (p : list Z) doms :
  p ∈ product doms ↔ Forall2 (λ x d, x ∈ d) p doms.
Proof.
  revert p. induction doms as [|d doms IH]; intros p; simpl.
  - rewrite list_elem_of_singleton. split; [by intros ->|].
    by intros ->%Forall2_nil_inv_r.
  - rewrite list_elem_of_bind. split.
    + intros (x & (q & -> & Hq)%list_elem_of_fmap & Hx).
      constructor; [done|]. by apply IH.
    + intros (x & q & Hx & Hq & ->)%Forall2_cons_inv_r.
      exists x. split; [|done]. apply list_elem_of_fmap. exists q.
      split; [done|]. by apply IH.
Qed.

Lemma length_bind_const {A B} (f : A → list B) (n : nat) (l : list A) :
  (∀ x, length (f x) = n) → length (l ≫= f) = (length l * n)%nat.
Proof.
  intros Hf. induction l as [|x l IH]; [done|].
  change ((x :: l) ≫= f) with (f x ++ (l ≫= f)).
  rewrite length_app, Hf, IH. simpl. lia.
Qed.

Lemma length_product doms :
  length (product doms) = foldr (λ d n, (length d * n)%nat) 1%nat doms.
Proof.
  induction doms as [|d doms IH]; [done|].
  cbn [product foldr]. rewrite <- IH. apply length_bind_const.
  intros x. by rewrite length_fmap.
Qed.

Lemma length_range lo hi : length (range lo hi) = Z.to_nat (hi - lo + 1).
Proof. unfold range. by rewrite length_fmap, length_seq. Qed.

Lemma domain_product_length vs :
  domain_product vs = length (product ((λ v, range (lb v) (ub v)) <$> vs)).
Proof.
  rewrite length_product. unfold domain_product.
  induction vs as [|v vs IH]; simpl; [done|].
  by rewrite IH, length_range.
Qed.

Lemma region_in_product m vs p :
  tracked m vs → region m vs p →
  p ∈ product ((λ v, range (lb v) (ub v)) <$> vs).
Proof.
  intros Htr (a & Ha & ->). apply elem_of_product. unfold values.
  apply Forall2_fmap, Forall_Forall2_diag.
  eapply Forall_impl; [exact Htr|]. intros v Hv. simpl.
  apply elem_of_range. apply (feasible_domain m); [done|exact Hv].
Qed.

Lemma fresh_point (printed L : list (list Z)) :
  NoDup L → (length printed < length L)%nat → ∃ p, p ∈ L ∧ p ∉ printed.
Proof.
  intros HL Hlen.
  destruct (decide (Forall (λ p, p ∈ printed) L)) as [Hall|Hex].
  - assert (L ⊆+ printed) as Hsub.
    { apply NoDup_submseteq; [done|]. by apply Forall_forall. }
    apply submseteq_length in Hsub. lia.
  - apply not_Forall_Exists in Hex; [|apply _].
    apply Exists_exists in Hex as (p & Hp & Hn). by exists p.
Qed.

(** The loop run by a solver that meets the soundness half of its
    contract, from a model [m0] with tracked variables [vs]. *)
Section enumeration.
Context (solve : CpSolver) (m0 : CpModel) (vs : list IntVar).
Hypothesis solve_sound : sound solve.
Hypothesis vs_tracked : tracked m0 vs.

Lemma step_inv i r :
  enumeration_inv m0 vs r →
  has_solution (status (solve (r_model r))) →
  enumeration_inv m0 vs
    (mk_run (exclude_solution i (solution (solve (r_model r))) vs (r_model r))
       (solution_count r + 1)
       (printed r ++ [values (solution (solve (r_model r))) vs])
       (Some (status (solve (r_model r)))) false).
Proof.
  intros [Hwf Hv Hr Hn Hp Hc _ _] Hst.
  set (sol := solution (solve (r_model r))).
  assert (Hsol : feasible (r_model r) sol) by by apply solve_sound.
  assert (Hreg : region (r_model r) vs (values sol vs)) by by exists sol.
  apply Hr in Hreg as [Hreg0 Hnew].
  pose proof (tracked_prefix _ _ _ Hv vs_tracked) as Htr'.
  destruct (exclude_solution_spec i sol vs (r_model r) Hwf
              (tracked_below _ _ Htr')) as (Hwf' & Hpre & _).
  split; simpl.
  - done.
  - by etrans.
  - intros q. rewrite region_exclude, Hr, elem_of_app, list_elem_of_singleton
      by done. tauto.
  - apply NoDup_app. split; [done|]. split; [|apply NoDup_singleton].
    intros p Hin ->%list_elem_of_singleton. done.
  - intros p [Hin| ->%list_elem_of_singleton]%elem_of_app; [by apply Hp|done].
  - rewrite length_app. simpl. lia.
  - split; [done|]. intros (st & [= <-] & Hno). done.
  - intros _. right. eauto.
Qed.

Lemma iterate_inv rounds : ∀ r,
  enumeration_inv m0 vs r →
  enumeration_inv m0 vs (iterate solve vs rounds r).
Proof.
  induction rounds as [|i rounds IH]; intros r Hinv; simpl; [done|].
  case_bool_decide as Hst.
  - destruct Hinv as [Hwf Hv Hr Hn Hp Hc _ _]. split; simpl; try done.
    split; [|done]. intros _. eexists. split; [done|].
    by intros H%not_excluded_status.
  - apply IH. apply step_inv; [done|].
    by apply not_excluded_status.
Qed.

Lemma printed_bound r :
  enumeration_inv m0 vs r →
  (length (printed r) ≤ domain_product vs)%nat.
Proof.
  intros [_ _ _ Hn Hp _ _ _]. rewrite domain_product_length.
  apply submseteq_length, NoDup_submseteq; [done|].
  intros p Hin. eapply region_in_product; [exact vs_tracked|]. by apply Hp.
Qed.

(** C4: in the blocking-constraint enumeration over any well-formed model,
    with a solver that returns solutions of the model it is given: a
    blocking step removes from the feasible region over the tracked
    variables exactly the assignment just emitted (through one indicator
    per tracked variable and a disjunction of their negations); no two
    emitted solutions are equal; and the number of rounds that emit a
    solution is at most the product of the domain sizes of the tracked
    variables, the loop leaving by [break] before its round limit when the
    limit exceeds that product. *)
Theorem blocking_enumeration max_solutions :
  well_formed m0 →
  let r := enumerate_solutions solve m0 vs max_solutions in
  (∀ m i sol, well_formed m → tracked m vs → feasible m sol →
     region m vs (values sol vs) ∧
     (∀ a', feasible (exclude_solution i sol vs m) a' ↔
            ∃ a, feasible m a ∧ a' = a ++ indicators sol a vs ∧
                 values a vs ≠ values sol vs) ∧
     (∀ q, region (exclude_solution i sol vs m) vs q ↔
           region m vs q ∧ q ≠ values sol vs)) ∧
  NoDup (printed r) ∧
  solution_count r = length (printed r) ∧
  (∀ p, p ∈ printed r → region m0 vs p) ∧
  (∀ q, region (r_model r) vs q ↔ region m0 vs q ∧ q ∉ printed r) ∧
  (solution_count r ≤ domain_product vs)%nat ∧
  (solution_count r ≤ Z.to_nat max_solutions)%nat ∧
  ((domain_product vs < Z.to_nat max_solutions)%nat →
     stopped_by_break r = true).
Proof.
  intros Hwf r.
  assert (Hinv : enumeration_inv m0 vs r).
  { apply iterate_inv. by apply enumeration_initial_inv. }
  pose proof (printed_bound r Hinv) as Hbound.
  assert (Hle : (solution_count r ≤ Z.to_nat max_solutions)%nat).
  { unfold r, enumerate_solutions. etrans; [apply iterate_count_le|].
    unfold py_range. rewrite length_seq. simpl. lia. }
  destruct Hinv as [_ _ Hr Hn Hp Hc _ _].
  split.
  { intros m i sol Hm Hvs Hsol. split; [by exists sol|]. split.
    - apply exclude_solution_spec; [done|]. by apply tracked_below.
    - by apply region_exclude. }
  split; [done|]. split; [done|]. split; [done|]. split; [done|].
  split; [lia|]. split; [done|].
  intros Hlt. destruct (stopped_by_break r) eqn:Hb; [done|].
  unfold r, enumerate_solutions in Hb. apply iterate_count in Hb.
  fold (enumerate_solutions solve m0 vs max_solutions) in Hb. fold r in Hb.
  unfold py_range in Hb. rewrite length_seq in Hb. simpl in Hb. lia.
Qed.

(** With a complete solver and a model whose region is listed by [L], the
    loop emits solutions until the limit or until [L] is exhausted. *)
Section complete_solver.
Context (L : list (list Z)).
Hypothesis solve_complete : complete solve.
Hypothesis L_nodup : NoDup L.
Hypothesis L_region : ∀ p, region m0 vs p ↔ p ∈ L.

Lemma iterate_complete rounds : ∀ r,
  enumeration_inv m0 vs r → stopped_by_break r = false →
  let r' := iterate solve vs rounds r in
  ((length (printed r) + length rounds ≤ length L)%nat →
     solution_count r' = (solution_count r + length rounds)%nat ∧
     stopped_by_break r' = false) ∧
  ((length L < length (printed r) + length rounds)%nat →
     solution_count r' = length L ∧ stopped_by_break r' = true ∧
     ∀ a, ¬ feasible (r_model r') a).
Proof.
  induction rounds as [|i rounds IH];
    intros r Hinv Hb.
  - simpl. split; [intros _; split; [lia|done]|].
    intros Hlt. exfalso.
    destruct Hinv as [_ _ _ Hn Hp _ _ _].
    assert (printed r ⊆+ L) as Hs.
    { apply NoDup_submseteq; [done|]. intros p Hin. by apply L_region, Hp. }
    apply submseteq_length in Hs. simpl in Hlt. lia.
  - cbn [iterate]. cbv zeta. case_bool_decide as Hst.
    + (* the solver reports no solution: the region is exhausted *)
      simpl.
      assert (Hempty : ∀ a, ¬ feasible (r_model r) a).
      { intros a Ha. apply solve_complete in Ha. by apply not_excluded_status in Ha. }
      assert (Hall : (length L ≤ length (printed r))%nat).
      { destruct (decide (length L ≤ length (printed r))%nat); [done|].
        destruct (fresh_point (printed r) L L_nodup) as (p & Hp & Hnew); [lia|].
        destruct Hinv as [_ _ Hr _ _ _ _ _].
        destruct (proj2 (Hr p)) as (a & Ha & _); [by rewrite L_region|].
        by destruct (Hempty a). }
      destruct Hinv as [_ _ _ Hn Hp Hc _ _].
      assert (printed r ⊆+ L) as Hs.
      { apply NoDup_submseteq; [done|]. intros p Hin. by apply L_region, Hp. }
      apply submseteq_length in Hs.
      split; [lia|]. intros _. split; [lia|]. done.
    + (* the solver reports a solution: the region was not exhausted *)
      apply not_excluded_status in Hst.
      pose proof (step_inv i r Hinv Hst) as Hinv'.
      set (r1 := mk_run _ _ _ _ _) in *.
      destruct (IH r1 Hinv' eq_refl) as [H1 H2].
      assert (Hlen : length (printed r1) = S (length (printed r))).
      { unfold r1. simpl. rewrite length_app. simpl. lia. }
      assert (Hcnt : solution_count r1 = S (solution_count r)).
      { unfold r1. simpl. lia. }
      rewrite Hlen, Hcnt in *. simpl.
      split; intros Hle.
      * destruct H1 as [-> ->]; [lia|]. split; [lia|done].
      * apply H2. lia.
Qed.

End complete_solver.
End enumeration.

(** ** The depth-first solver meets the contract *)

Lemma search_sound prune check doms : ∀ racc a,
  a ∈ search prune check doms racc → check a = true.
Proof.
  induction doms as [|d doms IH]; intros racc a; simpl.
  - destruct (check (reverse racc)) eqn:E.
    + by intros ->%list_elem_of_singleton.
    + by intros ?%elem_of_nil.
  - intros (v & Hin & _)%list_elem_of_bind.
    destruct (prune (v :: racc)); [by apply elem_of_nil in Hin|]. by eapply IH.
Qed.

Lemma violates_sound m p s :
  feasible m (p ++ s) → violates (constraints m) (reverse p) = false.
Proof.
  intros [_ Hc]. unfold violates. rewrite reverse_involutive.
  apply negb_false_iff, forallb_forall. intros c Hin%list_elem_of_In.
  destruct (constraint_below (length p) c) eqn:E; [|done]. simpl.
  apply bool_decide_eq_true_2, (holds_app p s); [by rewrite E|].
  by apply (proj1 (Forall_forall _ _) Hc).
Qed.

Lemma dfs_solve_sound : sound dfs_solve.
Proof.
  intros m. unfold dfs_solve.
  destruct (search _ _ _ _) as [|a l] eqn:E; simpl.
  - by intros [?|?].
  - intros _. apply (bool_decide_eq_true_1 (feasible m a)).
    apply (search_sound (violates (constraints m))
             (λ a, bool_decide (feasible m a)) (domains m) [] a).
    rewrite E. by left.
Qed.

Lemma dfs_solve_complete : complete dfs_solve.
Proof.
  intros m a Ha. unfold dfs_solve.
  assert (Hin : a ∈ search (violates (constraints m))
                  (λ a, bool_decide (feasible m a)) (domains m) []).
  { apply (search_all (feasible m)).
    - apply violates_sound.
    - intros a' Ha'. by apply bool_decide_eq_true_2.
    - apply in_domains, Ha.
    - done. }
  destruct (search _ _ _ _); [by apply elem_of_nil in Hin|]. by left.
Qed.

Lemma blocking_enumeration_witness :
  sound dfs_solve ∧ well_formed model ∧ tracked model sat_cp.variables ∧
  NoDup (printed (enumerate_solutions dfs_solve model sat_cp.variables 10)) ∧
  (solution_count (enumerate_solutions dfs_solve model sat_cp.variables 10)
   ≤ domain_product sat_cp.variables)%nat.
Proof.
  assert (Hwf : well_formed model) by compute_done.
  assert (Htr : tracked model sat_cp.variables) by compute_done.
  destruct (blocking_enumeration dfs_solve model sat_cp.variables
              dfs_solve_sound Htr 10 Hwf) as (_ & Hn & _ & _ & _ & Hb & _).
  split; [apply dfs_solve_sound|]. split; [exact Hwf|]. split; [exact Htr|].
  split; [exact Hn|exact Hb].
Defined.

(** The model of [simple_sat_program_iterative] *)

Lemma program_solutions_search :
  solutions
  = search (λ _, false) (λ a, bool_decide (feasible model a)) (domains model) [].
Proof. vm_compute. reflexivity. Qed.

Lemma program_solutions_enumerate : enumerates model solutions.
Proof.
  split; [compute_done|]. intros a. rewrite program_solutions_search. split.
  - intros Ha.
    apply (search_all (feasible model) (λ _, false)
             (λ a, bool_decide (feasible model a))); [done| |by apply in_domains, Ha|done].
    intros a' Ha'. by apply bool_decide_eq_true_2.
  - intros Ha. apply (bool_decide_eq_true_1 (feasible model a)).
    by apply (search_sound (λ _, false)
                (λ a, bool_decide (feasible model a)) (domains model) [] a).
Qed.

Lemma region_solutions p : region model sat_cp.variables p ↔ p ∈ solutions.
Proof.
  rewrite <- (proj2 program_solutions_enumerate p).
  assert (Hval : ∀ a, feasible model a → values a sat_cp.variables = a).
  { intros a [Hd _]. unfold model in Hd. cbn [cp_model.variables] in Hd.
    split_solution Hd. reflexivity. }
  split.
  - intros (a & Ha & ->). by rewrite Hval.
  - intros Hp. exists p. by rewrite Hval.
Qed.

(** C5: the model x, y, z over [0,2] with x != y has 18 solutions.  With a
    solver that meets its contract, the loop of
    [simple_sat_program_iterative] (limit 10) emits exactly 10 distinct
    solutions and ends because the limit is reached, the last status being
    OPTIMAL or FEASIBLE; with a limit above 18 the loop ends by [break] on a
    status without solution, after 18 solutions, and the blocked model has
    no solution left.  The loop was left by [break] exactly when the last
    status reports no solution. *)
Theorem limit_and_exhaustion solve :
  sound solve → complete solve →
  enumerates model solutions ∧ length solutions = 18%nat ∧
  (let r := simple_sat_program_iterative solve in
   solution_count r = 10%nat ∧ length (printed r) = 10%nat ∧
   NoDup (printed r) ∧ (∀ p, p ∈ printed r → feasible model p) ∧
   stopped_by_break r = false ∧
   ∃ st, last_status r = Some st ∧ has_solution st) ∧
  ∀ max_solutions,
    let r := enumerate_solutions solve model sat_cp.variables max_solutions in
    (stopped_by_break r = true ↔
       ∃ st, last_status r = Some st ∧ ¬ has_solution st) ∧
    (0 < max_solutions →
       stopped_by_break r = false ↔
       ∃ st, last_status r = Some st ∧ has_solution st) ∧
    (max_solutions ≤ 18 →
       solution_count r = Z.to_nat max_solutions ∧
       stopped_by_break r = false) ∧
    (18 < max_solutions →
       solution_count r = 18%nat ∧ stopped_by_break r = true ∧
       ∀ a, ¬ feasible (r_model r) a).
Proof.
  intros Hsound Hcomplete.
  assert (Hwf : well_formed model) by compute_done.
  assert (Htr : tracked model sat_cp.variables) by compute_done.
  assert (Hgen : ∀ max_solutions,
    let r := enumerate_solutions solve model sat_cp.variables max_solutions in
    enumeration_inv model sat_cp.variables r ∧
    ((Z.to_nat max_solutions ≤ 18)%nat →
       solution_count r = Z.to_nat max_solutions ∧
       stopped_by_break r = false) ∧
    ((18 < Z.to_nat max_solutions)%nat →
       solution_count r = 18%nat ∧ stopped_by_break r = true ∧
       ∀ a, ¬ feasible (r_model r) a)).
  { intros max_solutions r. split.
    - apply iterate_inv; [done..|]. by apply enumeration_initial_inv.
    - pose proof (iterate_complete solve model sat_cp.variables Hsound Htr
        solutions Hcomplete (proj1 program_solutions_enumerate) region_solutions
        (py_range max_solutions) (mk_run model 0 [] None false)
        (enumeration_initial_inv _ _ Hwf) eq_refl) as H.
      unfold py_range in H. rewrite length_seq in H. exact H. }
  split; [apply program_solutions_enumerate|]. split; [reflexivity|]. split.
  - destruct (Hgen 10) as ([_ _ _ Hn Hp Hc _ Hl] & H1 & _).
    change (enumerate_solutions solve model sat_cp.variables 10)
      with (simple_sat_program_iterative solve) in *.
    destruct H1 as [Hcount Hb]; [simpl; lia|].
    cbv zeta. split; [done|]. split; [by rewrite <- Hc|]. split; [done|].
    split; [|split; [done|]].
    + intros p Hin. by apply (proj2 program_solutions_enumerate), region_solutions, Hp.
    + destruct (Hl Hb) as [[_ Hnil]|?]; [|done].
      rewrite Hc, Hnil in Hcount. done.
  - intros max_solutions. destruct (Hgen max_solutions) as (Hinv & H1 & H2).
    cbv zeta. destruct Hinv as [_ _ _ _ _ Hc Hbr Hl].
    split; [done|]. split; [|split].
    + intros Hpos. split.
      * intros Hb. destruct (Hl Hb) as [[_ Hnil]|?]; [|done].
        destruct (decide (Z.to_nat max_solutions ≤ 18)%nat).
        -- destruct H1 as [Hcount _]; [done|].
           rewrite Hc, Hnil in Hcount. simpl in Hcount. lia.
        -- destruct H2 as (_ & Hb' & _); [lia|]. congruence.
      * intros (st & Hst & Hhas).
        destruct (stopped_by_break _) eqn:Hb; [|done].
        destruct (proj1 Hbr eq_refl) as (st' & Hst' & Hno). congruence.
    + intros Hle. apply H1. lia.
    + intros Hlt. apply H2. lia.
Qed.

Lemma limit_and_exhaustion_witness :
  sound dfs_solve ∧ complete dfs_solve ∧
  solution_count (simple_sat_program_iterative dfs_solve) = 10%nat ∧
  stopped_by_break (simple_sat_program_iterative dfs_solve) = false.
Proof.
  destruct (limit_and_exhaustion dfs_solve dfs_solve_sound dfs_solve_complete)
    as (_ & _ & (Hc & _ & _ & _ & Hb & _) & _).
  split; [apply dfs_solve_sound|]. split; [apply dfs_solve_complete|].
  split; [exact Hc|exact Hb].
Defined.

(** The same run, computed with the depth-first solver. *)
Example iterative_run_computed :
  let r := simple_sat_program_iterative dfs_solve in
  printed r = [[0; 1; 0]; [0; 1; 1]; [0; 1; 2]; [0; 2; 0]; [0; 2; 1];
               [0; 2; 2]; [1; 0; 0]; [1; 0; 1]; [1; 0; 2]; [1; 2; 0]] ∧
  last_status r = Some OPTIMAL ∧ stopped_by_break r = false.
Proof. vm_compute. done. Qed.

End sat_cp_facts.

(** ** Lists, loops and optima *)

Lemma for_each_progress {A St} (body : A → St → option St)
    (I : nat → St → Prop) (l : list A) s :
  I 0%nat s →
  (∀ i x s1, l !! i = Some x → I i s1 →
     ∃ s2, body x s1 = Some s2 ∧ I (S i) s2) →
  ∃ s', for_each body l s = Some s' ∧ I (length l) s'.
Proof.
  revert I s. induction l as [|x l IH]; intros I s H0 Hstep; simpl.
  - by exists s.
  - destruct (Hstep 0%nat x s eq_refl H0) as (s1 & Hx & H1). rewrite Hx. simpl.
    apply (IH (λ i, I (S i)) s1 H1). intros i. apply (Hstep (S i)).
Qed.

Lemma domain_values (xs : list IntVar) (a : list Z) lo hi :
  Forall (λ x, lb x = lo ∧ ub x = hi) xs →
  Forall2 in_domain xs a ↔ length a = length xs ∧ Forall (λ z, lo ≤ z ≤ hi) a.
Proof.
  intros Hx. revert a. induction Hx as [|x xs [Hl Hu] Hx IH]; intros a.
  - split.
    + intros ->%Forall2_nil_inv_l. by split.
    + intros [Hlen _]. destruct a; [constructor|done].
  - split.
    + intros (z & a' & Hz & Ha & ->)%Forall2_cons_inv_l.
      apply IH in Ha as [Hlen Ha]. split; [by simpl; rewrite Hlen|].
      constructor; [|done]. unfold in_domain in Hz. by rewrite Hl, Hu in Hz.
    + intros [Hlen Ha]. destruct a as [|z a]; [done|].
      apply Forall_cons in Ha as [Hz Ha]. constructor.
      * unfold in_domain. by rewrite Hl, Hu.
      * apply IH. split; [by injection Hlen|done].
Qed.

Lemma NoDup_enumerate {A} (l : list A) : NoDup (enumerate l).
Proof.
  apply NoDup_alt. intros i j p [Hi _]%enumerate_lookup [Hj _]%enumerate_lookup.
  congruence.
Qed.

Lemma sum_filter_split {K} (f : K → Z) (P : K → Prop) `{∀ x, Decision (P x)}
    (l : list K) :
  foldr Z.add 0 (f <$> l)
  = foldr Z.add 0 (f <$> filter P l)
    + foldr Z.add 0 (f <$> filter (λ x, ¬ P x) l).
Proof.
  induction l as [|x l IH]; [done|].
  rewrite !filter_cons. destruct (decide (P x)) as [Hx|Hx].
  - rewrite decide_False by tauto. csimpl. lia.
  - rewrite decide_True by done. csimpl. lia.
Qed.

Lemma sum_ext {K} (f g : K → Z) (l : list K) :
  (∀ x, x ∈ l → f x = g x) →
  foldr Z.add 0 (f <$> l) = foldr Z.add 0 (g <$> l).
Proof.
  intros H. f_equal. apply list_fmap_ext. intros i x Hx.
  apply H. by eapply list_elem_of_lookup_2.
Qed.

(** Intervals that lie in [[lo, hi]] and do not overlap have a total length
    of at most [hi - lo]. *)
Lemma load_bound {K} (s e : K → Z) (n : nat) : ∀ (l : list K) lo hi,
  (length l ≤ n)%nat → lo ≤ hi → NoDup l →
  (∀ x, x ∈ l → lo ≤ s x ∧ s x ≤ e x ∧ e x ≤ hi) →
  (∀ x y, x ∈ l → y ∈ l → x ≠ y → e x ≤ s y ∨ e y ≤ s x) →
  foldr Z.add 0 ((λ x, e x - s x) <$> l) ≤ hi - lo.
Proof.
  induction n as [|n IH]; intros l lo hi Hlen Hle Hnd Hin Hdis.
  - destruct l; [simpl; lia|simpl in Hlen; lia].
  - destruct l as [|x l]; [simpl; lia|].
    apply NoDup_cons in Hnd as [Hx Hnd].
    destruct (Hin x ltac:(left)) as (Hlo & Hse & Hhi).
    csimpl. rewrite (sum_filter_split _ (λ y, e y ≤ s x) l).
    assert (H1 : foldr Z.add 0
              ((λ y, e y - s y) <$> filter (λ y, e y ≤ s x) l) ≤ s x - lo).
    { apply IH.
      - pose proof (length_filter (λ y, e y ≤ s x) l). simpl in Hlen. lia.
      - done.
      - by apply NoDup_filter.
      - intros y [Hy Hyl]%list_elem_of_filter.
        destruct (Hin y ltac:(by right)) as (? & ? & ?). lia.
      - intros y z [_ Hy]%list_elem_of_filter [_ Hz]%list_elem_of_filter.
        apply Hdis; by right. }
    assert (H2 : foldr Z.add 0
              ((λ y, e y - s y) <$> filter (λ y, ¬ e y ≤ s x) l) ≤ hi - e x).
    { apply IH.
      - pose proof (length_filter (λ y, ¬ e y ≤ s x) l). simpl in Hlen. lia.
      - done.
      - by apply NoDup_filter.
      - intros y [Hy Hyl]%list_elem_of_filter.
        destruct (Hin y ltac:(by right)) as (? & ? & ?).
        destruct (Hdis x y ltac:(left) ltac:(by right)) as [?|?]; [|lia..].
        intros ->. done.
      - intros y z [_ Hy]%list_elem_of_filter [_ Hz]%list_elem_of_filter.
        apply Hdis; by right. }
    lia.
Qed.




Lemma StronglySorted_lookup {A} (R : relation A) (l : list A) i i' x y :
  StronglySorted R l → (i < i')%nat →
  l !! i = Some x → l !! i' = Some y → R x y.
Proof.
  intros Hl. revert i i'. induction Hl as [|z l Hl IH Hz]; intros i i' Hlt; [done|].
  destruct i' as [|i']; [lia|]. destruct i as [|i]; simpl.
  - intros [= ->] Hy. eapply (proj1 (Forall_forall _ _) Hz).
    by eapply list_elem_of_lookup_2.
  - apply IH. lia.
Qed.

Module job_shop_model_facts.
Import job_shop job_shop_model job_shop_facts.

(** Positions *)

Lemma offset_0 (jobs : list Job) : offset jobs 0 0 = 0%nat.
Proof. unfold offset. by rewrite take_0. Qed.

Lemma offset_S (jobs : list Job) j k : offset jobs j (S k) = S (offset jobs j k).
Proof. unfold offset. lia. Qed.

Lemma offset_next_job (jobs : list Job) j (job : Job) :
  jobs !! j = Some job → offset jobs (S j) 0 = offset jobs j (length job).
Proof.
  intros Hj. unfold offset, Job in *. rewrite (take_S_r _ _ _ Hj).
  rewrite join_app, length_app. simpl. rewrite app_nil_r. lia.
Qed.

Lemma offset_end (jobs : list Job) :
  offset jobs (length jobs) 0 = tasks_count jobs.
Proof. unfold offset, tasks_count. rewrite firstn_all. lia. Qed.

(** The constraints posted so far stay posted when the dictionary grows. *)

Lemma on_machine_weaken (jobs : list Job) (tasks tasks' : gmap (nat * nat) task_type) m key iv :
  tasks ⊆ tasks' → on_machine jobs tasks m key iv → on_machine jobs tasks' m key iv.
Proof.
  intros Hsub (t & d & Ht & Hiv & Hat). exists t, d.
  split; [by eapply lookup_weaken|done].
Qed.

Lemma posted_weaken (sc : script) (jobs : list Job) (tasks tasks' : gmap (nat * nat) task_type) c :
  tasks ⊆ tasks' → posted sc jobs tasks c → posted sc jobs tasks' c.
Proof.
  intros Hsub [key t Ht|m keys l Hn Hl|j k cur next Hc Hx].
  - apply (posted_interval _ _ _ key). by eapply lookup_weaken.
  - apply (posted_no_overlap _ _ _ m keys); [done|].
    eapply Forall2_impl; [exact Hl|]. intros key iv. by apply on_machine_weaken.
  - apply (posted_precedence _ _ _ j k); by eapply lookup_weaken.
Qed.

Lemma create_task_layout sc jobs count j k task st st' :
  task_at jobs j k = Some task →
  Inv jobs count j k st → Layout sc jobs j k st →
  create_task sc (horizon jobs) j k task st = Some st' →
  Layout sc jobs j (S k) st'.
Proof.
  intros Htask [HK HT _ _ _] [HL HI HC HM]. destruct task as [m d].
  unfold create_task.
  destruct (new_int_var _ _ _ (st_model st)) as [sv m1] eqn:E1.
  destruct (new_int_var _ _ _ m1) as [ev m2] eqn:E2.
  apply extends_new_int_var in E1 as (X1 & V1 & I1 & L1 & U1 & C1).
  apply extends_new_int_var in E2 as (X2 & V2 & I2 & L2 & U2 & C2).
  unfold new_interval_var.
  set (iv := mkIntervalVar sv d ev _).
  destruct (get_intervals sc _ m) as [ivs|] eqn:Hget; [|done].
  simpl. intros [= <-].
  assert (Hfresh : all_tasks st !! (j, k) = None).
  { apply eq_None_not_Some. rewrite HK. unfold created. simpl. lia. }
  set (t := mk_task_type sv ev iv).
  assert (Hsub : all_tasks st ⊆ <[(j, k) := t]> (all_tasks st))
    by by apply insert_subseteq.
  split; simpl.
  - rewrite V2, V1, !length_app, HL, offset_S. simpl. lia.
  - intros j' k' t'. rewrite lookup_insert_Some.
    intros [[[= <- <-] <-]|[_ Hkey]]; [|by apply HI].
    simpl. rewrite I2, V1, length_app, I1, HL. simpl. lia.
  - rewrite C2, C1. apply Forall_app. split.
    + eapply Forall_impl; [exact HC|]. intros c. by apply posted_weaken.
    + apply Forall_singleton. apply (posted_interval _ _ _ (j, k) t).
      apply lookup_insert_eq.
  - intros m' l. rewrite lookup_insert_Some.
    intros [[<- <-]|[Hne Hl]].
    + assert (∃ keys, NoDup keys ∧
                Forall2 (on_machine jobs (all_tasks st) m) keys ivs)
        as (keys & Hn & Hk).
      { unfold get_intervals in Hget.
        destruct (machine_to_intervals st !! m) as [l|] eqn:Hl.
        - injection Hget as <-. by apply HM.
        - exists []. split; [constructor|].
          destruct sc; [|done]. injection Hget as <-. constructor. }
      exists (keys ++ [(j, k)]). split.
      * apply NoDup_app. split; [done|]. split; [|apply NoDup_singleton].
        intros key Hin ->%list_elem_of_singleton.
        apply list_elem_of_lookup in Hin as (i & Hi).
        destruct (Forall2_lookup_l _ _ _ _ _ Hk Hi) as (iv' & _ & t' & d' & Ht' & _).
        congruence.
      * apply Forall2_app.
        -- eapply Forall2_impl; [exact Hk|]. intros key iv'.
           by apply on_machine_weaken.
        -- constructor; [|constructor]. exists t, d.
           split; [apply lookup_insert_eq|done].
    + destruct (HM m' l Hl) as (keys & Hn & Hk). exists keys. split; [done|].
      eapply Forall2_impl; [exact Hk|]. intros key iv'. by apply on_machine_weaken.
Qed.

Lemma job_loop_layout sc (jobs : list Job) count j (job : Job) st st' :
  machines_count sc jobs = Some count →
  jobs !! j = Some job →
  Inv jobs count j 0 st → Layout sc jobs j 0 st →
  for_each (λ '(task_id, task),
      create_task sc (horizon jobs) j task_id task) (enumerate job) st
    = Some st' →
  Layout sc jobs (S j) 0 st'.
Proof.
  intros Hcount Hjob Hinv Hlay Hrun.
  apply (for_each_inv _ (λ k s, Inv jobs count j k s ∧ Layout sc jobs j k s))
    in Hrun; [|done|].
  - rewrite length_enumerate in Hrun. destruct Hrun as [_ [HL HI HC HM]].
    split; try done. by rewrite (offset_next_job _ _ _ Hjob).
  - intros k [k' task] s1 s2 [Hk Ht]%enumerate_lookup [Hi Hl] Hbody.
    simpl in Hk, Ht. subst k'.
    pose proof (task_at_Some _ _ _ _ _ Hjob Ht) as Hat. split.
    + by eapply create_task_inv.
    + by eapply create_task_layout.
Qed.

Lemma creation_loop_layout sc jobs count st :
  machines_count sc jobs = Some count →
  for_each (λ '(job_id, job),
      for_each (λ '(task_id, task),
        create_task sc (horizon jobs) job_id task_id task) (enumerate job))
    (enumerate jobs) (mk_state CpModel_new ∅ (initial_intervals sc count))
    = Some st →
  Layout sc jobs (length jobs) 0 st.
Proof.
  intros Hcount Hrun.
  apply (for_each_inv _ (λ j s, Inv jobs count j 0 s ∧ Layout sc jobs j 0 s))
    in Hrun.
  - rewrite length_enumerate in Hrun. apply Hrun.
  - split; [apply creation_initial_inv|]. split.
    + by rewrite offset_0.
    + intros j k t. simpl. by rewrite lookup_empty.
    + constructor.
    + intros m l Hl. exists []. split; [constructor|].
      simpl in Hl. destruct sc; simpl in Hl.
      * by rewrite lookup_empty in Hl.
      * apply elem_of_list_to_map_2 in Hl.
        apply list_elem_of_fmap in Hl as (i & [= _ ->] & _). constructor.
  - intros j [j' job] s1 s2 [Hj Hjob]%enumerate_lookup [Hi Hl] Hbody.
    simpl in Hj, Hjob. subst j'. split.
    + by eapply job_loop_inv.
    + by eapply job_loop_layout.
Qed.

Lemma no_overlap_loop_posted (sc : script) (jobs : list Job)
    (tasks : gmap (nat * nat) task_type)
    (m2i : gmap nat (list IntervalVar)) count m0 m1 :
  (∀ m l, m2i !! m = Some l →
     ∃ keys, NoDup keys ∧ Forall2 (on_machine jobs tasks m) keys l) →
  for_each (λ machine model,
      ivs ← get_intervals sc m2i machine; Some (add_no_overlap ivs model))
    (seq 0 count) m0 = Some m1 →
  Forall (posted sc jobs tasks) (constraints m0) →
  Forall (posted sc jobs tasks) (constraints m1).
Proof.
  intros HM Hrun H0.
  apply (for_each_inv _ (λ _ m, Forall (posted sc jobs tasks) (constraints m)))
    in Hrun; [done|done|].
  intros i x s1 s2 _ Hs Hbody. simpl in Hbody.
  destruct (get_intervals sc m2i x) as [ivs|] eqn:Hget; [|done].
  injection Hbody as <-. simpl. apply Forall_app. split; [done|].
  apply Forall_singleton. unfold get_intervals in Hget.
  destruct (m2i !! x) as [l|] eqn:Hl.
  - injection Hget as <-. destruct (HM x l Hl) as (keys & Hn & Hk).
    by apply (posted_no_overlap _ _ _ x keys).
  - destruct sc; [|done]. injection Hget as <-.
    apply (posted_no_overlap _ _ _ x []); constructor.
Qed.

Lemma precedence_loop_posted (sc : script) (jobs jobs' : list Job)
    (tasks : gmap (nat * nat) task_type) m0 m1 :
  for_each (λ '(job_id, job),
      for_each (λ task_id model,
        next ← tasks !! (job_id, task_id + 1)%nat;
        cur ← tasks !! (job_id, task_id);
        Some (add (precedence sc cur next) model))
      (seq 0 (length job - 1)))
    (enumerate jobs') m0 = Some m1 →
  Forall (posted sc jobs tasks) (constraints m0) →
  Forall (posted sc jobs tasks) (constraints m1).
Proof.
  intros Hrun H0.
  apply (for_each_inv _ (λ _ m, Forall (posted sc jobs tasks) (constraints m)))
    in Hrun; [done|done|].
  intros i [j job] s1 s2 _ Hs Hbody.
  apply (for_each_inv _ (λ _ m, Forall (posted sc jobs tasks) (constraints m)))
    in Hbody; [done|done|].
  intros i' k s3 s4 _ Hs3 Hstep. simpl in Hstep.
  rewrite Nat.add_1_r in Hstep.
  destruct (tasks !! (j, S k)) as [next|] eqn:Hnext; [|done].
  destruct (tasks !! (j, k)) as [cur|] eqn:Hcur; [|done].
  injection Hstep as <-. simpl. apply Forall_app. split; [done|].
  apply Forall_singleton. by apply (posted_precedence _ _ _ j k).
Qed.

Lemma build_Exact sc jobs b : build sc jobs = Some b → Exact sc jobs b.
Proof.
  unfold build. intros H.
  apply bind_Some in H as (count & Hcount & H).
  apply bind_Some in H as (st & Hst & H).
  apply bind_Some in H as (m1 & Hm1 & H).
  apply bind_Some in H as (m2 & Hm2 & H).
  destruct (new_int_var _ _ _ m2) as [obj m3] eqn:E3.
  apply bind_Some in H as (last_tasks & Hlast & H).
  injection H as <-.
  pose proof (creation_loop_inv _ _ _ _ Hcount Hst) as [HK _ _ _ _].
  pose proof (creation_loop_layout _ _ _ _ Hcount Hst) as [HL HI HC HM].
  pose proof (no_overlap_loop_posted _ jobs _ _ _ _ _ HM Hm1 HC) as HC1.
  apply no_overlap_loop_inv in Hm1 as (_ & V1 & _).
  pose proof (precedence_loop_posted _ jobs _ _ _ _ Hm2 HC1) as HC2.
  apply precedence_loop_inv in Hm2 as (_ & V2 & _).
  apply extends_new_int_var in E3 as (_ & V3 & I3 & _ & _ & C3).
  apply mapM_Some_1 in Hlast.
  assert (Hkeys : ∀ j k,
    is_Some (all_tasks st !! (j, k)) ↔ is_Some (task_at jobs j k)).
  { intros j k. rewrite HK. unfold created. simpl. split; [by intros [_ ?]|].
    intros Hs. split; [|done]. left.
    destruct Hs as [task Hat]. unfold task_at in Hat.
    apply bind_Some in Hat as (job & Hj & _). by eapply lookup_lt_Some. }
  assert (Hlen : length (variables m2) = (2 * tasks_count jobs)%nat)
    by by rewrite V2, V1, HL, offset_end.
  split; cbn [b_model b_all_tasks b_makespan minimize add_max_equality post
              variables constraints].
  - done.
  - done.
  - rewrite V3, length_app, Hlen. simpl. lia.
  - by rewrite I3.
  - intros j job Hj ->.
    assert (enumerate jobs !! j = Some (j, [])) as He
      by by apply enumerate_lookup.
    destruct (Forall2_lookup_l _ _ _ _ _ Hlast He) as (e & _ & Hf).
    simpl in Hf. apply bind_Some in Hf as (t & Ht & _).
    assert (is_Some (task_at jobs j 0)) as [task Hat] by (apply Hkeys; eauto).
    unfold task_at in Hat. rewrite Hj in Hat. done.
  - exists (constraints m2), last_tasks. split; [by rewrite C3|].
    split; [done|]. eapply Forall2_impl; [exact Hlast|].
    intros [j job] e Hf. simpl in *.
    apply bind_Some in Hf as (t & Ht & [= <-]). by exists t.
Qed.

(** Reading the times of a task through the dictionary [all_tasks], as the
    scripts do, or through the position of its variables. *)
Lemma task_times sc jobs b a j k t :
  Exact sc jobs b → b_all_tasks b !! (j, k) = Some t →
  Value a (index (start t)) = start_of jobs a j k ∧
  Value a (index (end_ t)) = end_of jobs a j k.
Proof.
  intros HE Ht. destruct (ex_index _ _ _ HE j k t Ht) as [-> ->]. done.
Qed.

Lemma task_found sc jobs b j k m d :
  Built sc jobs b → task_at jobs j k = Some (m, d) →
  ∃ t, b_all_tasks b !! (j, k) = Some t ∧
    iv_start (interval t) = Var (index (start t)) ∧
    iv_end (interval t) = Var (index (end_ t)) ∧
    iv_size (interval t) = d ∧
    mkConstraint (Interval (interval t)) [] ∈ constraints (b_model b).
Proof.
  intros HB Hat. destruct (built_task _ _ _ HB j k m d Hat) as (t & Ht & Hok).
  exists t. split; [done|]. by destruct Hok as (_ & _ & ? & ? & ? & ?).
Qed.

Lemma no_overlap_keys {K} (R : K → IntervalVar → Prop) a keys l :
  (∀ key1 key2 iv1 iv2, key1 ≠ key2 → R key1 iv1 → R key2 iv2 →
     disjoint a iv1 iv2) →
  NoDup keys → Forall2 R keys l → no_overlap a l.
Proof.
  intros HR Hn Hl. induction Hl as [|key iv keys l Hk Hl IH]; [done|].
  apply NoDup_cons in Hn as [Hnotin Hn]. split; [|by apply IH].
  apply Forall_forall. intros iv' Hin.
  apply list_elem_of_lookup in Hin as (i & Hi).
  destruct (Forall2_lookup_r _ _ _ _ _ Hl Hi) as (key' & Hk' & HR').
  apply (HR key key'); [|done..].
  intros ->. apply Hnotin. by eapply list_elem_of_lookup_2.
Qed.

(** The solutions of the model are the schedules of [jobs]. *)
Lemma feasible_schedule sc jobs b a :
  build sc jobs = Some b → feasible (b_model b) a ↔ schedule jobs a.
Proof.
  intros Hb. pose proof (build_Built _ _ _ Hb) as HB.
  pose proof (build_Exact _ _ _ Hb) as HE.
  destruct (ex_constraints _ _ _ HE) as (cs & last_tasks & Hcs & Hposted & Hlast).
  assert (Hlast_end : ∀ j (job : Job), jobs !! j = Some job →
    ∃ e, last_tasks !! j = Some e ∧
         eval a e = end_of jobs a j (length job - 1)).
  { intros j job Hj.
    assert (enumerate jobs !! j = Some (j, job)) as He
      by by apply enumerate_lookup.
    destruct (Forall2_lookup_l _ _ _ _ _ Hlast He) as (e & Hl & t & Ht & ->).
    exists (expr_of_var (end_ t)). split; [done|]. simpl in *.
    by destruct (task_times _ _ _ a _ _ _ HE Ht) as [_ ->]. }
  assert (Hobj : eval a (expr_of_var (b_makespan b)) = makespan_of jobs a).
  { simpl. by rewrite (ex_makespan _ _ _ HE). }
  split.
  - (* a solution is a schedule *)
    intros Ha. pose proof Ha as [Hdom Hhold].
    apply (domain_values _ _ 0 (horizon jobs)) in Hdom;
      [|exact (built_domain _ _ _ HB)].
    destruct Hdom as [Hlen Hrange].
    assert (Hmax : holds_body a (MaxEquality (b_makespan b) last_tasks)).
    { apply (feasible_holds _ a (mkConstraint _ []) Ha); [|done].
      rewrite Hcs. apply elem_of_app. right. by left. }
    destruct Hmax as [Hub Heq]. rewrite Hobj in Hub, Heq.
    split.
    + by rewrite Hlen, (ex_length _ _ _ HE).
    + done.
    + intros j k m d Hat.
      destruct (built_task _ _ _ HB j k m d Hat) as (t & Ht & Hok).
      destruct (task_times _ _ _ a _ _ _ HE Ht) as [<- <-].
      by eapply task_interval.
    + intros j k [task Hat].
      assert (∃ job : Job, jobs !! j = Some job ∧ (k + 1 < length job)%nat)
        as (job & Hj & Hk).
      { unfold task_at in Hat. apply bind_Some in Hat as (job & Hj & Hk).
        exists job. split; [done|]. apply lookup_lt_Some in Hk. lia. }
      destruct (built_precedence _ _ _ HB j job k Hj Hk)
        as (cur & next & Hcur & Hnext & Hc).
      destruct (task_times _ _ _ a _ _ _ HE Hcur) as [_ <-].
      destruct (task_times _ _ _ a _ _ _ HE Hnext) as [<- _].
      pose proof (feasible_holds _ a _ Ha Hc eq_refl) as H.
      destruct sc; exact H.
    + intros j1 k1 j2 k2 m d1 d2 Hne Hat1 Hat2.
      destruct (built_task _ _ _ HB _ _ _ _ Hat1) as (t1 & H1 & Hok1).
      destruct (built_task _ _ _ HB _ _ _ _ Hat2) as (t2 & H2 & Hok2).
      destruct (built_no_overlap _ _ _ HB _ _ _ _ t1 t2 m d1 d2 Hne Hat1 Hat2 H1 H2)
        as (l & Hc & Hsub).
      pose proof (feasible_holds _ a _ Ha Hc eq_refl) as Hl. simpl in Hl.
      pose proof (no_overlap_pair a _ _ l Hl Hsub) as Hd.
      destruct Hok1 as (_ & _ & S1 & F1 & _).
      destruct Hok2 as (_ & _ & S2 & F2 & _).
      unfold disjoint in Hd. rewrite S1, F1, S2, F2 in Hd. simpl in Hd.
      destruct (task_times _ _ _ a _ _ _ HE H1) as [<- <-].
      by destruct (task_times _ _ _ a _ _ _ HE H2) as [<- <-].
    + intros j job Hj. destruct (Hlast_end j job Hj) as (e & He & <-).
      by apply (Forall_lookup_1 _ _ _ _ Hub He).
    + apply Exists_exists in Heq as (e & Hin & Heq).
      apply list_elem_of_lookup in Hin as (j & Hj).
      destruct (Forall2_lookup_r _ _ _ _ _ Hlast Hj) as ([j' job] & He & _).
      apply enumerate_lookup in He as [Hj' Hjob]. simpl in Hj', Hjob. subst j'.
      exists j, job. split; [done|].
      destruct (Hlast_end j job Hjob) as (e' & He' & <-). congruence.
  - (* a schedule is a solution *)
    intros [Hlen Hrange Hdur Hprec Hmach Hub Heq].
    assert (Htimes : ∀ j k t, b_all_tasks b !! (j, k) = Some t →
      ∃ m d, task_at jobs j k = Some (m, d) ∧
        eval a (iv_start (interval t)) = start_of jobs a j k ∧
        eval a (iv_end (interval t)) = end_of jobs a j k ∧
        iv_size (interval t) = d).
    { intros j k t Ht.
      assert (is_Some (task_at jobs j k)) as [[m d] Hat]
        by (apply (ex_keys _ _ _ HE); eauto).
      exists m, d. split; [done|].
      destruct (task_found _ _ _ _ _ _ _ HB Hat) as (t' & Ht' & S1 & F1 & D1 & _).
      assert (t' = t) as -> by congruence. rewrite S1, F1. simpl.
      by destruct (task_times _ _ _ a _ _ _ HE Ht) as [-> ->]. }
    split.
    + apply (domain_values _ _ 0 (horizon jobs)); [exact (built_domain _ _ _ HB)|].
      split; [|done]. by rewrite Hlen, (ex_length _ _ _ HE).
    + rewrite Hcs. apply Forall_app. split.
      * eapply Forall_impl; [exact Hposted|]. intros c Hc _.
        destruct Hc as [[j k] t Ht|m keys l Hn Hl|j k cur next Hcur Hnext]; simpl.
        -- destruct (Htimes j k t Ht) as (m & d & Hat & -> & -> & ->).
           destruct (Hdur j k m d Hat) as [? ->]. done.
        -- apply (no_overlap_keys (on_machine jobs (b_all_tasks b) m) a keys);
             [|done..].
           intros [j1 k1] [j2 k2] iv1 iv2 Hne
             (t1 & d1 & H1 & <- & Hat1) (t2 & d2 & H2 & <- & Hat2).
           simpl in Hat1, Hat2. unfold disjoint.
           destruct (Htimes _ _ _ H1) as (_ & _ & _ & -> & -> & _).
           destruct (Htimes _ _ _ H2) as (_ & _ & _ & -> & -> & _).
           by eapply Hmach.
        -- destruct (task_times _ _ _ a _ _ _ HE Hcur) as [_ Hc].
           destruct (task_times _ _ _ a _ _ _ HE Hnext) as [Hn _].
           assert (is_Some (task_at jobs j (S k))) as Hs
             by (apply (ex_keys _ _ _ HE); eauto).
           pose proof (Hprec j k Hs) as H. rewrite <- Hc, <- Hn in H.
           destruct sc; exact H.
      * apply Forall_singleton. intros _. cbn [body holds_body].
        rewrite Hobj. split.
        -- apply Forall_lookup_2. intros j e He.
           destruct (Forall2_lookup_r _ _ _ _ _ Hlast He) as ([j' job] & Hj & _).
           apply enumerate_lookup in Hj as [Hj' Hjob]. simpl in Hj', Hjob. subst j'.
           destruct (Hlast_end j job Hjob) as (e' & He' & Hv).
           assert (e' = e) as -> by congruence. rewrite Hv. by apply Hub.
        -- destruct Heq as (j & job & Hj & Heq).
           destruct (Hlast_end j job Hj) as (e & He & Hv).
           apply Exists_exists. exists e. split; [by eapply list_elem_of_lookup_2|].
           by rewrite Hv.
Qed.

(** ** The serial schedule *)


Lemma job_length_app (l1 l2 : list Task) :
  job_length (l1 ++ l2) = job_length l1 + job_length l2.
Proof.
  unfold job_length. induction l1 as [|task l1 IH]; simpl; [done|].
  rewrite IH. lia.
Qed.

Lemma job_length_snoc (l : list Task) (task : Task) :
  job_length (l ++ [task]) = job_length l + task.2.
Proof. rewrite job_length_app. unfold job_length. simpl. lia. Qed.







(** The position of a task among all the tasks. *)
Lemma task_at_offset (jobs : list Job) j k task :
  task_at jobs j k = Some task → mjoin jobs !! offset jobs j k = Some task.
Proof.
  unfold task_at. intros (job & Hj & Hk)%bind_Some.
  apply join_lookup_Some. exists j, job, k.
  split; [done|]. split; [done|]. unfold offset. by rewrite length_join.
Qed.




Lemma offset_valid (jobs : list Job) j k :
  is_Some (task_at jobs j k) → (offset jobs j k < tasks_count jobs)%nat.
Proof.
  intros [task Hat]. apply task_at_offset in Hat. by eapply lookup_lt_Some.
Qed.




(** ** When [build] raises *)



Lemma task_at_is_Some (jobs : list Job) j (job : Job) k :
  jobs !! j = Some job → (k < length job)%nat → is_Some (task_at jobs j k).
Proof.
  intros Hj Hk. destruct (lookup_lt_is_Some_2 job k Hk) as [task Ht].
  exists task. by eapply task_at_Some.
Qed.





(** ** Lower bounds on the makespan *)

(** A job runs its tasks in order: task [k] cannot end before the tasks up
    to [k] have all been processed. *)
Lemma job_chain (jobs : list Job) a j (job : Job) k :
  schedule jobs a → jobs !! j = Some job → (k < length job)%nat →
  start_of jobs a j 0 + job_length (take (S k) job) ≤ end_of jobs a j k.
Proof.
  intros Hs Hj. induction k as [|k IH]; intros Hk.
  - destruct (lookup_lt_is_Some_2 job 0 Hk) as [[m d] Ht].
    destruct (sch_duration _ _ Hs j 0%nat m d (task_at_Some _ _ _ _ _ Hj Ht))
      as [_ ->].
    rewrite (take_S_r _ _ _ Ht), job_length_snoc. simpl.
    unfold job_length. simpl. lia.
  - destruct (lookup_lt_is_Some_2 job (S k) Hk) as [[m d] Ht].
    pose proof (task_at_Some _ _ _ _ _ Hj Ht) as Hat.
    destruct (sch_duration _ _ Hs j (S k) m d Hat) as [_ ->].
    pose proof (sch_precedence _ _ Hs j k ltac:(eauto)).
    rewrite (take_S_r _ _ _ Ht), job_length_snoc. simpl.
    specialize (IH ltac:(lia)). lia.
Qed.

Lemma start_nonneg (jobs : list Job) a j k :
  schedule jobs a → is_Some (task_at jobs j k) → 0 ≤ start_of jobs a j k.
Proof.
  intros Hs Hat%offset_valid. unfold start_of, Value.
  destruct (lookup_lt_is_Some_2 a (2 * offset jobs j k)) as [z Hz].
  { rewrite (sch_length _ _ Hs). lia. }
  rewrite Hz. simpl.
  by destruct (Forall_lookup_1 _ _ _ _ (sch_range _ _ Hs) Hz).
Qed.

Lemma makespan_nonneg (jobs : list Job) a :
  schedule jobs a → 0 ≤ makespan_of jobs a.
Proof.
  intros Hs. unfold makespan_of, Value.
  destruct (lookup_lt_is_Some_2 a (2 * tasks_count jobs)) as [z Hz].
  { rewrite (sch_length _ _ Hs). lia. }
  rewrite Hz. simpl.
  by destruct (Forall_lookup_1 _ _ _ _ (sch_range _ _ Hs) Hz).
Qed.

(** Every task ends by the makespan. *)
Lemma end_le_makespan (jobs : list Job) a j k :
  schedule jobs a → is_Some (task_at jobs j k) →
  end_of jobs a j k ≤ makespan_of jobs a.
Proof.
  intros Hs [[m d] Hat]. pose proof Hat as Hat'. unfold task_at in Hat'.
  apply bind_Some in Hat' as (job & Hj & Hk).
  pose proof (lookup_lt_Some _ _ _ Hk) as Hlt.
  etrans; [|exact (sch_makespan_ub _ _ Hs j job Hj)].
  assert (∀ n, (k + n < length job)%nat →
            end_of jobs a j k ≤ end_of jobs a j (k + n)) as Hmono.
  { induction n as [|n IH]; intros Hn.
    - rewrite Nat.add_0_r. lia.
    - etrans; [apply IH; lia|].
      replace (k + S n)%nat with (S (k + n)) by lia.
      destruct (task_at_is_Some jobs j job (S (k + n)) Hj ltac:(lia))
        as [[m' d'] Hat'].
      destruct (sch_duration _ _ Hs j (S (k + n)) m' d' Hat') as [? ->].
      pose proof (sch_precedence _ _ Hs j (k + n)%nat ltac:(eauto)). lia. }
  replace (length job - 1)%nat with (k + (length job - 1 - k))%nat by lia.
  apply Hmono. lia.
Qed.

Lemma job_bound (jobs : list Job) a j (job : Job) :
  schedule jobs a → jobs !! j = Some job →
  job_length job ≤ makespan_of jobs a.
Proof.
  intros Hs Hj. destruct (decide (job = [])) as [->|Hne].
  - by apply makespan_nonneg.
  - assert (length job - 1 < length job)%nat as Hlt
      by (destruct job; [done|simpl; lia]).
    pose proof (job_chain jobs a j job _ Hs Hj Hlt) as Hc.
    replace (S (length job - 1)) with (length job) in Hc by lia.
    rewrite firstn_all in Hc.
    pose proof (start_nonneg jobs a j 0 Hs
                  (task_at_is_Some jobs j job 0%nat Hj ltac:(lia))).
    pose proof (sch_makespan_ub _ _ Hs j job Hj). lia.
Qed.

Lemma key_of_offset (jobs : list Job) o (task : Task) :
  mjoin jobs !! o = Some task →
  ∃ j k, task_at jobs j k = Some task ∧ offset jobs j k = o.
Proof.
  intros (j & job & k & Hj & Hk & ->)%join_lookup_Some.
  exists j, k. split; [by eapply task_at_Some|].
  unfold offset. by rewrite length_join.
Qed.

Lemma machine_load_enumerate (m : nat) (l : list Task) : ∀ g : nat → nat,
  foldr Z.add 0
    ((λ p : nat * Task, p.2.2)
       <$> filter (λ p : nat * Task, p.2.1 = m) (imap (λ i x, (g i, x)) l))
  = foldr (λ task acc, if decide (task.1 = m) then task.2 + acc else acc) 0 l.
Proof.
  induction l as [|task l IH]; intros g; [done|].
  rewrite imap_cons, filter_cons.
  change (imap ((λ i x, (g i, x)) ∘ S) l)
    with (imap (λ i x, ((g ∘ S) i, x)) l).
  cbn [foldr snd fst]. destruct (decide (task.1 = m)); csimpl;
    by rewrite (IH (λ i, g (S i))).
Qed.

(** The tasks of a machine run one at a time, so they all fit before the
    makespan. *)
Lemma machine_bound (jobs : list Job) a m :
  schedule jobs a → machine_load jobs m ≤ makespan_of jobs a.
Proof.
  intros Hs. unfold machine_load.
  rewrite <- (machine_load_enumerate m (mjoin jobs) id).
  change (imap (λ i x, (id i, x)) (mjoin jobs)) with (enumerate (mjoin jobs)).
  set (L := filter (λ p : nat * Task, p.2.1 = m) (enumerate (mjoin jobs))).
  assert (HL : ∀ p, p ∈ L →
    ∃ j k, task_at jobs j k = Some (m, p.2.2) ∧ offset jobs j k = p.1).
  { intros [o [m' d]] [Hm Hp]%list_elem_of_filter. simpl in Hm. subst m'.
    apply list_elem_of_lookup in Hp as (i & [Hi Ht]%enumerate_lookup).
    simpl in Hi, Ht. subst i. by apply key_of_offset. }
  rewrite (sum_ext _ (λ p, Value a (2 * p.1 + 1) - Value a (2 * p.1)) L).
  2:{ intros p (j & k & Hat & Ho)%HL.
      destruct (sch_duration _ _ Hs j k m p.2.2 Hat) as [_ Hd].
      unfold end_of, start_of in Hd. rewrite Ho in Hd. cbv beta.
      unfold Task in *. lia. }
  pose proof (makespan_nonneg _ _ Hs) as Hnn. unfold Task in *.
  pose proof (load_bound (λ p : nat * (nat * Z), Value a (2 * p.1))
                (λ p : nat * (nat * Z), Value a (2 * p.1 + 1)) (length L) L 0
                (makespan_of jobs a)) as Hb.
  cbv beta in Hb. rewrite Z.sub_0_r in Hb. apply Hb; clear Hb.
  - done.
  - done.
  - apply NoDup_filter, NoDup_enumerate.
  - intros p (j & k & Hat & Ho)%HL. cbv beta. rewrite <- Ho.
    fold (start_of jobs a j k). fold (end_of jobs a j k).
    split; [apply start_nonneg; eauto|].
    split; [destruct (sch_duration _ _ Hs j k m p.2.2 Hat); lia|].
    apply end_le_makespan; eauto.
  - intros p q Hp Hq Hne.
    destruct (HL p Hp) as (j1 & k1 & Hat1 & Ho1).
    destruct (HL q Hq) as (j2 & k2 & Hat2 & Ho2).
    cbv beta. rewrite <- Ho1, <- Ho2.
    apply (sch_machine _ _ Hs j1 k1 j2 k2 m p.2.2 q.2.2); [|done..].
    intros [= -> ->]. apply Hne.
    apply list_elem_of_filter in Hp as [_ Hp]. apply list_elem_of_filter in Hq as [_ Hq].
    apply list_elem_of_lookup in Hp as (i1 & [Hi1 Ht1]%enumerate_lookup).
    apply list_elem_of_lookup in Hq as (i2 & [Hi2 Ht2]%enumerate_lookup).
    destruct p as [o1 t1], q as [o2 t2]. simpl in *. subst. congruence.
Qed.

(** ** Existence of an optimum *)

Lemma objective_makespan sc jobs b a :
  build sc jobs = Some b → objective_value (b_model b) a = makespan_of jobs a.
Proof.
  intros Hb. pose proof (build_Built _ _ _ Hb) as HB.
  pose proof (build_Exact _ _ _ Hb) as HE.
  unfold objective_value. destruct (built_makespan _ _ _ HB) as [_ ->].
  simpl. by rewrite (ex_makespan _ _ _ HE).
Qed.

End job_shop_model_facts.

(** ** The report of [job-shop.py] *)

Module job_shop_output_facts.
Import job_shop job_shop_model job_shop_output.
Import job_shop_facts job_shop_model_facts.

Global Instance assigned_le_total : Total assigned_le.
Proof. intros x y. unfold assigned_le. lia. Qed.

Global Instance assigned_le_trans : Transitive assigned_le.
Proof. intros x y z. unfold assigned_le. lia. Qed.

Global Instance assigned_le_antisymm : AntiSymm (=) assigned_le.
Proof.
  intros [s1 j1 i1 d1] [s2 j2 i2 d2]. unfold assigned_le. simpl.
  intros H1 H2. f_equal; lia.
Qed.

(** Invariant of the loop that fills [assigned_jobs]. *)
Lemma assign_inv sc (jobs : list Job) b a j k m d
    (assigned : gmap nat (list assigned_task_type)) :
  Exact sc jobs b → task_at jobs j k = Some (m, d) →
  (∀ machine,
     NoDup (default [] (assigned !! machine)) ∧
     ∀ x, x ∈ default [] (assigned !! machine) ↔
          entry_of jobs a machine x ∧ created j k (a_job x, a_index x)) →
  ∃ assigned', assign b a j k (m, d) assigned = Some assigned' ∧
    ∀ machine,
      NoDup (default [] (assigned' !! machine)) ∧
      ∀ x, x ∈ default [] (assigned' !! machine) ↔
           entry_of jobs a machine x ∧ created j (S k) (a_job x, a_index x).
Proof.
  intros HE Hat Hinv.
  assert (is_Some (b_all_tasks b !! (j, k))) as [t Ht]
    by (apply (ex_keys _ _ _ HE); eauto).
  destruct (task_times _ _ _ a _ _ _ HE Ht) as [Hstart _].
  unfold assign. rewrite Ht. simpl. eexists. split; [done|].
  rewrite Hstart. set (x0 := mk_assigned _ j k d).
  assert (Hx0 : ∀ machine x,
    entry_of jobs a machine x → (a_job x, a_index x) = (j, k) →
    machine = m ∧ x = x0).
  { intros machine [s j' k' d'] [H1 H2] [= -> ->]. simpl in *.
    rewrite Hat in H1. injection H1 as <- <-. split; [done|].
    unfold x0. by f_equal. }
  assert (Hcreated : ∀ key : nat * nat,
    created j (S k) key ↔ created j k key ∨ key = (j, k)).
  { intros [j' k']. unfold created. simpl. split.
    - intros [?|[-> ?]]; [by left; left|].
      destruct (decide (k' = k)) as [->|]; [by right|]. left. right. lia.
    - intros [[?|[-> ?]]|[= -> ->]]; [by left|right; lia|right; lia]. }
  intros machine. destruct (Hinv machine) as [Hn Hin].
  destruct (decide (machine = m)) as [->|Hne].
  - rewrite lookup_insert_eq. simpl. split.
    + apply NoDup_app. split; [done|]. split; [|apply NoDup_singleton].
      intros x [_ Hc]%Hin ->%list_elem_of_singleton.
      unfold created, x0 in Hc. simpl in Hc. lia.
    + intros x. rewrite elem_of_app, list_elem_of_singleton, Hin, Hcreated.
      split.
      * intros [[? ?]| ->]; [by split; [|left]|].
        split; [by split|by right].
      * intros [He [Hc|Hk]]; [by left|right]. by apply (Hx0 m).
  - rewrite lookup_insert_ne by done. split; [done|].
    intros x. rewrite Hin, Hcreated. split; [intros [? ?]; split; eauto|].
    intros [He [Hc|Hk]]; [done|]. by destruct (Hx0 machine x He Hk).
Qed.

Lemma assigned_jobs_spec sc (jobs : list Job) b a :
  Exact sc jobs b →
  ∃ assigned, assigned_jobs b a jobs = Some assigned ∧
    ∀ machine,
      NoDup (default [] (assigned !! machine)) ∧
      ∀ x, x ∈ default [] (assigned !! machine) ↔ entry_of jobs a machine x.
Proof.
  intros HE.
  destruct (for_each_progress
    (λ '(job_id, job),
       for_each (λ '(task_id, task), assign b a job_id task_id task)
         (enumerate job))
    (λ j (assigned : gmap nat (list assigned_task_type)), ∀ machine,
       NoDup (default [] (assigned !! machine)) ∧
       ∀ x, x ∈ default [] (assigned !! machine) ↔
            entry_of jobs a machine x ∧ created j 0 (a_job x, a_index x))
    (enumerate jobs) ∅) as (assigned & Hrun & Hinv).
  - intros machine. rewrite lookup_empty. simpl. split; [constructor|].
    intros x. split; [by intros ?%elem_of_nil|].
    intros [_ Hc]. unfold created in Hc. simpl in Hc. lia.
  - intros j [j' job] s1 [Hj Hjob]%enumerate_lookup Hinv.
    simpl in Hj, Hjob. subst j'.
    destruct (for_each_progress
      (λ '(task_id, task), assign b a j task_id task)
      (λ k (assigned : gmap nat (list assigned_task_type)), ∀ machine,
         NoDup (default [] (assigned !! machine)) ∧
         ∀ x, x ∈ default [] (assigned !! machine) ↔
              entry_of jobs a machine x ∧ created j k (a_job x, a_index x))
      (enumerate job) s1) as (s2 & Hrun & Hinv2); [done| |].
    + intros k [k' [m d]] s3 [Hk Ht]%enumerate_lookup Hinv3.
      simpl in Hk, Ht. subst k'.
      by eapply assign_inv; [done|by eapply task_at_Some|].
    + exists s2. split; [done|]. rewrite length_enumerate in Hinv2.
      intros machine. destruct (Hinv2 machine) as [Hn Hin]. split; [done|].
      intros x. rewrite Hin. unfold created. simpl.
      split; intros [[Hat Hs] Hc]; (split; [by split|]).
      * destruct Hc as [?|[? ?]]; [lia|].
        pose proof (task_at_lt jobs (a_job x) job (a_index x)) as Hlt.
        left. lia.
      * destruct Hc as [?|[? ?]]; [|lia].
        destruct (decide (a_job x = j)) as [E|]; [|lia]. right. split; [done|].
        apply (task_at_lt jobs (a_job x) job); [by rewrite E|eauto].
  - exists assigned. split; [done|]. rewrite length_enumerate in Hinv.
    intros machine. destruct (Hinv machine) as [Hn Hin]. split; [done|].
    intros x. rewrite Hin. split; [by intros [? _]|].
    intros He. split; [done|]. left. simpl. destruct He as [Hat _].
    unfold task_at in Hat. apply bind_Some in Hat as (job & Hj & _).
    by eapply lookup_lt_Some.
Qed.

End job_shop_output_facts.

Module job_shop_theorems.
Import job_shop job_shop_model job_shop_output.
Import job_shop_facts job_shop_model_facts job_shop_output_facts.





(** X2: [job-shop.py] and [sample.py] differ in how they count the
    machines, in the dictionary of intervals and in the way they write the
    precedence comparison; on data that both accept, their models have the
    same solutions and the same objective. *)
Theorem scripts_build_the_same_solutions (jobs : list Job) b1 b2 :
  build JobShop jobs = Some b1 → build Sample jobs = Some b2 →
  ∀ a, (feasible (b_model b1) a ↔ feasible (b_model b2) a) ∧
       objective_value (b_model b1) a = objective_value (b_model b2) a.
Proof.
  intros H1 H2 a. split.
  - by rewrite (feasible_schedule _ _ _ a H1), (feasible_schedule _ _ _ a H2).
  - by rewrite (objective_makespan _ _ _ a H1), (objective_makespan _ _ _ a H2).
Qed.

Lemma scripts_build_the_same_solutions_witness :
  ∃ b1, build JobShop sample.jobs_data = Some b1 ∧
    build Sample sample.jobs_data = Some sample.result ∧
    (feasible (b_model b1) sample.schedule ↔
     feasible (b_model sample.result) sample.schedule).
Proof.
  destruct (build JobShop sample.jobs_data) as [b1|] eqn:E1;
    [|by vm_compute in E1].
  exists b1. split; [reflexivity|]. split; [reflexivity|].
  apply (scripts_build_the_same_solutions sample.jobs_data b1 sample.result
           E1 eq_refl sample.schedule).
Defined.





(** X6: in every solution of a job-shop model the makespan is at least
    the total processing time of each job and at least the total
    processing time that each machine has to run. *)
Theorem makespan_lower_bounds sc (jobs : list Job) b a :
  build sc jobs = Some b → feasible (b_model b) a →
  (∀ job : Job, job ∈ jobs →
     job_length job ≤ Value a (index (b_makespan b))) ∧
  (∀ machine, machine_load jobs machine ≤ Value a (index (b_makespan b))).
Proof.
  intros Hb Ha. pose proof (proj1 (feasible_schedule sc _ _ a Hb) Ha) as Hs.
  rewrite (ex_makespan _ _ _ (build_Exact _ _ _ Hb)).
  fold (makespan_of jobs a). split.
  - intros job (j & Hj)%list_elem_of_lookup. by eapply job_bound.
  - intros machine. by apply machine_bound.
Qed.

Lemma makespan_lower_bounds_witness :
  build Sample sample.jobs_data = Some sample.result ∧
  feasible (b_model sample.result) sample.schedule ∧
  machine_load sample.jobs_data 0
  ≤ Value sample.schedule (index (b_makespan sample.result)).
Proof.
  split; [reflexivity|]. split; [apply sample_schedule_feasible|].
  apply (makespan_lower_bounds Sample sample.jobs_data sample.result
           sample.schedule eq_refl sample_schedule_feasible).
Defined.



(** X8: the report of [job-shop.py] lists every task exactly once, on the
    row of its machine, with the start the solver gave it; each row is
    sorted by start time (ties by job, then by task). *)
Theorem rows_list_the_tasks sc (jobs : list Job) b a :
  build sc jobs = Some b →
  ∃ assigned, assigned_jobs b a jobs = Some assigned ∧
    ∀ machine,
      NoDup (sorted_row assigned machine) ∧
      StronglySorted assigned_le (sorted_row assigned machine) ∧
      (∀ x, x ∈ sorted_row assigned machine ↔
         task_at jobs (a_job x) (a_index x) = Some (machine, a_duration x) ∧
         task_start b a (a_job x) (a_index x) = Some (a_start x)) ∧
      (∀ j k d, task_at jobs j k = Some (machine, d) →
         ∃ s, task_start b a j k = Some s ∧
              mk_assigned s j k d ∈ sorted_row assigned machine).
Proof.
  intros Hb. pose proof (build_Exact _ _ _ Hb) as HE.
  destruct (assigned_jobs_spec sc jobs b a HE) as (assigned & Hrun & Hspec).
  exists assigned. split; [done|]. intros machine.
  destruct (Hspec machine) as [Hn Hin].
  pose proof (merge_sort_Permutation assigned_le
                (default [] (assigned !! machine))) as Hperm.
  fold (sorted_row assigned machine) in Hperm.
  assert (Hstart : ∀ j k, is_Some (task_at jobs j k) →
    task_start b a j k = Some (start_of jobs a j k)).
  { intros j k Hs. apply (ex_keys _ _ _ HE) in Hs as [t Ht].
    unfold task_start. rewrite Ht. simpl.
    by destruct (task_times _ _ _ a _ _ _ HE Ht) as [-> _]. }
  split; [by rewrite Hperm|]. split; [apply StronglySorted_merge_sort; apply _|].
  split.
  - intros x. rewrite Hperm, Hin. unfold entry_of. split.
    + intros [Hat ->]. split; [done|]. apply Hstart. eauto.
    + intros [Hat Hs]. split; [done|].
      rewrite Hstart in Hs by eauto. by injection Hs.
  - intros j k d Hat. exists (start_of jobs a j k).
    split; [apply Hstart; eauto|]. rewrite Hperm. apply Hin. by split.
Qed.

Lemma rows_list_the_tasks_witness :
  build Sample sample.jobs_data = Some sample.result ∧
  ∃ assigned,
    assigned_jobs sample.result sample.schedule sample.jobs_data
    = Some assigned ∧
    NoDup (sorted_row assigned 0).
Proof.
  split; [reflexivity|].
  destruct (rows_list_the_tasks Sample sample.jobs_data sample.result
              sample.schedule eq_refl) as (assigned & Hrun & H).
  exists assigned. split; [exact Hrun|]. apply (H 0%nat).
Defined.

(** X9: when every processing time is positive, each row of the report of
    [job-shop.py] is chronological: an entry ends (start + duration) no
    later than the following entries start, so the intervals are printed
    in the order in which the machine runs them. *)
Theorem rows_are_chronological sc (jobs : list Job) b a assigned machine :
  build sc jobs = Some b → feasible (b_model b) a →
  Forall (λ task : Task, 0 < task.2) (mjoin jobs) →
  assigned_jobs b a jobs = Some assigned →
  ∀ i i' x y, (i < i')%nat →
    sorted_row assigned machine !! i = Some x →
    sorted_row assigned machine !! i' = Some y →
    a_start x + a_duration x ≤ a_start y.
Proof.
  intros Hb Ha Hpos Hrun i i' x y Hlt Hx Hy.
  pose proof (build_Exact _ _ _ Hb) as HE.
  pose proof (proj1 (feasible_schedule sc _ _ a Hb) Ha) as Hs.
  destruct (assigned_jobs_spec sc jobs b a HE) as (assigned' & Hrun' & Hspec).
  assert (assigned' = assigned) as -> by congruence.
  destruct (Hspec machine) as [Hn Hin].
  pose proof (merge_sort_Permutation assigned_le
                (default [] (assigned !! machine))) as Hperm.
  fold (sorted_row assigned machine) in Hperm.
  assert (Hsorted : StronglySorted assigned_le (sorted_row assigned machine))
    by (apply StronglySorted_merge_sort; apply _).
  pose proof (StronglySorted_lookup _ _ _ _ _ _ Hsorted Hlt Hx Hy) as Hle.
  assert (Hne : x ≠ y).
  { intros ->. rewrite <- Hperm in Hn.
    pose proof (NoDup_lookup _ _ _ _ Hn Hx Hy). lia. }
  assert (Hex : entry_of jobs a machine x)
    by (apply Hin; rewrite <- Hperm; by eapply list_elem_of_lookup_2).
  assert (Hey : entry_of jobs a machine y)
    by (apply Hin; rewrite <- Hperm; by eapply list_elem_of_lookup_2).
  destruct Hex as [Hatx Hsx], Hey as [Haty Hsy].
  destruct (sch_duration _ _ Hs _ _ _ _ Hatx) as [_ Hdx].
  destruct (sch_duration _ _ Hs _ _ _ _ Haty) as [_ Hdy].
  assert (0 < a_duration y) as Hposy.
  { apply task_at_offset, list_elem_of_lookup_2 in Haty.
    exact (proj1 (Forall_forall _ _) Hpos _ Haty). }
  assert ((a_job x, a_index x) ≠ (a_job y, a_index y)) as Hkey.
  { intros [= Hj Hk]. apply Hne. destruct x, y. simpl in *. subst.
    rewrite Hatx in Haty. by injection Haty as <-. }
  pose proof (sch_machine _ _ Hs _ _ _ _ _ _ _ Hkey Hatx Haty) as Hdis.
  assert (a_start x ≤ a_start y) by (unfold assigned_le in Hle; lia).
  lia.
Qed.

Lemma rows_are_chronological_witness :
  ∃ assigned,
    assigned_jobs sample.result sample.schedule sample.jobs_data
    = Some assigned ∧
    ∃ x y, sorted_row assigned 0 !! 0%nat = Some x ∧
      sorted_row assigned 0 !! 1%nat = Some y ∧
      a_start x + a_duration x ≤ a_start y.
Proof.
  destruct (assigned_jobs sample.result sample.schedule sample.jobs_data)
    as [assigned|] eqn:Hrun; [|by vm_compute in Hrun].
  exists assigned. split; [reflexivity|].
  destruct (sorted_row assigned 0 !! 0%nat) as [x|] eqn:Hx;
    [|by vm_compute in Hrun; injection Hrun as <-; vm_compute in Hx].
  destruct (sorted_row assigned 0 !! 1%nat) as [y|] eqn:Hy;
    [|by vm_compute in Hrun; injection Hrun as <-; vm_compute in Hy].
  exists x, y. split; [reflexivity|]. split; [reflexivity|].
  apply (rows_are_chronological Sample sample.jobs_data sample.result
           sample.schedule assigned 0%nat eq_refl sample_schedule_feasible)
    with (i := 0%nat) (i' := 1%nat); [|exact Hrun|lia|exact Hx|exact Hy].
  unfold sample.jobs_data. simpl. repeat constructor; simpl; lia.
Defined.




(** The report of [sample.py] *)




End job_shop_theorems.

(** ** N-queens for any board size *)

Module n_queens_model_facts.
Import n_queens n_queens_printer n_queens_facts.

Lemma new_int_vars_spec lo hi nm idx : ∀ m xs m',
  new_int_vars lo hi nm idx m = (xs, m') →
  variables m' = variables m ++ xs ∧ constraints m' = constraints m ∧
  length xs = length idx ∧
  ∀ i x, xs !! i = Some x →
    index x = (length (variables m) + i)%nat ∧ lb x = lo ∧ ub x = hi.
Proof.
  induction idx as [|i0 idx IH]; intros m xs m'; cbn [new_int_vars].
  - intros [= <- <-]. rewrite app_nil_r. split_and!; try done.
  - destruct (new_int_var lo hi (nm i0) m) as [x m1] eqn:E1.
    destruct (new_int_vars lo hi nm idx m1) as [xs1 m2] eqn:E2.
    intros [= <- <-].
    apply extends_new_int_var in E1 as (_ & V1 & I1 & L1 & U1 & C1).
    apply IH in E2 as (V2 & C2 & Hlen & Hx).
    split; [by rewrite V2, V1, <- app_assoc|].
    split; [by rewrite C2|]. split; [by simpl; rewrite Hlen|].
    intros [|i] y; simpl.
    + intros [= <-]. split; [lia|done].
    + intros Hy. destruct (Hx i y Hy) as (Hi & ? & ?).
      rewrite V1, length_app in Hi. simpl in Hi. split; [lia|done].
Qed.

Lemma values_of_queens (qs : list IntVar) (a : list Z) (f : nat → Z → Z) :
  (∀ i x, qs !! i = Some x → index x = i) → length a = length qs →
  imap (λ i q, f i (Value a (index q))) qs = imap f a.
Proof.
  intros Hidx Hlen. apply list_eq. intros i. rewrite !list_lookup_imap.
  destruct (qs !! i) as [q|] eqn:Hq; simpl.
  - rewrite (Hidx i q Hq). unfold Value.
    destruct (lookup_lt_is_Some_2 a i) as [z Hz].
    { rewrite Hlen. by eapply lookup_lt_Some. }
    by rewrite Hz.
  - apply lookup_ge_None in Hq. rewrite <- Hlen in Hq.
    apply lookup_ge_None in Hq. by rewrite Hq.
Qed.

Lemma queens_values (qs : list IntVar) (a : list Z) :
  (∀ i x, qs !! i = Some x → index x = i) → length a = length qs →
  (λ q, Value a (index q)) <$> qs = a.
Proof.
  intros Hidx Hlen.
  pose proof (values_of_queens qs a (λ _ x, x) Hidx Hlen) as H.
  by rewrite (imap_const id), list_fmap_id,
    (imap_const (λ q, Value a (index q))) in H.
Qed.

Lemma mapM_lookup_seq {A B} (qs : list A) (g : nat → A → B) :
  mapM (λ i : nat, q ← qs !! i; Some (g i q)) (seq 0 (length qs))
  = Some (imap g qs).
Proof.
  apply mapM_Some_2, Forall2_same_length_lookup_2.
  - by rewrite length_seq, length_imap.
  - intros i j y [-> Hi]%lookup_seq. rewrite list_lookup_imap. simpl.
    destruct (qs !! i) as [q|]; simpl; [by intros [= <-]|done].
Qed.

Lemma fmap_imap_eval {A} (a : list Z) (qs : list A) (g : nat → A → LinearExpr) :
  eval a <$> imap g qs = imap (λ i q, eval a (g i q)) qs.
Proof.
  apply list_eq. intros i. rewrite list_lookup_fmap, !list_lookup_imap.
  by destruct (qs !! i).
Qed.

Lemma imap_same {A} (a : list A) : imap (λ _ x, x) a = a.
Proof. by rewrite (imap_const id), list_fmap_id. Qed.

Lemma safe_NoDup (a : list Z) :
  safe a ↔
  NoDup a ∧ NoDup (imap (λ (i : nat) x, x + Z.of_nat i) a) ∧
  NoDup (imap (λ (i : nat) x, x - Z.of_nat i) a).
Proof.
  split.
  - intros Hs.
    assert (H : ∀ f : nat → Z → Z,
      (∀ i k x y, (i < k)%nat → a !! i = Some x → a !! k = Some y →
         f i x ≠ f k y) → NoDup (imap f a)).
    { intros f Hf. apply NoDup_alt. intros i k z.
      rewrite !list_lookup_imap.
      destruct (a !! i) as [x|] eqn:Hi; [|done].
      destruct (a !! k) as [y|] eqn:Hk; [|done]. simpl.
      intros [= <-] [= E].
      destruct (lt_eq_lt_dec i k) as [[Hlt|]|Hlt]; [|done|].
      - by destruct (Hf i k x y Hlt Hi Hk).
      - by destruct (Hf k i y x Hlt Hk Hi). }
    split; [|split].
    + rewrite <- (imap_same a) at 1.
      apply H. intros i k x y Hlt Hi Hk. by destruct (Hs i k x y Hlt Hi Hk).
    + apply H. intros i k x y Hlt Hi Hk.
      by destruct (Hs i k x y Hlt Hi Hk) as (_ & ? & _).
    + apply H. intros i k x y Hlt Hi Hk.
      by destruct (Hs i k x y Hlt Hi Hk) as (_ & _ & ?).
  - intros (H1 & H2 & H3) i k x y Hik Hi Hk.
    rewrite <- (imap_same a) in H1. split_and!.
    + apply (NoDup_imap_lookup _ a i k x y H1); [lia|done..].
    + apply (NoDup_imap_lookup _ a i k x y H2); [lia|done..].
    + apply (NoDup_imap_lookup _ a i k x y H3); [lia|done..].
Qed.

(** [main] never raises, creates one queen per column, and the solutions of
    its model are the placements without attack. *)
Lemma main_spec (board_size : Z) :
  ∃ m qs, main board_size = Some (m, qs) ∧
    length qs = Z.to_nat board_size ∧
    (∀ i q, qs !! i = Some q → index q = i) ∧
    ∀ a, feasible m a ↔
      length a = Z.to_nat board_size ∧
      Forall (λ x, 0 ≤ x ≤ board_size - 1) a ∧ safe a.
Proof.
  unfold main.
  destruct (new_int_vars 0 (board_size - 1) _ (py_range board_size) CpModel_new)
    as [qs m0] eqn:E.
  apply new_int_vars_spec in E as (V & C & Hlen & Hx). simpl in V, C.
  unfold py_range in *. rewrite length_seq in Hlen. rewrite <- Hlen.
  rewrite !mapM_lookup_seq. simpl. eexists _, qs. split; [done|].
  split; [done|].
  assert (Hidx : ∀ i q, qs !! i = Some q → index q = i).
  { intros i q Hq. by destruct (Hx i q Hq) as [-> _]. }
  split; [done|]. intros a.
  unfold feasible, add_all_different, post. simpl. rewrite V, C. simpl.
  rewrite (domain_values qs a 0 (board_size - 1)).
  2:{ apply Forall_lookup_2. intros i q Hq. by destruct (Hx i q Hq) as (_ & ? & ?). }
  rewrite safe_NoDup. unfold holds. simpl.
  assert (Hrows : eval a <$> (expr_of_var <$> qs)
                  = (λ q, Value a (index q)) <$> qs)
    by by rewrite <- list_fmap_compose.
  split.
  - intros [[Hl Hr] Hc]. split; [done|]. split; [done|].
    apply Forall_cons in Hc as [H1 Hc]. apply Forall_cons in Hc as [H2 Hc].
    apply Forall_cons in Hc as [H3 _].
    specialize (H1 (Forall_nil_2 _)). specialize (H2 (Forall_nil_2 _)).
    specialize (H3 (Forall_nil_2 _)). cbn [body holds_body] in H1, H2, H3.
    rewrite Hrows, (queens_values qs a) in H1 by done.
    rewrite fmap_imap_eval in H2, H3. simpl in H2, H3.
    rewrite (values_of_queens qs a (λ i x, x + Z.of_nat i)) in H2 by done.
    rewrite (values_of_queens qs a (λ i x, x - Z.of_nat i)) in H3 by done.
    done.
  - intros (Hl & Hr & H1 & H2 & H3). split; [done|].
    repeat constructor; intros _; cbn [body holds_body].
    + by rewrite Hrows, (queens_values qs a).
    + rewrite fmap_imap_eval. simpl.
      by rewrite (values_of_queens qs a (λ i x, x + Z.of_nat i)).
    + rewrite fmap_imap_eval. simpl.
      by rewrite (values_of_queens qs a (λ i x, x - Z.of_nat i)).
Qed.

(** Symmetries *)

Lemma safe_mirror (n : Z) (a : list Z) : safe a → safe (mirror n a).
Proof.
  intros Hs i k x' y' Hik. unfold mirror. rewrite !list_lookup_fmap.
  destruct (a !! i) as [x|] eqn:Hi; [|done].
  destruct (a !! k) as [y|] eqn:Hk; [|done]. simpl. intros [= <-] [= <-].
  destruct (Hs i k x y Hik Hi Hk) as (? & ? & ?). lia.
Qed.

Lemma safe_reverse (a : list Z) : safe a → safe (reverse a).
Proof.
  intros Hs i k x y Hik [Hi Hli]%reverse_lookup_Some [Hk Hlk]%reverse_lookup_Some.
  destruct (Hs (length a - S k)%nat (length a - S i)%nat y x) as (? & ? & ?);
    [lia|done..|].
  lia.
Qed.

(** A solution uses every row once. *)
Lemma every_row_used (n : nat) (a : list Z) :
  length a = n → Forall (λ x, 0 ≤ x ≤ Z.of_nat n - 1) a → NoDup a →
  ∀ i, (i < n)%nat → ∃ j, a !! j = Some (Z.of_nat i).
Proof.
  intros Hlen Hr Hn i Hi.
  assert (a ⊆+ Z.of_nat <$> seq 0 n) as Hsub.
  { apply NoDup_submseteq; [done|]. intros x Hx.
    pose proof (proj1 (Forall_forall _ _) Hr x Hx) as Hx'. simpl in Hx'.
    apply list_elem_of_fmap. exists (Z.to_nat x). split; [lia|].
    apply elem_of_seq. lia. }
  apply submseteq_length_Permutation in Hsub.
  2:{ rewrite length_fmap, length_seq. lia. }
  apply list_elem_of_lookup. rewrite Hsub.
  apply list_elem_of_fmap. exists i. split; [done|]. apply elem_of_seq. lia.
Qed.

(** The text of a row *)

Lemma string_app_assoc (s1 s2 s3 : string) :
  (s1 +:+ s2) +:+ s3 = s1 +:+ (s2 +:+ s3).
Proof.
  induction s1 as [|c s1 IH]; [done|].
  change (String c ((s1 +:+ s2) +:+ s3) = String c (s1 +:+ (s2 +:+ s3))).
  by f_equal.
Qed.

Lemma string_app_empty_r (s : string) : s +:+ EmptyString = s.
Proof.
  induction s as [|c s IH]; [done|].
  change (String c (s +:+ EmptyString) = String c s). by f_equal.
Qed.

Lemma board_row_cons (q : IntVar) (qs : list IntVar) a i :
  board_row (q :: qs) a i
  = (if decide (Value a (index q) = Z.of_nat i) then "Q " else "_ ")
    +:+ board_row qs a i.
Proof.
  unfold board_row. simpl.
  assert (H : ∀ qs' s,
    foldl (λ line q',
        line +:+ (if decide (Value a (index q') = Z.of_nat i) then "Q" else "_")
             +:+ " ") s qs'
    = s +:+ foldl (λ line q',
        line +:+ (if decide (Value a (index q') = Z.of_nat i) then "Q" else "_")
             +:+ " ") EmptyString qs').
  { induction qs' as [|q' qs' IH]; intros s; simpl.
    - by rewrite string_app_empty_r.
    - rewrite IH, (IH (String.append EmptyString _)). simpl.
      by rewrite string_app_assoc. }
  rewrite H. by destruct (decide _).
Qed.

Lemma board_row_blank (qs : list IntVar) a i :
  Forall (λ q, Value a (index q) ≠ Z.of_nat i) qs →
  board_row qs a i = repeated (length qs) "_ ".
Proof.
  induction 1 as [|q qs Hq _ IH]; [done|].
  rewrite board_row_cons, IH. by rewrite decide_False by done.
Qed.

Lemma board_row_queen (qs : list IntVar) a i : ∀ j,
  (j < length qs)%nat →
  (∀ j' q, qs !! j' = Some q → Value a (index q) = Z.of_nat i ↔ j' = j) →
  board_row qs a i
  = repeated j "_ " +:+ "Q " +:+ repeated (length qs - 1 - j) "_ ".
Proof.
  induction qs as [|q qs IH]; intros j Hj Hq; [simpl in Hj; lia|].
  rewrite board_row_cons. destruct j as [|j].
  - rewrite decide_True by by apply (Hq 0%nat).
    rewrite board_row_blank.
    + simpl. by rewrite !Nat.sub_0_r.
    + apply Forall_lookup_2. intros j' q' Hq' E.
      by apply (Hq (S j')) in E.
  - rewrite decide_False.
    2:{ intros E. by apply (Hq 0%nat) in E. }
    rewrite (IH j); [|simpl in Hj; lia|].
    + cbn [repeated length]. rewrite string_app_assoc.
      replace (S (length qs) - 1 - S j)%nat with (length qs - 1 - j)%nat by lia.
      done.
    + intros j' q' Hq'. rewrite (Hq (S j') q' Hq'). lia.
Qed.

(** The 8x8 model has 92 solutions. *)
Lemma queens_solutions_enumerate : enumerates model solutions.
Proof.
  split.
  - compute_done.
  - intros a. split.
    + intros Ha. rewrite queens_solutions_search.
      apply (search_all (feasible model) prune (λ _, true) queens_prune_sound);
        [done|apply in_domains, Ha|done].
    + intros Ha. by apply (proj1 (Forall_forall _ _) queens_solutions_feasible).
Qed.

(** The callback *)

Lemma queens_callback_run found : ∀ cb,
  let cb' := solve_with_callback found cb in
  printer_queens cb' = printer_queens cb ∧
  solution_count cb' = (solution_count cb + length found)%nat ∧
  printed cb'
  = printed cb ++
    imap (λ k a, ((solution_count cb + k)%nat, board (printer_queens cb) a))
      found.
Proof.
  unfold solve_with_callback.
  induction found as [|a found IH]; intros cb; simpl.
  - split; [done|]. split; [lia|]. by rewrite app_nil_r.
  - destruct (IH (on_solution_callback cb a)) as (Hq & Hc & Hp).
    rewrite Hq, Hc, Hp. simpl. split; [done|]. split; [lia|].
    rewrite <- app_assoc. simpl. rewrite Nat.add_0_r. do 2 f_equal.
    apply imap_ext. intros k a' _. simpl. f_equal. lia.
Qed.

End n_queens_model_facts.

Module n_queens_theorems.
Import n_queens n_queens_printer n_queens_facts n_queens_model_facts.

(** X12: for every board size, [main] of [n-queens.py] builds its model
    without raising, with one queen variable per column, and the solutions
    of the model are exactly the placements with one queen per column, on
    rows [0 .. board_size - 1], in which no two queens share a row or a
    diagonal. *)
Theorem queens_solutions_are_safe_placements (board_size : Z) :
  ∃ m qs, main board_size = Some (m, qs) ∧
    length qs = Z.to_nat board_size ∧
    ∀ a, feasible m a ↔
      length a = Z.to_nat board_size ∧
      Forall (λ x, 0 ≤ x ≤ board_size - 1) a ∧ safe a.
Proof.
  destruct (main_spec board_size) as (m & qs & Hmain & Hlen & _ & Hfeas).
  exists m, qs. by split_and!.
Qed.

(** X13: the small boards.  For a board size of 0 or less the model has no
    variable and the empty placement is its only solution; the board of
    size 1 has the single solution [[0]]; the boards of size 2 and 3 have no
    solution. *)
Theorem queens_small_boards (board_size : Z) m qs :
  main board_size = Some (m, qs) →
  (board_size ≤ 0 → qs = [] ∧ ∀ a, feasible m a ↔ a = []) ∧
  (board_size = 1 → ∀ a, feasible m a ↔ a = [0]) ∧
  (board_size = 2 ∨ board_size = 3 → ∀ a, ¬ feasible m a).
Proof.
  intros Hmain.
  destruct (main_spec board_size) as (m' & qs' & Hmain' & Hlen & _ & Hfeas).
  rewrite Hmain in Hmain'. injection Hmain' as <- <-.
  split; [|split].
  - intros Hle. replace (Z.to_nat board_size) with 0%nat in * by lia.
    split; [by destruct qs|]. intros a. rewrite Hfeas. split.
    + intros [Ha _]. by destruct a.
    + intros ->. split; [done|]. split; [constructor|].
      intros i k x y _ Hi. done.
  - intros ->. intros a. rewrite Hfeas. split.
    + intros (Ha & Hr & _). destruct a as [|x [|? ?]]; [done| |done].
      apply Forall_cons in Hr as [Hx _]. f_equal. lia.
    + intros ->. split; [done|]. split; [repeat constructor; lia|].
      intros i k x y Hik Hi Hk. apply lookup_lt_Some in Hk. simpl in Hk. lia.
  - intros [-> | ->] a (Ha & Hr & Hs)%Hfeas.
    + destruct a as [|x [|y [|? ?]]]; try done.
      apply Forall_cons in Hr as [Hx Hr]. apply Forall_cons in Hr as [Hy _].
      destruct (Hs 0%nat 1%nat x y) as (? & ? & ?); [lia|done..|]. lia.
    + destruct a as [|x [|y [|z [|? ?]]]]; try done.
      apply Forall_cons in Hr as [Hx Hr]. apply Forall_cons in Hr as [Hy Hr].
      apply Forall_cons in Hr as [Hz _].
      destruct (Hs 0%nat 1%nat x y) as (? & ? & ?); [lia|done..|].
      destruct (Hs 0%nat 2%nat x z) as (? & ? & ?); [lia|done..|].
      destruct (Hs 1%nat 2%nat y z) as (? & ? & ?); [lia|done..|]. lia.
Qed.

Lemma queens_small_boards_witness :
  ∃ m qs, main 3 = Some (m, qs) ∧ ∀ a, ¬ feasible m a.
Proof.
  destruct (main 3) as [[m qs]|] eqn:E; [|by vm_compute in E].
  exists m, qs. split; [reflexivity|].
  apply (queens_small_boards 3 m qs E). by right.
Defined.

(** X14: the solutions of the model of any board size are closed under
    the two reflections of the board: turning it upside down (row [x]
    becomes row [board_size - 1 - x]) and turning it left to right (the
    columns in reverse order). *)
Theorem queens_solutions_reflect (board_size : Z) m qs a :
  main board_size = Some (m, qs) → feasible m a →
  feasible m (mirror board_size a) ∧ feasible m (reverse a).
Proof.
  intros Hmain.
  destruct (main_spec board_size) as (m' & qs' & Hmain' & Hlen & _ & Hfeas).
  rewrite Hmain in Hmain'. injection Hmain' as <- <-.
  rewrite !Hfeas. intros (Ha & Hr & Hs). split.
  - unfold mirror. rewrite length_fmap. split; [done|].
    split; [|by apply safe_mirror].
    apply Forall_fmap. eapply Forall_impl; [exact Hr|].
    intros x Hx. simpl in *. lia.
  - rewrite length_reverse. split; [done|].
    split; [by rewrite Forall_reverse|by apply safe_reverse].
Qed.

Lemma queens_solutions_reflect_witness :
  main 8 = Some (model, queens) ∧
  feasible model (mirror 8 [0; 4; 7; 5; 2; 6; 1; 3]) ∧
  feasible model (reverse [0; 4; 7; 5; 2; 6; 1; 3]).
Proof.
  split; [reflexivity|].
  apply (queens_solutions_reflect 8 model queens [0; 4; 7; 5; 2; 6; 1; 3]
           eq_refl queens_accepts).
Defined.

(** X15: the board printed for a solution has one line per row, and the
    line of row [i] shows exactly one [Q], in the column [j] whose queen
    stands on that row: [j] times ["_ "], then ["Q "], then ["_ "] up to the
    width of the board. *)
Theorem board_shows_one_queen_per_row (board_size : Z) m qs a :
  main board_size = Some (m, qs) → feasible m a →
  length (board qs a) = Z.to_nat board_size ∧
  ∀ i, (i < Z.to_nat board_size)%nat →
    ∃ j, a !! j = Some (Z.of_nat i) ∧
      (∀ j', a !! j' = Some (Z.of_nat i) → j' = j) ∧
      board qs a !! i
      = Some (repeated j "_ " +:+ "Q "
              +:+ repeated (Z.to_nat board_size - 1 - j) "_ ").
Proof.
  intros Hmain.
  destruct (main_spec board_size) as (m' & qs' & Hmain' & Hlen & Hidx & Hfeas).
  rewrite Hmain in Hmain'. injection Hmain' as <- <-.
  intros (Ha & Hr & Hs)%Hfeas.
  pose proof (proj1 (safe_NoDup a) Hs) as (Hn & _ & _).
  unfold board. rewrite length_fmap, length_seq. split; [done|].
  intros i Hi.
  assert (Hr' : Forall (λ x, 0 ≤ x ≤ Z.of_nat (Z.to_nat board_size) - 1) a).
  { eapply Forall_impl; [exact Hr|]. intros x Hx. simpl in *. lia. }
  destruct (every_row_used (Z.to_nat board_size) a Ha Hr' Hn i Hi) as [j Hj].
  assert (Huniq : ∀ j', a !! j' = Some (Z.of_nat i) → j' = j)
    by (intros j' Hj'; by apply (NoDup_lookup a j' j (Z.of_nat i))).
  exists j. split; [done|]. split; [done|].
  rewrite list_lookup_fmap, lookup_seq_lt by lia. simpl. f_equal.
  rewrite <- Hlen. apply board_row_queen.
  - rewrite Hlen, <- Ha. by eapply lookup_lt_Some.
  - intros j' q Hq. rewrite (Hidx j' q Hq). unfold Value.
    destruct (lookup_lt_is_Some_2 a j') as [x Hx].
    { rewrite Ha, <- Hlen. by eapply lookup_lt_Some. }
    rewrite Hx. simpl. split.
    + intros ->. by apply Huniq.
    + intros ->. congruence.
Qed.

Lemma board_shows_one_queen_per_row_witness :
  main 8 = Some (model, queens) ∧
  length (board queens [0; 4; 7; 5; 2; 6; 1; 3]) = 8%nat.
Proof.
  split; [reflexivity|].
  apply (board_shows_one_queen_per_row 8 model queens [0; 4; 7; 5; 2; 6; 1; 3]
           eq_refl queens_accepts).
Defined.

(** X16: the printer of [n-queens.py] numbers its boards from 0, since the
    header is printed before the counter is incremented: on a stream of
    [n] solutions the headers show [0 .. n - 1], the boards are those of
    the solutions in stream order, and the final count is [n].  On a
    stream that lists every solution of the 8x8 model once, the last header
    shows 91 and the count printed at the end is 92. *)
Theorem boards_are_numbered_from_zero (qs : list IntVar) (found : list (list Z)) :
  let cb := solve_with_callback found (NQueenSolutionPrinter_init qs) in
  solution_count cb = length found ∧
  printed cb = imap (λ k a, (k, board qs a)) found ∧
  (enumerates model found → qs = queens →
   solution_count cb = 92%nat ∧
   ∃ b, last (printed cb) = Some (91%nat, b)).
Proof.
  destruct (queens_callback_run found (NQueenSolutionPrinter_init qs))
    as (_ & Hc & Hp). simpl in Hc, Hp.
  cbv zeta. split; [done|]. split; [done|].
  intros Henum ->.
  assert (length found = 92%nat) as Hlen.
  { by rewrite (enumerates_length model _ _ Henum queens_solutions_enumerate). }
  split; [by rewrite Hc|]. rewrite Hp, last_lookup, length_imap, Hlen. simpl.
  rewrite list_lookup_imap.
  destruct (lookup_lt_is_Some_2 found 91) as [a ->]; [lia|]. by eexists.
Qed.

Lemma boards_are_numbered_from_zero_witness :
  enumerates model solutions ∧
  solution_count
    (solve_with_callback solutions (NQueenSolutionPrinter_init queens))
  = 92%nat.
Proof.
  split; [apply queens_solutions_enumerate|].
  destruct (boards_are_numbered_from_zero queens solutions) as (_ & _ & H).
  apply (H queens_solutions_enumerate eq_refl).
Defined.

End n_queens_theorems.

(** ** Enumeration through a callback with a limit *)

Module sat_cp_printer_facts.
Import sat_cp_printer.

(** The number of callbacks that a printer still waits for. *)
Lemma printer_callback_run found : ∀ cb,
  stopped cb = false →
  let cb' := solve_with_callback found cb in
  let n := Nat.min (length found)
             (Z.to_nat (Z.max 1 (limit cb - Z.of_nat (solution_count cb)))) in
  printer_variables cb' = printer_variables cb ∧ limit cb' = limit cb ∧
  solution_count cb' = (solution_count cb + n)%nat ∧
  solutions cb'
  = solutions cb
    ++ take n ((λ a, (λ var, Value a (index var)) <$> printer_variables cb)
               <$> found) ∧
  length (lines cb')
  = (length (lines cb) + n * (length (printer_variables cb) + 2))%nat ∧
  (stopped cb' = true ↔
   found ≠ [] ∧
   Z.max 1 (limit cb - Z.of_nat (solution_count cb)) ≤ Z.of_nat (length found)).
Proof.
  induction found as [|a found IH]; intros cb Hs; cbv zeta.
  - simpl. rewrite app_nil_r, Hs. split_and!; try done; [lia..|].
    split; [done|]. by intros [? _].
  - cbn [solve_with_callback]. cbv zeta.
    set (cb1 := on_solution_callback cb a).
    assert (H1 : printer_variables cb1 = printer_variables cb ∧
                 limit cb1 = limit cb ∧
                 solution_count cb1 = S (solution_count cb) ∧
                 solutions cb1
                 = solutions cb
                   ++ [(λ var, Value a (index var)) <$> printer_variables cb] ∧
                 length (lines cb1)
                 = (length (lines cb) + (length (printer_variables cb) + 2))%nat ∧
                 (stopped cb1 = true ↔
                  limit cb ≤ Z.of_nat (S (solution_count cb)))).
    { unfold cb1, on_solution_callback.
      cbn [printer_variables limit solution_count solutions lines stopped].
      split; [done|]. split; [done|]. split; [lia|]. split; [done|].
      split; [rewrite !length_app, length_imap; simpl; lia|].
      replace (solution_count cb + 1)%nat with (S (solution_count cb)) by lia.
      destruct (decide _); [done|]. rewrite Hs. split; [done|lia]. }
    destruct H1 as (Hv1 & Hl1 & Hc1 & Hsol1 & Hlines1 & Hst1).
    destruct (stopped cb1) eqn:Hstop.
    + pose proof (proj1 Hst1 eq_refl) as Hle.
      replace (Z.to_nat (Z.max 1 (limit cb - Z.of_nat (solution_count cb))))
        with 1%nat by lia.
      cbn [length]. replace (Nat.min (S (length found)) 1) with 1%nat by lia.
      rewrite Hc1, Hsol1, Hlines1. cbn [fmap list_fmap take].
      split_and!; try done; [lia..|]. split; [|done]. intros _.
      split; [done|]. cbn [length]. lia.
    + assert (Hgt : Z.of_nat (S (solution_count cb)) < limit cb).
      { destruct (decide (limit cb ≤ Z.of_nat (S (solution_count cb)))) as [H|]; [|lia].
        apply Hst1 in H. congruence. }
      destruct (IH cb1 Hstop) as (Hv & Hl & Hc & Hsol & Hlines & Hst).
      rewrite Hv, Hl, Hc, Hsol, Hlines, Hst, Hv1, Hl1, Hc1, Hsol1, Hlines1.
      set (k := Z.to_nat (Z.max 1 (limit cb - Z.of_nat (S (solution_count cb))))).
      replace (Z.to_nat (Z.max 1 (limit cb - Z.of_nat (solution_count cb))))
        with (S k) by lia.
      cbn [length]. replace (Nat.min (S (length found)) (S k))
        with (S (Nat.min (length found) k)) by lia.
      cbn [fmap list_fmap take]. rewrite <- app_assoc.
      split_and!; try done; [lia..|]. cbn [length]. split.
      * intros [_ H]. split; [done|lia].
      * intros [_ H]. split; [|lia]. intros ->. simpl in *. lia.
Qed.

Lemma program_model_eq :
  program_model = (sat_cp.model, sat_cp.variables).
Proof. reflexivity. Qed.

Lemma values_of_solution a :
  feasible sat_cp.model a →
  (λ var, Value a (index var)) <$> sat_cp.variables = a.
Proof.
  intros [Hd _]. unfold sat_cp.model in Hd. cbn [variables] in Hd.
  split_solution Hd. reflexivity.
Qed.

Lemma printed_solutions (found : list (list Z)) n :
  enumerates sat_cp.model found →
  let l := take n ((λ a, (λ var, Value a (index var)) <$> sat_cp.variables)
                   <$> found) in
  l = take n found ∧ NoDup l ∧ ∀ s, s ∈ l → feasible sat_cp.model s.
Proof.
  intros [Hn Hfeas]. cbv zeta.
  assert (((λ a, (λ var, Value a (index var)) <$> sat_cp.variables) <$> found)
          = found) as ->.
  { rewrite <- (list_fmap_id found) at 2. apply list_fmap_ext.
    intros i a Ha. apply values_of_solution, Hfeas.
    by eapply list_elem_of_lookup_2. }
  split; [done|]. split.
  - eapply sublist_NoDup; [exact Hn|apply sublist_take].
  - intros s Hs. apply Hfeas. eapply elem_of_sublist; [exact Hs|apply sublist_take].
Qed.

Lemma length_enumeration (found : list (list Z)) :
  enumerates sat_cp.model found → length found = 18%nat.
Proof.
  intros H.
  by rewrite (enumerates_length _ _ _ H sat_cp_facts.program_solutions_enumerate).
Qed.

End sat_cp_printer_facts.

Module sat_cp_printer_theorems.
Import sat_cp_printer sat_cp_printer_facts.

(** X17: the printer of [sat-cp.py] on a stream of solutions: it handles
    the first [min (length of the stream) (max 1 limit)] solutions, collects
    their values for the tracked variables in stream order, prints
    [2 + number of variables] lines for each, and has called [StopSearch]
    exactly when that many solutions were in the stream.  A limit of 0 or
    less behaves as a limit of 1: the test comes after the first solution
    has been counted. *)
Theorem printer_stops_at_limit (variables : list IntVar) (limit : Z)
    (found : list (list Z)) :
  let cb := solve_with_callback found
              (VarArraySolutionPrinter_init variables limit) in
  let n := Nat.min (length found) (Z.to_nat (Z.max 1 limit)) in
  solution_count cb = n ∧
  solutions cb
  = take n ((λ a, (λ var, Value a (index var)) <$> variables) <$> found) ∧
  length (solutions cb) = solution_count cb ∧
  length (lines cb) = (n * (length variables + 2))%nat ∧
  (stopped cb = true ↔
   found ≠ [] ∧ Z.max 1 limit ≤ Z.of_nat (length found)).
Proof.
  destruct (printer_callback_run found
              (VarArraySolutionPrinter_init variables limit) eq_refl)
    as (_ & _ & Hc & Hsol & Hlines & Hst).
  cbn [VarArraySolutionPrinter_init printer_variables sat_cp_printer.limit
       solution_count solutions lines] in *.
  rewrite Z.sub_0_r in *. cbv zeta. rewrite Hc, Hsol, Hlines. cbn [app].
  split; [done|]. split; [done|]. split; [|split; [done|exact Hst]].
  rewrite length_take, length_fmap. simpl. lia.
Qed.

(** X18: [simple_sat_program_multiple_solutions], on any stream that lists
    every solution of its model once (there are 18): the printer stops the
    search after 10 solutions, which are pairwise distinct solutions of the
    model (so [x] differs from [y] in each), and 50 lines are printed. *)
Theorem callback_program_finds_ten (found : list (list Z)) :
  enumerates sat_cp.model found →
  let cb := simple_sat_program_multiple_solutions found in
  solution_count cb = 10%nat ∧ solutions cb = take 10 found ∧
  NoDup (solutions cb) ∧
  (∀ s, s ∈ solutions cb →
     feasible sat_cp.model s ∧ ∃ x y z, s = [x; y; z] ∧ x ≠ y) ∧
  stopped cb = true ∧ length (lines cb) = 50%nat.
Proof.
  intros Henum. pose proof (length_enumeration found Henum) as Hlen.
  unfold simple_sat_program_multiple_solutions. rewrite program_model_eq.
  destruct (printer_callback_run found
              (VarArraySolutionPrinter_init sat_cp.variables 10) eq_refl)
    as (_ & _ & Hc & Hsol & Hlines & Hst).
  cbn [VarArraySolutionPrinter_init printer_variables sat_cp_printer.limit
       solution_count solutions lines] in *.
  rewrite Hlen in *.
  replace (Nat.min 18 (Z.to_nat (Z.max 1 (10 - Z.of_nat 0)))) with 10%nat
    in * by lia.
  destruct (printed_solutions found 10 Henum) as (Heq & Hnd & Hfeas).
  cbv zeta in *. rewrite Hc, Hsol, Hlines. cbn [app]. rewrite Heq in *.
  split; [done|]. split; [done|]. split; [done|]. split; [|split].
  - intros s Hs. pose proof (Hfeas s Hs) as Hf. split; [done|].
    destruct Hf as [Hd Hcs]. unfold sat_cp.model in Hd, Hcs.
    cbn [variables constraints] in Hd, Hcs. split_solution Hd.
    apply Forall_cons in Hcs as [Hne _]. specialize (Hne (Forall_nil_2 _)).
    eexists _, _, _. split; [done|]. exact Hne.
  - apply Hst. split; [|lia]. intros ->. done.
  - reflexivity.
Qed.

Lemma callback_program_finds_ten_witness :
  enumerates sat_cp.model sat_cp.solutions ∧
  solution_count (simple_sat_program_multiple_solutions sat_cp.solutions)
  = 10%nat.
Proof.
  split; [apply sat_cp_facts.program_solutions_enumerate|].
  apply (callback_program_finds_ten sat_cp.solutions
           sat_cp_facts.program_solutions_enumerate).
Defined.

(** X19: the two enumerations of [sat-cp.py] on their common model (18
    solutions), for any limit: with a positive limit the callback printer
    and the blocking loop emit the same number of solutions, the smaller of
    the limit and 18; with a limit of 0 or less the blocking loop emits
    nothing (its [range] is empty) while the callback printer still emits
    one solution. *)
Theorem strategies_agree_on_positive_limits (solve : CpSolver)
    (found : list (list Z)) (limit : Z) :
  sound solve → complete solve → enumerates sat_cp.model found →
  let A := solve_with_callback found
             (VarArraySolutionPrinter_init sat_cp.variables limit) in
  let B := sat_cp.enumerate_solutions solve sat_cp.model sat_cp.variables
             limit in
  (0 < limit →
   solution_count A = Nat.min 18 (Z.to_nat limit) ∧
   sat_cp.solution_count B = Nat.min 18 (Z.to_nat limit)) ∧
  (limit ≤ 0 → solution_count A = 1%nat ∧ sat_cp.solution_count B = 0%nat).
Proof.
  intros Hsound Hcomplete Henum. pose proof (length_enumeration found Henum) as Hlen.
  destruct (printer_callback_run found
              (VarArraySolutionPrinter_init sat_cp.variables limit) eq_refl)
    as (_ & _ & Hc & _).
  cbn [VarArraySolutionPrinter_init printer_variables sat_cp_printer.limit
       solution_count] in Hc.
  rewrite Hlen, Z.sub_0_r in Hc. cbv zeta.
  assert (Hwf : well_formed sat_cp.model) by compute_done.
  assert (Htr : sat_cp.tracked sat_cp.model sat_cp.variables) by compute_done.
  pose proof (sat_cp_facts.iterate_complete solve sat_cp.model sat_cp.variables
    Hsound Htr sat_cp.solutions Hcomplete
    (proj1 sat_cp_facts.program_solutions_enumerate)
    sat_cp_facts.region_solutions
    (py_range limit) (sat_cp.mk_run sat_cp.model 0 [] None false)
    (sat_cp_facts.enumeration_initial_inv _ _ Hwf) eq_refl) as [H1 H2].
  unfold py_range in H1, H2. rewrite length_seq in H1, H2.
  change (length sat_cp.solutions) with 18%nat in H1, H2.
  cbn [sat_cp.printed sat_cp.solution_count length] in H1, H2.
  fold (py_range limit) in H1, H2.
  change (sat_cp.iterate solve sat_cp.variables (py_range limit)
            (sat_cp.mk_run sat_cp.model 0 [] None false))
    with (sat_cp.enumerate_solutions solve sat_cp.model sat_cp.variables limit)
    in H1, H2.
  split.
  - intros Hpos. split; [rewrite Hc; lia|].
    destruct (decide (Z.to_nat limit ≤ 18)%nat) as [Hle|Hgt].
    + destruct (H1 Hle) as [-> _]. lia.
    + destruct H2 as (-> & _); lia.
  - intros Hle. split; [rewrite Hc; lia|].
    destruct H1 as [-> _]; lia.
Qed.

Lemma strategies_agree_on_positive_limits_witness :
  sound dfs_solve ∧ complete dfs_solve ∧
  enumerates sat_cp.model sat_cp.solutions ∧
  solution_count
    (solve_with_callback sat_cp.solutions
       (VarArraySolutionPrinter_init sat_cp.variables 10))
  = Nat.min 18 (Z.to_nat 10).
Proof.
  split; [apply sat_cp_facts.dfs_solve_sound|].
  split; [apply sat_cp_facts.dfs_solve_complete|].
  split; [apply sat_cp_facts.program_solutions_enumerate|].
  apply (strategies_agree_on_positive_limits dfs_solve sat_cp.solutions 10
           sat_cp_facts.dfs_solve_sound sat_cp_facts.dfs_solve_complete
           sat_cp_facts.program_solutions_enumerate).
  lia.
Defined.

End sat_cp_printer_theorems.

(** ** The size of a model with blocking constraints *)

Module sat_cp_growth.
Import sat_cp.
Local Abbreviation variables := cp_model.variables (only parsing).

Lemma exclude_vars_grow i a vs : ∀ m excl m' excl',
  foldl (exclude_var i a) (m, excl) vs = (m', excl') →
  ∃ bs cs,
    variables m' = variables m ++ bs ∧ length bs = length vs ∧
    Forall (λ b, lb b = 0 ∧ ub b = 1) bs ∧
    constraints m' = constraints m ++ cs ∧
    length cs = (2 * length vs)%nat ∧
    objective m' = objective m.
Proof.
  induction vs as [|v vs IH]; intros m excl m' excl'.
  - intros [= <- <-]. exists [], []. rewrite !app_nil_r. split_and!; done.
  - cbn [foldl]. unfold exclude_var at 2.
    unfold new_bool_var, new_int_var, add_only_enforce_if, post.
    cbn [variables constraints objective].
    intros H. apply IH in H as (bs & cs & Hv & Hlb & Hdom & Hc & Hlc & Ho).
    cbn [variables constraints objective] in Hv, Hc, Ho.
    eexists (_ :: bs), (_ :: _ :: cs).
    rewrite Hv, Hc, <- !app_assoc. cbn [app length].
    split; [done|]. split; [by rewrite Hlb|].
    split; [by constructor|]. split; [done|]. split; [lia|done].
Qed.

Lemma exclude_solution_grow i a vs m :
  ∃ bs cs,
    variables (exclude_solution i a vs m) = variables m ++ bs ∧
    length bs = length vs ∧ Forall (λ b, lb b = 0 ∧ ub b = 1) bs ∧
    constraints (exclude_solution i a vs m) = constraints m ++ cs ∧
    length cs = (2 * length vs + 1)%nat ∧
    objective (exclude_solution i a vs m) = objective m.
Proof.
  unfold exclude_solution.
  destruct (foldl (exclude_var i a) (m, []) vs) as [m' excl] eqn:E.
  apply exclude_vars_grow in E as (bs & cs & Hv & Hlb & Hdom & Hc & Hlc & Ho).
  exists bs, (cs ++ [mkConstraint (BoolOr ((λ c, Not (lit c)) <$> excl)) []]).
  unfold add_bool_or, post. cbn [variables constraints objective].
  rewrite Hv, Hc, <- app_assoc, length_app. simpl.
  split_and!; try done. lia.
Qed.

Lemma iterate_grow solve vs rounds : ∀ r,
  let r' := iterate solve vs rounds r in
  ∃ bs cs,
    variables (r_model r') = variables (r_model r) ++ bs ∧
    length bs = ((solution_count r' - solution_count r) * length vs)%nat ∧
    Forall (λ b, lb b = 0 ∧ ub b = 1) bs ∧
    constraints (r_model r') = constraints (r_model r) ++ cs ∧
    length cs
    = ((solution_count r' - solution_count r) * (2 * length vs + 1))%nat ∧
    objective (r_model r') = objective (r_model r) ∧
    (solution_count r ≤ solution_count r')%nat.
Proof.
  induction rounds as [|i rounds IH]; intros r; cbv zeta.
  - exists [], []. simpl. rewrite !app_nil_r, Nat.sub_diag.
    split_and!; done.
  - cbn [iterate]. cbv zeta. case_bool_decide as Hst.
    + exists [], []. simpl. rewrite !app_nil_r, Nat.sub_diag.
      split_and!; done.
    + set (r1 := mk_run _ _ _ _ _).
      destruct (IH r1) as (bs & cs & Hv & Hlb & Hdom & Hc & Hlc & Ho & Hle).
      destruct (exclude_solution_grow i (solution (solve (r_model r))) vs
                  (r_model r)) as (bs1 & cs1 & Hv1 & Hlb1 & Hdom1 & Hc1 & Hlc1 & Ho1).
      subst r1. cbn [r_model solution_count] in Hv, Hlb, Hc, Hlc, Ho, Hle.
      exists (bs1 ++ bs), (cs1 ++ cs).
      rewrite Hv, Hc, Hv1, Hc1, Ho, Ho1, <- !app_assoc, !length_app,
        Hlb, Hlb1, Hlc, Hlc1.
      split; [done|]. split; [nia|]. split; [by apply Forall_app|].
      split; [done|]. split; [nia|]. split; [done|lia].
Qed.

(** X20: whatever the solver answers, the blocking loop of [sat-cp.py]
    only adds to the model: the variables and the constraints of the
    initial model stay at the head of their lists and the objective is
    untouched; each emitted solution adds one Boolean variable per tracked
    variable and two reified comparisons per tracked variable plus one
    disjunction. *)
Theorem blocking_only_adds (solve : CpSolver) (m : CpModel)
    (vs : list IntVar) (max_solutions : Z) :
  let r := enumerate_solutions solve m vs max_solutions in
  ∃ bs cs,
    variables (r_model r) = variables m ++ bs ∧
    constraints (r_model r) = constraints m ++ cs ∧
    objective (r_model r) = objective m ∧
    Forall (λ b, lb b = 0 ∧ ub b = 1) bs ∧
    length bs = (solution_count r * length vs)%nat ∧
    length cs = (solution_count r * (2 * length vs + 1))%nat.
Proof.
  cbv zeta. unfold enumerate_solutions.
  destruct (iterate_grow solve vs (py_range max_solutions)
              (mk_run m 0 [] None false))
    as (bs & cs & Hv & Hlb & Hdom & Hc & Hlc & Ho & _).
  cbn [r_model solution_count] in *. rewrite Nat.sub_0_r in *.
  exists bs, cs. by split_and!.
Qed.

End sat_cp_growth.

(** ** Rosters for any sizes *)

Module nurse_shift_model_facts.
Import nurse_shift nurse_shift_model nurse_shift_facts.

(** Nested loops as one loop over the pairs or triples. *)
Lemma foldl_bind {A B St} (g : St → B → St) (h : A → list B) (l : list A) :
  ∀ st, foldl g st (l ≫= h) = foldl (λ st x, foldl g st (h x)) st l.
Proof.
  induction l as [|x l IH]; intros st; [done|].
  change ((x :: l) ≫= h) with (h x ++ (l ≫= h)).
  by rewrite foldl_app, IH.
Qed.

Lemma foldl_equal {A St} (f g : St → A → St) (l : list A) :
  (∀ st x, f st x = g st x) → ∀ st, foldl f st l = foldl g st l.
Proof.
  intros H. induction l as [|x l IH]; intros st; [done|].
  simpl. by rewrite H, IH.
Qed.

Lemma foldl_triples {St} (g : nat → nat → St → nat → St) (f : St → key → St)
    N S D st :
  (∀ n d st s, g n d st s = f st (n, d, s)) →
  foldl (λ st n, foldl (λ st d, foldl (g n d) st (py_range S))
                   st (py_range D)) st (py_range N)
  = foldl f st (triples N S D).
Proof.
  intros Hg. unfold triples. rewrite foldl_bind. apply foldl_equal. intros st1 n.
  rewrite foldl_bind. apply foldl_equal. intros st2 d.
  rewrite foldl_bind. apply foldl_equal. intros st3 s. apply Hg.
Qed.

Lemma foldl_pairs {St} (f : St → nat * nat → St) R C st :
  foldl (λ st x, foldl (λ st y, f st (x, y)) st (py_range C)) st (py_range R)
  = foldl f st (pairs R C).
Proof.
  unfold pairs. rewrite foldl_bind. apply foldl_equal. intros st1 x.
  rewrite foldl_bind. by apply foldl_equal.
Qed.

Lemma foldl_inv {A St} (f : St → A → St) (I : nat → St → Prop) (l : list A) :
  ∀ st, I 0%nat st →
  (∀ i x st, l !! i = Some x → I i st → I (S i) (f st x)) →
  I (length l) (foldl f st l).
Proof.
  revert I. induction l as [|x l IH]; intros I st H0 Hstep; [done|].
  simpl. apply (IH (λ i, I (S i))).
  - by apply (Hstep 0%nat).
  - intros i. apply (Hstep (S i)).
Qed.

(** Positions in the lists of pairs and triples. *)
Lemma lookup_bind_const {A C} (h : A → list C) (B : nat) (l : list A) :
  (∀ x, length (h x) = B) →
  ∀ i j x, l !! i = Some x → (j < B)%nat →
  (l ≫= h) !! (i * B + j)%nat = h x !! j.
Proof.
  intros Hh. induction l as [|y l IH]; intros i j x Hi Hj; [done|].
  change ((y :: l) ≫= h) with (h y ++ (l ≫= h)).
  destruct i as [|i]; simpl in Hi.
  - injection Hi as ->. rewrite lookup_app_l; [done|]. rewrite Hh. lia.
  - rewrite lookup_app_r by (rewrite Hh; lia).
    rewrite Hh. replace (S i * B + j - B)%nat with (i * B + j)%nat by lia.
    by apply IH.
Qed.

Lemma py_range_lookup n i : i ∈ py_range n → py_range n !! i = Some i.
Proof.
  unfold py_range. intros Hi%elem_of_seq. apply lookup_seq. lia.
Qed.

Lemma elem_of_py_range n i : i ∈ py_range n ↔ (i < Z.to_nat n)%nat.
Proof. unfold py_range. rewrite elem_of_seq. lia. Qed.

Lemma length_py_range n : length (py_range n) = Z.to_nat n.
Proof. apply length_seq. Qed.

Lemma length_row {C} (f : nat → C) S :
  length (py_range S ≫= λ s, [f s]) = Z.to_nat S.
Proof.
  rewrite (sat_cp_facts.length_bind_const _ 1%nat) by done.
  rewrite length_py_range. lia.
Qed.

Lemma length_grid {C} (f : nat → nat → C) R S :
  length (py_range R ≫= λ x, py_range S ≫= λ y, [f x y])
  = (Z.to_nat R * Z.to_nat S)%nat.
Proof.
  rewrite (sat_cp_facts.length_bind_const _ (Z.to_nat S)).
  - by rewrite length_py_range.
  - intros x. apply length_row.
Qed.

Lemma grid_lookup {C} (f : nat → nat → C) R S x y :
  x ∈ py_range R → y ∈ py_range S →
  (py_range R ≫= λ x, py_range S ≫= λ y, [f x y]) !! (x * Z.to_nat S + y)%nat
  = Some (f x y).
Proof.
  intros Hx Hy. pose proof (proj1 (elem_of_py_range _ _) Hy).
  rewrite (lookup_bind_const _ (Z.to_nat S) _ (λ x, length_row (f x) S)
             x y x (py_range_lookup _ _ Hx)) by done.
  replace y with (y * 1 + 0)%nat at 1 by lia.
  by rewrite (lookup_bind_const (λ y, [f x y]) 1%nat _ (λ _, eq_refl)
                y 0%nat y (py_range_lookup _ _ Hy)) by lia.
Qed.

Lemma length_pairs R C :
  length (pairs R C) = (Z.to_nat R * Z.to_nat C)%nat.
Proof. apply length_grid. Qed.

Lemma pairs_lookup R C x y :
  x ∈ py_range R → y ∈ py_range C →
  pairs R C !! (x * Z.to_nat C + y)%nat = Some (x, y).
Proof. apply (grid_lookup pair). Qed.

Lemma length_triples N S D :
  length (triples N S D) = (Z.to_nat N * Z.to_nat D * Z.to_nat S)%nat.
Proof.
  unfold triples.
  rewrite (sat_cp_facts.length_bind_const _ (Z.to_nat D * Z.to_nat S)%nat).
  - rewrite length_py_range. lia.
  - intros n. apply length_grid.
Qed.

Lemma triples_lookup N S D n d s :
  n ∈ py_range N → d ∈ py_range D → s ∈ py_range S →
  triples N S D !! slot_of S D n d s = Some (n, d, s).
Proof.
  intros Hn Hd Hs. unfold triples, slot_of.
  pose proof (proj1 (elem_of_py_range _ _) Hd).
  pose proof (proj1 (elem_of_py_range _ _) Hs).
  replace ((n * Z.to_nat D + d) * Z.to_nat S + s)%nat
    with (n * (Z.to_nat D * Z.to_nat S) + (d * Z.to_nat S + s))%nat by lia.
  rewrite (lookup_bind_const _ (Z.to_nat D * Z.to_nat S) _
             (λ n, length_grid (λ d s, (n, d, s)) D S)
             n _ n (py_range_lookup _ _ Hn)) by nia.
  by apply (grid_lookup (λ d s, (n, d, s))).
Qed.

Lemma elem_of_triples N S D n d s :
  (n, d, s) ∈ triples N S D
  ↔ n ∈ py_range N ∧ d ∈ py_range D ∧ s ∈ py_range S.
Proof.
  unfold triples. rewrite list_elem_of_bind. split.
  - intros (n' & (d' & (s' & Hk%list_elem_of_singleton & Hs)%list_elem_of_bind
                  & Hd)%list_elem_of_bind & Hn).
    by simplify_eq.
  - intros (Hn & Hd & Hs). exists n. split; [|done].
    apply list_elem_of_bind. exists d. split; [|done].
    apply list_elem_of_bind. exists s. split; [|done].
    by apply list_elem_of_singleton.
Qed.

Lemma elem_of_pairs R C x y :
  (x, y) ∈ pairs R C ↔ x ∈ py_range R ∧ y ∈ py_range C.
Proof.
  unfold pairs. rewrite list_elem_of_bind. split.
  - intros (x' & (y' & Hk%list_elem_of_singleton & Hy)%list_elem_of_bind & Hx).
    by simplify_eq.
  - intros (Hx & Hy). exists x. split; [|done].
    apply list_elem_of_bind. exists y. split; [|done].
    by apply list_elem_of_singleton.
Qed.

Lemma NoDup_triples N S D : NoDup (triples N S D).
Proof.
  unfold triples. apply NoDup_bind.
  - intros n1 n2 k _ _
      (d1 & (s1 & ->%list_elem_of_singleton & _)%list_elem_of_bind & _)%list_elem_of_bind
      (d2 & (s2 & Hk%list_elem_of_singleton & _)%list_elem_of_bind & _)%list_elem_of_bind.
    by simplify_eq.
  - intros n _. apply NoDup_bind.
    + intros d1 d2 k _ _ (s1 & ->%list_elem_of_singleton & _)%list_elem_of_bind
        (s2 & Hk%list_elem_of_singleton & _)%list_elem_of_bind.
      by simplify_eq.
    + intros d _. apply NoDup_bind.
      * intros s1 s2 k _ _ ->%list_elem_of_singleton Hk%list_elem_of_singleton.
        by simplify_eq.
      * intros. apply NoDup_singleton.
      * apply NoDup_seq.
    + apply NoDup_seq.
  - apply NoDup_seq.
Qed.

(** The creation loop: the variables of the model are the keys in loop
    order, and [shifts] maps every key to its variable. *)
Lemma creation_loop (keys : list key) :
  NoDup keys →
  let st := foldl (λ '(model, shifts) k,
                let '(b, model) := new_bool_var (shift_name k) model in
                (model, <[k := b]> shifts))
              (CpModel_new, (∅ : gmap key IntVar)) keys in
  st.1 = mkCpModel (imap shift_at keys) [] None ∧
  ∀ j k, keys !! j = Some k → st.2 !! k = Some (shift_at j k).
Proof.
  intros Hnd. cbv zeta.
  pose proof (foldl_inv
    (λ '(model, shifts) k,
       let '(b, model) := new_bool_var (shift_name k) model in
       (model, <[k := b]> shifts))
    (λ i (st : CpModel * gmap key IntVar),
       st.1 = mkCpModel (imap shift_at (take i keys)) [] None ∧
       ∀ j k, (j < i)%nat → keys !! j = Some k →
              st.2 !! k = Some (shift_at j k))
    keys (CpModel_new, ∅)) as H.
  cbv beta in H. rewrite firstn_all in H.
  destruct H as [Hm Hsh].
  - split; [done|]. intros; lia.
  - intros i k [m sh] Hk [Hm Hsh]. simpl in Hm. subst m.
    unfold new_bool_var, new_int_var. cbn [variables constraints objective fst snd].
    pose proof (lookup_lt_Some _ _ _ Hk) as Hlt.
    split.
    + rewrite (take_S_r _ _ _ Hk), imap_app, length_imap, length_take.
      replace (i `min` length keys)%nat with i by lia.
      cbn [imap]. unfold shift_at at 3. by rewrite Nat.add_0_r.
    + intros j k' Hj Hk'. destruct (decide (j = i)) as [->|Hne].
      * assert (k' = k) as -> by congruence.
        rewrite lookup_insert_eq, length_imap, length_take. 
        by replace (i `min` length keys)%nat with i by lia.
      * rewrite lookup_insert_ne.
        -- apply Hsh; [lia|done].
        -- intros ->. apply Hne. symmetry. by eapply NoDup_lookup.
  - split; [done|]. intros j k Hk. apply Hsh; [|done].
    by eapply lookup_lt_Some.
Qed.

Lemma posts_app cs1 cs2 m : posts cs2 (posts cs1 m) = posts (cs1 ++ cs2) m.
Proof. unfold posts. cbn [variables constraints objective]. by rewrite app_assoc. Qed.

(** A loop whose every round posts constraints. *)
Lemma foldl_posts {A} (g : option CpModel → A → option CpModel)
    (c : A → list Constraint) (l : list A) :
  (∀ m x, x ∈ l → g (Some m) x = Some (posts (c x) m)) →
  ∀ m, foldl g (Some m) l = Some (posts (l ≫= c) m).
Proof.
  induction l as [|x l IH]; intros Hg m.
  - unfold posts. simpl. rewrite app_nil_r. by destruct m.
  - simpl. rewrite Hg by left. rewrite IH.
    + by rewrite posts_app.
    + intros m' y Hy. apply Hg. by right.
Qed.

Lemma mapM_fmap_Some {A B} (f : A → option B) (g : A → B) (l : list A) :
  (∀ x, x ∈ l → f x = Some (g x)) → mapM f l = Some (g <$> l).
Proof.
  intros H. apply mapM_Some_2. induction l as [|x l IH]; [constructor|].
  csimpl. constructor; [apply H; left|]. apply IH. intros y Hy. apply H. by right.
Qed.

(** [main] for any sizes: it never raises a [KeyError], and this is the
    model that it builds. *)
Lemma build_explicit N S D :
  ∃ shifts : gmap key IntVar,
    (∀ n d s, n ∈ py_range N → d ∈ py_range D → s ∈ py_range S →
       shifts !! (n, d, s)
       = Some (shift_at (slot_of S D n d s) (n, d, s))) ∧
    build N S D
    = Some (mkCpModel (imap shift_at (triples N S D))
              ((pairs D S ≫= λ ds,
                  [mkConstraint
                     (ExactlyOne
                        (lit <$> ((λ n, shift_at (slot_of S D n ds.1 ds.2)
                                          (n, ds.1, ds.2)) <$> py_range N)))
                     []])
               ++ (pairs N D ≫= λ nd,
                  [mkConstraint
                     (AtMostOne
                        (lit <$> ((λ s, shift_at (slot_of S D nd.1 nd.2 s)
                                          (nd.1, nd.2, s)) <$> py_range S)))
                     []])
               ++ (py_range N ≫= λ n,
                  let shifts_worked :=
                    (λ ds : nat * nat,
                       shift_at (slot_of S D n ds.1 ds.2) (n, ds.1, ds.2))
                    <$> pairs D S in
                  [mkConstraint
                     (Linear (Le (Const (min_shifts_per_nurse N S D))
                                 (sum shifts_worked))) [];
                   mkConstraint
                     (Linear (Le (sum shifts_worked)
                                 (Const (max_shifts_per_nurse N S D)))) []]))
              None,
            shifts).
Proof.
  unfold build.
  erewrite (foldl_triples _
    (λ '(model, shifts) k,
       let '(b, model) := new_bool_var (shift_name k) model in
       (model, <[k := b]> shifts)) N S D);
    [|by intros n d [m sh] s].
  destruct (creation_loop (triples N S D) (NoDup_triples N S D)) as [Hm Hsh].
  destruct (foldl _ _ (triples N S D)) as [m shifts]. simpl in Hm, Hsh. subst m.
  assert (Hkey : ∀ n d s, n ∈ py_range N → d ∈ py_range D → s ∈ py_range S →
            shifts !! (n, d, s) = Some (shift_at (slot_of S D n d s) (n, d, s))).
  { intros n d s Hn Hd Hs. apply Hsh. by apply triples_lookup. }
  exists shifts. split; [exact Hkey|].
  (* each (day, shift) has one nurse *)
  pose proof (foldl_pairs
    (λ om ds,
       model ← om;
       xs ← mapM (λ n, shifts !! (n, ds.1, ds.2)) (py_range N);
       Some (add_exactly_one (lit <$> xs) model)) D S) as H1.
  cbv beta in H1. cbn [fst snd] in H1. rewrite H1. clear H1.
  rewrite (foldl_posts _
    (λ ds, [mkConstraint
              (ExactlyOne
                 (lit <$> ((λ n, shift_at (slot_of S D n ds.1 ds.2)
                                   (n, ds.1, ds.2)) <$> py_range N))) []])).
  2: { intros m [d s] [Hd Hs]%elem_of_pairs. cbn [fst snd mbind option_bind].
       rewrite (mapM_fmap_Some _
         (λ n, shift_at (slot_of S D n d s) (n, d, s))); [done|].
       intros n Hn. by apply Hkey. }
  cbn [mbind option_bind].
  (* a nurse works at most one shift a day *)
  pose proof (foldl_pairs
    (λ om nd,
       model ← om;
       xs ← mapM (λ s, shifts !! (nd.1, nd.2, s)) (py_range S);
       Some (add_at_most_one (lit <$> xs) model)) N D) as H2.
  cbv beta in H2. cbn [fst snd] in H2. rewrite H2. clear H2.
  rewrite (foldl_posts _
    (λ nd, [mkConstraint
              (AtMostOne
                 (lit <$> ((λ s, shift_at (slot_of S D nd.1 nd.2 s)
                                   (nd.1, nd.2, s)) <$> py_range S))) []])).
  2: { intros m [n d] [Hn Hd]%elem_of_pairs. cbn [fst snd mbind option_bind].
       rewrite (mapM_fmap_Some _
         (λ s, shift_at (slot_of S D n d s) (n, d, s))); [done|].
       intros s Hs. by apply Hkey. }
  cbn [mbind option_bind].
  (* the fairness band *)
  rewrite (foldl_posts _
    (λ n,
       let shifts_worked :=
         (λ ds : nat * nat,
            shift_at (slot_of S D n ds.1 ds.2) (n, ds.1, ds.2))
         <$> pairs D S in
       [mkConstraint
          (Linear (Le (Const (min_shifts_per_nurse N S D))
                      (sum shifts_worked))) [];
        mkConstraint
          (Linear (Le (sum shifts_worked)
                      (Const (max_shifts_per_nurse N S D)))) []])).
  2: { intros m n Hn. cbn [mbind option_bind].
       change (d ← py_range D; s ← py_range S; [(d, s)]) with (pairs D S).
       rewrite (mapM_fmap_Some _
         (λ ds : nat * nat,
            shift_at (slot_of S D n ds.1 ds.2) (n, ds.1, ds.2))).
       - cbv zeta. unfold add, post, posts.
         cbn [variables constraints objective mbind option_bind].
         by rewrite <- app_assoc.
       - intros [d s] [Hd Hs]%elem_of_pairs. by apply Hkey. }
  cbn [mbind option_bind]. rewrite !posts_app. unfold posts.
  cbn [variables constraints objective app]. by rewrite app_assoc.
Qed.

(** Meaning of the posted constraints. *)
Lemma binary_values a idx : Forall (λ v, 0 ≤ v ≤ 1) a → binary a idx.
Proof.
  intros Ha. apply Forall_forall. intros i _. unfold Value.
  destruct (a !! i) as [v|] eqn:E; simpl; [|lia].
  by apply (Forall_lookup_1 _ _ _ _ Ha E).
Qed.

Lemma eval_sum a (xs : list IntVar) : ∀ e,
  eval a (foldl (λ acc x, Add acc (expr_of_var x)) e xs)
  = eval a e + ones a (index <$> xs).
Proof.
  induction xs as [|x xs IH]; intros e; [unfold ones; simpl; lia|].
  cbn [foldl]. rewrite IH. csimpl. unfold ones, expr_of_var. cbn [eval foldr]. lia.
Qed.

Lemma holds_unconditional a b :
  holds a (mkConstraint b []) ↔ holds_body a b.
Proof.
  unfold holds. cbn [enforcement body]. split; [|done].
  intros H. apply H. constructor.
Qed.

Lemma shift_vars_bool (keys : list key) :
  Forall (λ x, lb x = 0 ∧ ub x = 1) (imap shift_at keys).
Proof.
  apply Forall_lookup. intros i x. rewrite list_lookup_imap.
  destruct (keys !! i); [|done]. by intros [= <-].
Qed.

(** The solutions of the model built for any sizes are the rosters. *)
Lemma feasible_roster N S D m shifts a :
  build N S D = Some (m, shifts) → feasible m a ↔ roster N S D a.
Proof.
  destruct (build_explicit N S D) as (sh & _ & ->). intros [= <- <-].
  unfold feasible. cbn [variables constraints].
  rewrite (domain_values _ _ 0 1 (shift_vars_bool _)), length_imap, length_triples.
  rewrite !Forall_app, !Forall_bind.
  split.
  - intros ((Hlen & Hbin) & Hone & Hmost & Hfair). split; [done..| | |].
    + intros d s Hd Hs.
      pose proof (proj1 (Forall_forall _ _) Hone (d, s)
                    (proj2 (elem_of_pairs _ _ _ _) (conj Hd Hs))) as H.
      cbv beta in H. apply (proj1 (Forall_singleton _ _)) in H.
      apply (proj1 (holds_unconditional _ _)) in H.
      cbn [holds_body fst snd] in H.
      rewrite <- list_fmap_compose in H.
      rewrite <- (count_true_ones a) by by apply binary_values.
      rewrite <- list_fmap_compose. unfold lit, compose in *. cbn [shift_at index] in *.
      by rewrite H.
    + intros n d Hn Hd.
      pose proof (proj1 (Forall_forall _ _) Hmost (n, d)
                    (proj2 (elem_of_pairs _ _ _ _) (conj Hn Hd))) as H.
      cbv beta in H. apply (proj1 (Forall_singleton _ _)) in H.
      apply (proj1 (holds_unconditional _ _)) in H.
      cbn [holds_body fst snd] in H.
      rewrite <- list_fmap_compose in H.
      rewrite <- (count_true_ones a) by by apply binary_values.
      rewrite <- list_fmap_compose. unfold lit, compose in *. cbn [shift_at index] in *.
      lia.
    + intros n Hn.
      pose proof (proj1 (Forall_forall _ _) Hfair n Hn) as H. cbv zeta in H.
      apply Forall_cons in H as [Hlo [Hhi _]%Forall_cons].
      apply (proj1 (holds_unconditional _ _)) in Hlo.
      apply (proj1 (holds_unconditional _ _)) in Hhi.
      cbn [holds_body holds_linear] in Hlo, Hhi. unfold sum in Hlo, Hhi.
      rewrite eval_sum, <- list_fmap_compose in Hlo, Hhi.
      cbn [eval] in Hlo, Hhi. unfold compose in *. cbn [shift_at index] in *.
      lia.
  - intros [Hlen Hbin Hone Hmost Hfair]. split; [done|]. split; [|split].
    + apply Forall_forall. intros [d s] [Hd Hs]%elem_of_pairs.
      apply Forall_singleton, (proj2 (holds_unconditional _ _)). cbn [holds_body fst snd].
      apply Nat2Z.inj. rewrite <- list_fmap_compose.
      specialize (Hone d s Hd Hs).
      rewrite <- (count_true_ones a) in Hone by by apply binary_values.
      rewrite <- list_fmap_compose in Hone. exact Hone.
    + apply Forall_forall. intros [n d] [Hn Hd]%elem_of_pairs.
      apply Forall_singleton, (proj2 (holds_unconditional _ _)). cbn [holds_body fst snd].
      apply Nat2Z.inj_le. rewrite <- list_fmap_compose.
      specialize (Hmost n d Hn Hd).
      rewrite <- (count_true_ones a) in Hmost by by apply binary_values.
      rewrite <- list_fmap_compose in Hmost. exact Hmost.
    + apply Forall_forall. intros n Hn. cbv zeta.
      specialize (Hfair n Hn).
      constructor; [|constructor; [|constructor]];
        apply (proj2 (holds_unconditional _ _));
        cbn [holds_body holds_linear]; unfold sum;
        rewrite eval_sum, <- list_fmap_compose; cbn [eval];
        unfold compose; cbn [shift_at index]; lia.
Qed.

(** Sums over the nurses, the days and the shifts. *)
Lemma ones_fmap {A} a (g : A → nat) (l : list A) :
  ones a (g <$> l) = foldr Z.add 0 ((λ x, Value a (g x)) <$> l).
Proof. unfold ones. induction l as [|x l IH]; csimpl; [done|]. by rewrite IH. Qed.

Lemma sum_add {A} (f g : A → Z) (l : list A) :
  foldr Z.add 0 ((λ x, f x + g x) <$> l)
  = foldr Z.add 0 (f <$> l) + foldr Z.add 0 (g <$> l).
Proof. induction l as [|x l IH]; csimpl; [done|]. rewrite IH. lia. Qed.

Lemma sum_swap {A B} (f : A → B → Z) (l : list A) (k : list B) :
  foldr Z.add 0 ((λ x, foldr Z.add 0 (f x <$> k)) <$> l)
  = foldr Z.add 0 ((λ y, foldr Z.add 0 ((λ x, f x y) <$> l)) <$> k).
Proof.
  induction l as [|x l IH]; csimpl.
  - induction k as [|y k IHk]; csimpl; [done|]. by rewrite <- IHk.
  - rewrite IH, <- sum_add. done.
Qed.

Lemma sum_const {A} (f : A → Z) (c : Z) (l : list A) :
  (∀ x, x ∈ l → f x = c) →
  foldr Z.add 0 (f <$> l) = Z.of_nat (length l) * c.
Proof.
  induction l as [|x l IH]; intros H; csimpl; [lia|].
  rewrite IH, (H x) by (try intros y Hy; try apply H; by constructor).
  cbn [length]. lia.
Qed.

Lemma sum_le_const {A} (f : A → Z) (c : Z) (l : list A) :
  (∀ x, x ∈ l → f x ≤ c) →
  foldr Z.add 0 (f <$> l) ≤ Z.of_nat (length l) * c.
Proof.
  induction l as [|x l IH]; intros H; csimpl; [lia|].
  assert (foldr Z.add 0 (f <$> l) ≤ Z.of_nat (length l) * c)
    by (apply IH; intros y Hy; apply H; by right).
  pose proof (H x ltac:(left)). cbn [length]. lia.
Qed.

(** On a day with more shifts than nurses no roster exists. *)
Lemma roster_shifts_le_nurses N S D a :
  roster N S D a → 0 < D → 0 < S → S ≤ N.
Proof.
  intros [_ _ Hone Hmost _] HD HS.
  assert (Hd : 0%nat ∈ py_range D) by (apply elem_of_py_range; lia).
  pose proof (sum_swap (λ s n, Value a (slot_of S D n 0 s))
                (py_range S) (py_range N)) as Hswap.
  rewrite (sum_const _ 1) in Hswap.
  2: { intros s Hs. rewrite <- (ones_fmap a (λ n, slot_of S D n 0 s)).
       by apply Hone. }
  pose proof (sum_le_const
    (λ n, foldr Z.add 0 ((λ s, Value a (slot_of S D n 0 s)) <$> py_range S))
    1 (py_range N)) as Hle.
  rewrite <- Hswap, !length_py_range in Hle.
  assert (Z.of_nat (Z.to_nat S) * 1 ≤ Z.of_nat (Z.to_nat N) * 1); [|lia].
  apply Hle. intros n Hn.
  rewrite <- (ones_fmap a (λ s, slot_of S D n 0 s)). by apply Hmost.
Qed.

(** The round-robin roster. *)
Lemma sum_one_hit (c N : nat) :
  (c < N)%nat →
  foldr Z.add 0 ((λ n, if decide (c = n) then 1 else 0) <$> seq 0 N) = 1.
Proof.
  induction N as [|N IH]; intros Hc; [lia|].
  rewrite seq_S, fmap_app, foldr_app. csimpl.
  assert (Hshift : ∀ (l : list Z) z, foldr Z.add z l = foldr Z.add 0 l + z).
  { induction l as [|y l IHl]; intros z; simpl; [lia|]. rewrite IHl. lia. }
  rewrite Hshift. destruct (decide (c = N)) as [->|Hne].
  - rewrite (sum_const _ 0); [lia|].
    intros n Hn%elem_of_seq. rewrite decide_False; [done|lia].
  - rewrite IH by lia. lia.
Qed.

Lemma sum_snoc (l : list Z) z : foldr Z.add 0 (l ++ [z]) = foldr Z.add 0 l + z.
Proof. induction l as [|y l IH]; simpl; [lia|]. rewrite IH. lia. Qed.

Lemma sum_at_most_one_hit (P : nat → Prop) `{∀ s, Decision (P s)} (S : nat) :
  (∀ s1 s2, (s1 < S)%nat → (s2 < S)%nat → P s1 → P s2 → s1 = s2) →
  0 ≤ foldr Z.add 0 ((λ s, if decide (P s) then 1 else 0) <$> seq 0 S) ≤ 1.
Proof.
  induction S as [|S IH]; intros Huniq; [simpl; lia|].
  rewrite seq_S, fmap_app. cbn [fmap list_fmap plus]. rewrite sum_snoc. destruct (decide (P S)) as [HP|HP].
  - rewrite (sum_const _ 0); [lia|].
    intros s Hs%elem_of_seq. rewrite decide_False; [done|].
    intros Hs'. assert (s = S); [|lia]. apply Huniq; [lia|lia|done|done].
  - assert (0 ≤ foldr Z.add 0 ((λ s, if decide (P s) then 1 else 0) <$> seq 0 S) ≤ 1);
      [|lia].
    apply IH. intros s1 s2 ? ?. apply Huniq; lia.
Qed.

Lemma grid_flat (R C : nat) :
  (seq 0 R ≫= λ x, seq 0 C ≫= λ y, [(x * C + y)%nat]) = seq 0 (R * C).
Proof.
  induction R as [|R IH]; [done|].
  rewrite seq_S, bind_app, IH. cbn [plus mbind list_bind]. rewrite app_nil_r.
  replace (S R * C)%nat with (R * C + C)%nat by lia.
  rewrite seq_app. f_equal. cbn [plus].
  transitivity (Nat.add (R * C) <$> seq 0 C).
  - generalize (seq 0 C). intros l. induction l as [|y l IHl]; [done|].
    csimpl. by rewrite IHl.
  - rewrite fmap_add_seq. f_equal. lia.
Qed.

Lemma sum_pairs_flat (f : nat → Z) R C :
  foldr Z.add 0 ((λ ds : nat * nat, f (ds.1 * Z.to_nat C + ds.2)%nat)
                 <$> pairs R C)
  = foldr Z.add 0 (f <$> seq 0 (Z.to_nat R * Z.to_nat C)).
Proof.
  rewrite <- grid_flat. unfold pairs, py_range.
  generalize (seq 0 (Z.to_nat R)). intros l.
  induction l as [|x l IH]; [done|].
  change ((x :: l) ≫= ?h) with (h x ++ (l ≫= h)).
  rewrite !fmap_app, !foldr_app, IH. f_equal.
  generalize (seq 0 (Z.to_nat C)). intros k.
  induction k as [|y k IHk]; [done|]. csimpl. by rewrite IHk.
Qed.

(** Among the numbers below [T], those that are [n] modulo [N]. *)
Lemma sum_residue (N n T : nat) :
  (n < N)%nat →
  foldr Z.add 0 ((λ k, if decide ((k `mod` N)%nat = n) then 1 else 0) <$> seq 0 T)
  = Z.of_nat T `div` Z.of_nat N
    + (if decide (Z.of_nat n < Z.of_nat T `mod` Z.of_nat N) then 1 else 0).
Proof.
  intros Hn. induction T as [|T IH].
  - simpl. rewrite Z.div_0_l, Z.mod_0_l by lia. rewrite decide_False; lia.
  - rewrite seq_S, fmap_app. cbn [fmap list_fmap plus]. rewrite sum_snoc, IH.
    assert (Hmod : Z.of_nat (T `mod` N) = Z.of_nat T `mod` Z.of_nat N)
      by (apply Nat2Z.inj_mod).
    replace (Z.of_nat (S T)) with (Z.of_nat T + 1) by lia.
    pose proof (Z.div_mod (Z.of_nat T) (Z.of_nat N) ltac:(lia)) as E1.
    pose proof (Z.mod_pos_bound (Z.of_nat T) (Z.of_nat N) ltac:(lia)) as B1.
    set (q := Z.of_nat T `div` Z.of_nat N) in *.
    set (r := Z.of_nat T `mod` Z.of_nat N) in *.
    destruct (decide (r + 1 < Z.of_nat N)) as [Hr|Hr].
    + rewrite <- (Z.div_unique_pos (Z.of_nat T + 1) (Z.of_nat N) q (r + 1))
        by lia.
      rewrite <- (Z.mod_unique_pos (Z.of_nat T + 1) (Z.of_nat N) q (r + 1))
        by lia.
      repeat destruct (decide _); lia.
    + rewrite <- (Z.div_unique_pos (Z.of_nat T + 1) (Z.of_nat N) (q + 1) 0)
        by lia.
      rewrite <- (Z.mod_unique_pos (Z.of_nat T + 1) (Z.of_nat N) (q + 1) 0)
        by lia.
      repeat destruct (decide _); lia.
Qed.

Lemma round_robin_value N S D n d s :
  n ∈ py_range N → d ∈ py_range D → s ∈ py_range S →
  Value (round_robin N S D) (slot_of S D n d s)
  = if decide (((d * Z.to_nat S + s) `mod` Z.to_nat N)%nat = n) then 1 else 0.
Proof.
  intros Hn Hd Hs. unfold Value, round_robin.
  rewrite list_lookup_fmap.
  pose proof (triples_lookup N S D n d s Hn Hd Hs) as E.
  unfold key in *. by rewrite E.
Qed.

Lemma round_robin_roster N S D :
  0 < N → 0 ≤ S → 0 ≤ D → S ≤ N ∨ D = 0 → roster N S D (round_robin N S D).
Proof.
  intros HN HS HD Hfit. split.
  - unfold round_robin. by rewrite length_fmap, length_triples.
  - unfold round_robin. apply Forall_fmap, Forall_forall. intros k _.
    simpl. destruct (decide _); lia.
  - intros d s Hd Hs. rewrite ones_fmap.
    rewrite (sum_ext _
      (λ n, if decide (((d * Z.to_nat S + s) `mod` Z.to_nat N)%nat = n)
            then 1 else 0)).
    + apply sum_one_hit. apply Nat.mod_upper_bound. lia.
    + intros n Hn. by apply round_robin_value.
  - intros n d Hn Hd. rewrite ones_fmap.
    rewrite (sum_ext _
      (λ s, if decide (((d * Z.to_nat S + s) `mod` Z.to_nat N)%nat = n)
            then 1 else 0)).
    2: { intros s Hs. by apply round_robin_value. }
    apply elem_of_py_range in Hd.
    apply (sum_at_most_one_hit
             (λ s, ((d * Z.to_nat S + s) `mod` Z.to_nat N)%nat = n)).
    intros s1 s2 H1 H2 E1 E2.
    pose proof (Nat.div_mod_eq (d * Z.to_nat S + s1) (Z.to_nat N)) as D1.
    pose proof (Nat.div_mod_eq (d * Z.to_nat S + s2) (Z.to_nat N)) as D2.
    rewrite E1 in D1. rewrite E2 in D2.
    assert (Z.to_nat S ≤ Z.to_nat N)%nat by lia.
    set (q1 := ((d * Z.to_nat S + s1) / Z.to_nat N)%nat) in *.
    set (q2 := ((d * Z.to_nat S + s2) / Z.to_nat N)%nat) in *.
    destruct (Nat.lt_trichotomy q1 q2) as [Hq|[Hq|Hq]]; [|subst; lia|].
    + assert (Z.to_nat N * q1 + Z.to_nat N ≤ Z.to_nat N * q2)%nat by nia. lia.
    + assert (Z.to_nat N * q2 + Z.to_nat N ≤ Z.to_nat N * q1)%nat by nia. lia.
  - intros n Hn. rewrite ones_fmap.
    rewrite (sum_ext _
      (λ ds : nat * nat,
         (λ k, if decide ((k `mod` Z.to_nat N)%nat = n) then 1 else 0)
           (ds.1 * Z.to_nat S + ds.2)%nat)).
    2: { intros [d s] [Hd Hs]%elem_of_pairs. by apply round_robin_value. }
    pose proof (sum_pairs_flat
      (λ k, if decide ((k `mod` Z.to_nat N)%nat = n) then 1 else 0) D S) as E.
    cbv beta in E. rewrite E. clear E.
    rewrite sum_residue by by apply elem_of_py_range.
    unfold max_shifts_per_nurse, min_shifts_per_nurse.
    replace (Z.of_nat (Z.to_nat D * Z.to_nat S)) with (S * D) by lia.
    replace (Z.of_nat (Z.to_nat N)) with N by lia.
    pose proof (Z.mod_pos_bound (S * D) N HN).
    destruct (decide _); destruct (Z.eqb_spec ((S * D) `mod` N) 0); lia.
Qed.

(** Every day of a roster, each nurse works at most one shift, and the
    nurses without a shift are those in excess of the shifts. *)
Lemma shifts_of_nurse N S D a n d :
  roster N S D a → n ∈ py_range N → d ∈ py_range D →
  Z.of_nat (length (filter (λ s, Value a (slot_of S D n d s) ≠ 0) (py_range S)))
  = ones a ((λ s, slot_of S D n d s) <$> py_range S).
Proof.
  intros Hr Hn Hd.
  apply (filter_length_ones (λ s, Value a (slot_of S D n d s) ≠ 0)
           (λ s, slot_of S D n d s)); [|done].
  apply binary_values, Hr.
Qed.

Lemma count_zero {A} (f : A → Z) (l : list A) :
  (∀ x, x ∈ l → 0 ≤ f x ≤ 1) →
  Z.of_nat (length (filter (λ x, f x = 0) l))
  = Z.of_nat (length l) - foldr Z.add 0 (f <$> l).
Proof.
  induction l as [|x l IH]; intros H; [done|].
  rewrite filter_cons. csimpl.
  pose proof (H x ltac:(left)).
  assert (Z.of_nat (length (filter (λ x, f x = 0) l))
          = Z.of_nat (length l) - foldr Z.add 0 (f <$> l))
    by (apply IH; intros y Hy; apply H; by right).
  destruct (decide (f x = 0)); cbn [length]; lia.
Qed.

Lemma filter_equal {A} (P Q : A → Prop) `{∀ x, Decision (P x)}
    `{∀ x, Decision (Q x)} (l : list A) :
  (∀ x, x ∈ l → P x ↔ Q x) → filter P l = filter Q l.
Proof.
  induction l as [|x l IH]; intros HPQ; [done|].
  rewrite !filter_cons, IH by (intros y Hy; apply HPQ; by right).
  pose proof (HPQ x ltac:(left)).
  destruct (decide (P x)), (decide (Q x)); tauto.
Qed.

Lemma resting_nurses N S D a d :
  roster N S D a → d ∈ py_range D →
  length (filter (λ n, filter (λ s, Value a (slot_of S D n d s) ≠ 0)
                         (py_range S) = [])
            (py_range N))
  = (Z.to_nat N - Z.to_nat S)%nat.
Proof.
  intros Hr Hd.
  pose proof (count_zero
    (λ n, ones a ((λ s, slot_of S D n d s) <$> py_range S)) (py_range N)) as Hz.
  assert (Hrow : ∀ n, n ∈ py_range N →
            0 ≤ ones a ((λ s, slot_of S D n d s) <$> py_range S) ≤ 1).
  { intros n Hn. split; [|by apply Hr].
    rewrite <- (shifts_of_nurse N S D a n d Hr Hn Hd). lia. }
  specialize (Hz Hrow).
  assert (Hsum : foldr Z.add 0
            ((λ n, ones a ((λ s, slot_of S D n d s) <$> py_range S))
             <$> py_range N) = Z.of_nat (Z.to_nat S)).
  { rewrite (sum_ext _
      (λ n, foldr Z.add 0 ((λ s, Value a (slot_of S D n d s)) <$> py_range S))).
    2: { intros n _. apply ones_fmap. }
    rewrite (sum_swap (λ n s, Value a (slot_of S D n d s))).
    rewrite (sum_const _ 1).
    - rewrite length_py_range. lia.
    - intros s Hs. rewrite <- (ones_fmap a (λ n, slot_of S D n d s)).
      by apply Hr. }
  rewrite Hsum, length_py_range in Hz.
  apply Nat2Z.inj. rewrite Nat2Z.inj_sub.
  2: { assert (0 ≤ Z.of_nat (length (filter
         (λ n, ones a ((λ s, slot_of S D n d s) <$> py_range S) = 0)
         (py_range N)))) by lia. lia. }
  rewrite <- Hz. f_equal. f_equal. apply filter_equal. intros n Hn.
  rewrite <- (shifts_of_nurse N S D a n d Hr Hn Hd).
  split.
  - by intros ->.
  - intros H. apply length_zero_iff_nil. lia.
Qed.

End nurse_shift_model_facts.

(** ** The solution printer of the rosters *)

Module nurse_shift_printer_facts.
Import nurse_shift nurse_shift_model nurse_shift_printer.
Import nurse_shift_facts nurse_shift_model_facts.

Lemma for_each_append {A B} (body : A → list B → option (list B))
    (g : A → list B) (l : list A) :
  (∀ x out, x ∈ l → body x out = Some (out ++ g x)) →
  ∀ out, for_each body l out = Some (out ++ (l ≫= g)).
Proof.
  induction l as [|x l IH]; intros H out; simpl.
  - by rewrite app_nil_r.
  - rewrite H by left. simpl. rewrite IH.
    + by rewrite <- app_assoc.
    + intros y out' Hy. apply H. by right.
Qed.

Lemma bind_singleton {A B} (g : A → B) (l : list A) :
  (l ≫= λ x, [g x]) = g <$> l.
Proof. induction l as [|x l IH]; [done|]. csimpl. by rewrite IH. Qed.

Lemma shift_loop (self : NursesPartialSolutionPrinter) a N S D d n :
  printer_of N S D self → n ∈ py_range N → d ∈ py_range D →
  ∀ l is_working out, l ⊆ py_range S →
  for_each (λ s '(is_working, out),
      b ← _shifts self !! (n, d, s);
      if decide (Value a (index b) ≠ 0)
      then Some (true,
                 out ++ ["  Nurse " +:+ pretty n +:+ " works shift "
                         +:+ pretty s])
      else Some (is_working, out)) l (is_working, out)
  = let ws := filter (λ s, Value a (slot_of S D n d s) ≠ 0) l in
    Some (if ws is [] then is_working else true,
          out ++ ((λ s, "  Nurse " +:+ pretty n +:+ " works shift "
                        +:+ pretty s) <$> ws)).
Proof.
  intros [Hkey _] Hn Hd l. induction l as [|s l IH]; intros w out Hl; cbv zeta.
  - simpl. by rewrite app_nil_r.
  - cbn [for_each].
    destruct (Hkey n d s Hn Hd) as (b & -> & Hb); [apply Hl; left|].
    cbn [mbind option_bind]. rewrite Hb, filter_cons.
    assert (Hl' : l ⊆ py_range S) by (intros x Hx; apply Hl; by right).
    destruct (decide _) as [Hv|Hv]; cbn [mbind option_bind].
    + rewrite IH by done. cbv zeta. cbn [fmap list_fmap].
      rewrite <- app_assoc. cbn [app]. by destruct (filter _ l).
    + by rewrite IH.
Qed.

Lemma nurse_lines_roster (self : NursesPartialSolutionPrinter) a N S D d n out :
  printer_of N S D self → roster N S D a →
  n ∈ py_range N → d ∈ py_range D →
  nurse_lines self a d n out = Some (out ++ [nurse_line S D a d n]).
Proof.
  intros Hp Hr Hn Hd. unfold nurse_lines.
  destruct Hp as (Hkey & HN & HD & HS). rewrite HS.
  rewrite (shift_loop self a N S D d n (conj Hkey (conj HN (conj HD HS))) Hn Hd)
    by done.
  cbv zeta. cbn [mbind option_bind]. unfold nurse_line, working_shifts.
  pose proof (shifts_of_nurse N S D a n d Hr Hn Hd) as Hlen.
  pose proof (ro_at_most_one _ _ _ _ Hr n d Hn Hd) as Hmost.
  destruct (filter _ (py_range S)) as [|s [|s' ws]].
  - cbn [fmap list_fmap]. by rewrite app_nil_r.
  - done.
  - cbn [length] in Hlen. lia.
Qed.

Lemma length_solution_lines N S D a :
  length (solution_lines N S D a)
  = (Z.to_nat D * (1 + Z.to_nat N))%nat.
Proof.
  unfold solution_lines.
  rewrite (sat_cp_facts.length_bind_const _ (1 + Z.to_nat N)%nat).
  - by rewrite length_py_range.
  - intros d. cbn [length]. by rewrite length_fmap, length_py_range.
Qed.

(** One call of the callback on a roster. *)
Lemma callback_on_roster (self : NursesPartialSolutionPrinter) a N S D :
  printer_of N S D self → roster N S D a →
  let count := (_solution_count self + 1)%nat in
  let hit := bool_decide (_solution_limit self ≤ Z.of_nat count) in
  on_solution_callback self a
  = Some (mk_printer (_shifts self) N D S count (_solution_limit self)
            (lines self
             ++ ("Solution " +:+ pretty count) :: solution_lines N S D a
             ++ (if hit
                 then ["Stop search after " +:+ pretty (_solution_limit self)
                       +:+ " solutions"]
                 else []))
            (hit || stopped self)).
Proof.
  intros Hp Hr. cbv zeta. unfold on_solution_callback.
  pose proof Hp as (Hkey & HN & HD & HS).
  rewrite (for_each_append _
    (λ d, ("Day " +:+ pretty d)
          :: (nurse_line S D a d <$> py_range N))).
  2: { intros d out Hd. rewrite HD in Hd. cbv zeta.
       rewrite (for_each_append _ (λ n, [nurse_line S D a d n])).
       - rewrite HN, <- app_assoc. cbn [app]. by rewrite bind_singleton.
       - intros n out' Hn. rewrite HN in Hn.
         by apply (nurse_lines_roster self a N S D). }
  cbn [mbind option_bind]. rewrite HD, HN, HS.
  change (py_range D ≫= _) with (solution_lines N S D a).
  destruct (decide _) as [Hl|Hl].
  - rewrite bool_decide_eq_true_2 by done. cbn [orb].
    by rewrite <- !app_assoc.
  - rewrite bool_decide_eq_false_2 by done. cbn [orb].
    by rewrite app_nil_r, <- app_assoc.
Qed.

Lemma callback_keeps_printer (self : NursesPartialSolutionPrinter) N S D
    count limit lines stopped :
  printer_of N S D self →
  printer_of N S D (mk_printer (_shifts self) N D S count limit lines stopped).
Proof. intros (Hkey & _). by split. Qed.

(** A run of the engine on a stream of rosters. *)
Lemma printer_run N S D (found : list (list Z)) :
  Forall (roster N S D) found →
  ∀ cb, printer_of N S D cb → stopped cb = false →
  let k := Z.max 1 (_solution_limit cb - Z.of_nat (_solution_count cb)) in
  let n := Nat.min (length found) (Z.to_nat k) in
  let hit := bool_decide (k ≤ Z.of_nat (length found)) in
  solve_with_callback found cb
  = Some (mk_printer (_shifts cb) N D S (_solution_count cb + n)
            (_solution_limit cb)
            (lines cb
             ++ mjoin (imap (λ i a,
                          ("Solution "
                           +:+ pretty (_solution_count cb + i + 1)%nat)
                          :: solution_lines N S D a)
                        (take n found))
             ++ (if hit
                 then ["Stop search after " +:+ pretty (_solution_limit cb)
                       +:+ " solutions"]
                 else []))
            hit).
Proof.
  induction 1 as [|a found Ha Hfound IH]; intros cb Hp Hs; cbv zeta.
  - cbn [solve_with_callback length]. rewrite bool_decide_eq_false_2 by lia.
    cbn [Nat.min take imap mjoin]. rewrite !app_nil_r, Nat.add_0_r.
    destruct Hp as (_ & <- & <- & <-). rewrite <- Hs. by destruct cb.
  - cbn [solve_with_callback].
    rewrite (callback_on_roster cb a N S D Hp Ha). cbv zeta.
    cbn [mbind option_bind stopped]. rewrite Hs, orb_false_r.
    destruct (bool_decide (_solution_limit cb
                           ≤ Z.of_nat (_solution_count cb + 1))) eqn:Hhit.
    + apply bool_decide_eq_true_1 in Hhit.
      replace (Z.max 1 (_solution_limit cb - Z.of_nat (_solution_count cb)))
        with 1 by lia.
      cbn [length]. rewrite bool_decide_eq_true_2 by lia.
      replace (Nat.min (Datatypes.S (length found)) (Z.to_nat 1)) with 1%nat by lia.
      cbn [take imap mjoin]. rewrite take_0. cbn [imap list_join].
      by rewrite app_nil_r, Nat.add_0_r.
    + apply bool_decide_eq_false_1 in Hhit.
      rewrite IH; [|by apply callback_keeps_printer|done].
      cbn [_shifts _solution_count _solution_limit lines length].
      set (k' := Z.max 1 (_solution_limit cb
                          - Z.of_nat (_solution_count cb + 1))).
      replace (Z.max 1 (_solution_limit cb - Z.of_nat (_solution_count cb)))
        with (k' + 1) by lia.
      replace (Nat.min (Datatypes.S (length found)) (Z.to_nat (k' + 1)))
        with (Datatypes.S (Nat.min (length found) (Z.to_nat k'))) by lia.
      rewrite (bool_decide_ext (k' + 1 ≤ Z.of_nat (Datatypes.S (length found)))
                 (k' ≤ Z.of_nat (length found))) by lia.
      cbn [take imap mjoin list_join]. rewrite app_nil_r, Nat.add_0_r.
      f_equal. f_equal; [lia|]. rewrite <- !app_assoc. cbn [app].
      erewrite imap_ext; [done|]. intros i x _. unfold compose. cbv beta.
      do 3 f_equal. lia.
Qed.

Lemma build_printer N S D m shifts count limit lines stopped :
  build N S D = Some (m, shifts) →
  printer_of N S D (mk_printer shifts N D S count limit lines stopped).
Proof.
  destruct (build_explicit N S D) as (sh & Hkey & ->). intros [= _ <-].
  split; [|done]. intros n d s Hn Hd Hs. eexists. split; [by apply Hkey|done].
Qed.

Lemma main_builds : build 4 3 3 = Some (model, shifts).
Proof. by vm_compute. Qed.

Lemma example_rosters_feasible : Forall (feasible model) example_rosters.
Proof. compute_done. Qed.

Lemma example_rosters_NoDup : NoDup example_rosters.
Proof. compute_done. Qed.

Lemma at_least_five (found : list (list Z)) :
  enumerates model found → (5 ≤ length found)%nat.
Proof.
  intros [_ Hall].
  change 5%nat with (length example_rosters).
  apply submseteq_length, NoDup_submseteq; [apply example_rosters_NoDup|].
  intros a Ha. apply Hall.
  by apply (proj1 (Forall_forall _ _) example_rosters_feasible).
Qed.

End nurse_shift_printer_facts.

Module nurse_shift_theorems.
Import nurse_shift nurse_shift_model nurse_shift_printer.
Import nurse_shift_model_facts nurse_shift_printer_facts.

(** X21: [main] of [nurse-shift.py] for any sizes with at least one nurse
    (with none, the division that computes the fairness band fails): the
    model is built without a [KeyError]; [shifts] maps every (nurse, day,
    shift) of the ranges to a Boolean variable, numbered in loop order;
    and the solutions of the model are exactly the rosters: 0/1 values in
    which every shift of every day has exactly one nurse, no nurse works
    two shifts on a day, and the number of shifts of every nurse lies
    between [min_shifts_per_nurse] and [max_shifts_per_nurse]. *)
Theorem solutions_are_rosters (num_nurses num_shifts num_days : Z) :
  num_nurses ≠ 0 →
  ∃ model shifts,
    build num_nurses num_shifts num_days = Some (model, shifts) ∧
    (∀ n d s,
       n ∈ py_range num_nurses → d ∈ py_range num_days →
       s ∈ py_range num_shifts →
       ∃ b, shifts !! (n, d, s) = Some b ∧
            variables model !! slot_of num_shifts num_days n d s = Some b ∧
            lb b = 0 ∧ ub b = 1) ∧
    ∀ a, feasible model a ↔ roster num_nurses num_shifts num_days a.
Proof.
  intros _.
  destruct (build_explicit num_nurses num_shifts num_days)
    as (shifts & Hkey & Hbuild).
  eexists _, shifts. split; [exact Hbuild|]. split.
  - intros n d s Hn Hd Hs. eexists. split; [by apply Hkey|].
    cbn [variables]. rewrite list_lookup_imap.
    pose proof (triples_lookup num_nurses num_shifts num_days n d s Hn Hd Hs) as E.
    unfold key in *. by rewrite E.
  - intros a. by apply (feasible_roster _ _ _ _ shifts).
Qed.

Lemma solutions_are_rosters_witness :
  ∃ model shifts,
    build 4 3 3 = Some (model, shifts) ∧
    (∀ n d s,
       n ∈ py_range 4 → d ∈ py_range 3 → s ∈ py_range 3 →
       ∃ b, shifts !! (n, d, s) = Some b ∧
            variables model !! slot_of 3 3 n d s = Some b ∧
            lb b = 0 ∧ ub b = 1) ∧
    ∀ a, feasible model a ↔ roster 4 3 3 a.
Proof. exact (solutions_are_rosters 4 3 3 ltac:(lia)). Defined.

(** X22: for at least one nurse and sizes that are not negative, the model
    of [nurse-shift.py] has a solution exactly when there are no more
    shifts a day than nurses, or no day at all. *)
Theorem rosters_exist_iff (num_nurses num_shifts num_days : Z) model shifts :
  0 < num_nurses → 0 ≤ num_shifts → 0 ≤ num_days →
  build num_nurses num_shifts num_days = Some (model, shifts) →
  (∃ a, feasible model a) ↔ num_shifts ≤ num_nurses ∨ num_days = 0.
Proof.
  intros HN HS HD Hbuild. split.
  - intros (a & Ha). apply (feasible_roster _ _ _ _ _ _ Hbuild) in Ha.
    destruct (decide (num_days = 0)) as [|Hd]; [by right|]. left.
    destruct (decide (num_shifts = 0)) as [->|Hs]; [lia|].
    apply (roster_shifts_le_nurses _ _ _ _ Ha); lia.
  - intros Hfit. exists (round_robin num_nurses num_shifts num_days).
    apply (feasible_roster _ _ _ _ _ _ Hbuild).
    by apply round_robin_roster.
Qed.

Lemma rosters_exist_iff_witness :
  (∃ a, feasible nurse_shift.model a) ↔ 3 ≤ 4 ∨ 3 = 0.
Proof.
  exact (rosters_exist_iff 4 3 3 nurse_shift.model nurse_shift.shifts
           ltac:(lia) ltac:(lia) ltac:(lia) main_builds).
Defined.

(** X23: one call of the callback of [NursesPartialSolutionPrinter] on a
    solution of the model: it never raises a [KeyError]; it prints the
    header with the new count, then for every day its title and exactly
    one line per nurse, and the stop line when the count reaches the
    limit.  A nurse has at most one shift on a day, and on every day the
    nurses who do not work are those in excess of the shifts. *)
Theorem callback_prints_a_roster (num_nurses num_shifts num_days : Z)
    model shifts (a : list Z) count limit printed was_stopped :
  num_nurses ≠ 0 →
  build num_nurses num_shifts num_days = Some (model, shifts) →
  feasible model a →
  let self := mk_printer shifts num_nurses num_days num_shifts count limit
                printed was_stopped in
  let hit := bool_decide (limit ≤ Z.of_nat (count + 1)) in
  on_solution_callback self a
  = Some (mk_printer shifts num_nurses num_days num_shifts (count + 1) limit
            (printed
             ++ ("Solution " +:+ pretty (count + 1)%nat)
                :: solution_lines num_nurses num_shifts num_days a
             ++ (if hit
                 then ["Stop search after " +:+ pretty limit +:+ " solutions"]
                 else []))
            (hit || was_stopped)) ∧
  length (solution_lines num_nurses num_shifts num_days a)
  = (Z.to_nat num_days * (1 + Z.to_nat num_nurses))%nat ∧
  ∀ d, d ∈ py_range num_days →
    (∀ n, n ∈ py_range num_nurses →
       (length (working_shifts num_shifts num_days a d n) ≤ 1)%nat) ∧
    length (filter (λ n, working_shifts num_shifts num_days a d n = [])
              (py_range num_nurses))
    = (Z.to_nat num_nurses - Z.to_nat num_shifts)%nat.
Proof.
  intros _ Hbuild Ha. cbv zeta.
  apply (feasible_roster _ _ _ _ _ _ Hbuild) in Ha.
  split; [|split].
  - apply (callback_on_roster
             (mk_printer shifts num_nurses num_days num_shifts count limit
                printed was_stopped) a num_nurses num_shifts num_days);
      [|done].
    by apply (build_printer _ _ _ model).
  - apply length_solution_lines.
  - intros d Hd. unfold working_shifts. split.
    + intros n Hn. apply Nat2Z.inj_le.
      rewrite (shifts_of_nurse _ _ _ _ _ _ Ha Hn Hd). by apply Ha.
    + by apply resting_nurses.
Qed.

Lemma callback_prints_a_roster_witness :
  let self := mk_printer nurse_shift.shifts 4 3 3 0 5 [] false in
  let hit := bool_decide (5 ≤ Z.of_nat (0 + 1)) in
  on_solution_callback self example_roster
  = Some (mk_printer nurse_shift.shifts 4 3 3 (0 + 1) 5
            ([]
             ++ ("Solution " +:+ pretty (0 + 1)%nat)
                :: solution_lines 4 3 3 example_roster
             ++ (if hit
                 then ["Stop search after " +:+ pretty 5 +:+ " solutions"]
                 else []))
            (hit || false)) ∧
  length (solution_lines 4 3 3 example_roster)
  = (Z.to_nat 3 * (1 + Z.to_nat 4))%nat ∧
  ∀ d, d ∈ py_range 3 →
    (∀ n, n ∈ py_range 4 →
       (length (working_shifts 3 3 example_roster d n) ≤ 1)%nat) ∧
    length (filter (λ n, working_shifts 3 3 example_roster d n = [])
              (py_range 4))
    = (Z.to_nat 4 - Z.to_nat 3)%nat.
Proof.
  assert (H : feasible nurse_shift.model example_roster) by compute_done.
  exact (callback_prints_a_roster 4 3 3 nurse_shift.model nurse_shift.shifts
           example_roster 0 5 [] false ltac:(lia) main_builds H).
Defined.

(** X24: a run of [main] of [nurse-shift.py], for any sizes and limit, on
    a stream of solutions of its model: the printer handles the first
    [min (length of the stream) (max 1 limit)] solutions and numbers them
    from 1; it has called [stop_search], and printed the stop line, exactly
    when the stream held that many solutions. *)
Theorem nurse_main_run (num_nurses num_shifts num_days limit : Z)
    model shifts (found : list (list Z)) :
  num_nurses ≠ 0 →
  build num_nurses num_shifts num_days = Some (model, shifts) →
  Forall (feasible model) found →
  let n := Nat.min (length found) (Z.to_nat (Z.max 1 limit)) in
  let hit := bool_decide (Z.max 1 limit ≤ Z.of_nat (length found)) in
  main_with num_nurses num_shifts num_days limit found
  = Some (mk_printer shifts num_nurses num_days num_shifts n limit
            (mjoin (imap (λ i a,
                      ("Solution " +:+ pretty (i + 1)%nat)
                      :: solution_lines num_nurses num_shifts num_days a)
                    (take n found))
             ++ (if hit
                 then ["Stop search after " +:+ pretty limit +:+ " solutions"]
                 else []))
            hit).
Proof.
  intros _ Hbuild Hfound. cbv zeta. unfold main_with. rewrite Hbuild.
  cbn [mbind option_bind]. unfold NursesPartialSolutionPrinter_init.
  rewrite (printer_run num_nurses num_shifts num_days found).
  - cbn [_shifts _solution_count _solution_limit lines app].
    by rewrite Z.sub_0_r.
  - eapply Forall_impl; [exact Hfound|]. intros a.
    apply (feasible_roster _ _ _ _ _ _ Hbuild).
  - by apply (build_printer _ _ _ model).
  - done.
Qed.

Lemma nurse_main_run_witness :
  let n := Nat.min (length example_rosters) (Z.to_nat (Z.max 1 5)) in
  let hit := bool_decide (Z.max 1 5 ≤ Z.of_nat (length example_rosters)) in
  main_with 4 3 3 5 example_rosters
  = Some (mk_printer nurse_shift.shifts 4 3 3 n 5
            (mjoin (imap (λ i a,
                      ("Solution " +:+ pretty (i + 1)%nat)
                      :: solution_lines 4 3 3 a)
                    (take n example_rosters))
             ++ (if hit
                 then ["Stop search after " +:+ pretty 5 +:+ " solutions"]
                 else []))
            hit).
Proof.
  assert (H : Forall (feasible nurse_shift.model) example_rosters)
    by compute_done.
  exact (nurse_main_run 4 3 3 5 nurse_shift.model nurse_shift.shifts
           example_rosters ltac:(lia) main_builds H).
Defined.

End nurse_shift_theorems.

(** ** The digits of CP + IS + FUN = TRUE *)

Module cryptarithmetic_digits.
Import cryptarithmetic cryptarithmetic_facts.

Lemma cryptarithm_feasible_iff c p i s f u n t r e :
  feasible model [c; p; i; s; f; u; n; t; r; e] ↔
    (1 ≤ c ≤ 9 ∧ 0 ≤ p ≤ 9 ∧ 1 ≤ i ≤ 9 ∧ 0 ≤ s ≤ 9 ∧ 1 ≤ f ≤ 9) ∧
    (0 ≤ u ≤ 9 ∧ 0 ≤ n ≤ 9 ∧ 1 ≤ t ≤ 9 ∧ 0 ≤ r ≤ 9 ∧ 0 ≤ e ≤ 9) ∧
    NoDup [c; p; i; s; f; u; n; t; r; e] ∧
    (c * 10 + p) + (i * 10 + s) + (f * 100 + u * 10 + n)
    = t * 1000 + r * 100 + u * 10 + e.
Proof.
  split.
  - intros (c' & p' & i' & s' & f' & u' & n' & t' & r' & e' & E & B1 & B2 & N
            & Hsum)%cryptarithm_feasible_inv.
    injection E as -> -> -> -> -> -> -> -> -> ->.
    split; [done|]. split; [done|]. split; [done|]. lia.
  - intros (B1 & B2 & N & Hsum). unfold feasible, model.
    cbn [variables constraints]. split.
    + unfold in_domain. repeat (constructor; [cbn [lb ub]; lia|]). constructor.
    + constructor; [|constructor; [|constructor]]; intros _; cbn.
      * exact N.
      * lia.
Qed.

End cryptarithmetic_digits.

Module cryptarithmetic_theorems.
Import cryptarithmetic cryptarithmetic_facts cryptarithmetic_digits.

(** X25: the solutions of the model of [cryptarithmetic.py] are exactly the
    assignments of ten different digits to C, P, I, S, F, U, N, T, R, E,
    with C, I, F and T not zero, for which CP + IS + FUN = TRUE as numbers
    in base 10.  Every solution uses each of the ten digits once, and has
    F = 9, T = 1 and R = 0. *)
Theorem cryptarithm_solutions_are_the_puzzle (a : list Z) :
  (feasible model a ↔
   ∃ c p i s f u n t r e,
     a = [c; p; i; s; f; u; n; t; r; e] ∧
     Forall (λ digit, 0 ≤ digit ≤ 9) a ∧ NoDup a ∧
     c ≠ 0 ∧ i ≠ 0 ∧ f ≠ 0 ∧ t ≠ 0 ∧
     (c * 10 + p) + (i * 10 + s) + (f * 100 + u * 10 + n)
     = t * 1000 + r * 100 + u * 10 + e) ∧
  (feasible model a →
   a ≡ₚ range 0 9 ∧
   a !! 4%nat = Some 9 ∧ a !! 7%nat = Some 1 ∧ a !! 8%nat = Some 0).
Proof.
  split; [split|].
  - intros Ha. pose proof Ha as Ha'.
    apply cryptarithm_feasible_inv in Ha'
      as (c & p & i & s & f & u & n & t & r & e & -> & _).
    apply cryptarithm_feasible_iff in Ha as (B1 & B2 & N & Hsum).
    exists c, p, i, s, f, u, n, t, r, e. split; [done|]. split.
    { repeat (constructor; [lia|]). constructor. }
    split; [done|]. lia.
  - intros (c & p & i & s & f & u & n & t & r & e & -> & B & N & Hc & Hi & Hf
            & Ht & Hsum).
    apply cryptarithm_feasible_iff.
    repeat (apply Forall_cons in B as [? B]).
    split; [lia|]. split; [lia|]. split; [done|]. lia.
  - intros Ha. pose proof Ha as Ha'.
    apply cryptarithm_feasible_inv in Ha'
      as (c & p & i & s & f & u & n & t & r & e & -> & _).
    apply cryptarithm_feasible_iff in Ha as (B1 & B2 & N & Hsum).
    split.
    + apply submseteq_length_Permutation; [|done].
      apply NoDup_submseteq; [done|].
      intros x Hx. apply elem_of_range.
      repeat (apply elem_of_cons in Hx as [->|Hx]; [lia|]).
      by apply elem_of_nil in Hx.
    + cbn [lookup list_lookup].
      assert (t ≠ r ∧ c ≠ i) as [Htr Hci].
      { split; intros ->.
        - by pose proof (NoDup_lookup _ 7%nat 8%nat r N eq_refl eq_refl).
        - by pose proof (NoDup_lookup _ 0%nat 2%nat i N eq_refl eq_refl). }
      assert (t = 1) as -> by lia. assert (r = 0) as -> by lia.
      assert (f = 9) as -> by lia. done.
Qed.

(** X26: the solutions of the model of [cryptarithmetic.py] are closed
    under exchanging the tens digits C and I of the two-digit numbers, and
    under exchanging the units digits P, S and N of the three addends. *)
Theorem cryptarithm_symmetries (c p i s f u n t r e : Z) :
  feasible model [c; p; i; s; f; u; n; t; r; e] →
  feasible model [i; p; c; s; f; u; n; t; r; e] ∧
  feasible model [c; s; i; p; f; u; n; t; r; e] ∧
  feasible model [c; n; i; s; f; u; p; t; r; e].
Proof.
  intros (B1 & B2 & N & Hsum)%cryptarithm_feasible_iff.
  split; [|split]; apply cryptarithm_feasible_iff.
  all: split; [lia|]; split; [lia|]; split; [|lia].
  all: rewrite !NoDup_cons, !not_elem_of_cons in N |- *.
  all: destruct_and?; split_and?; try done; congruence.
Qed.

Lemma cryptarithm_symmetries_witness :
  feasible model [7; 3; 2; 4; 9; 6; 8; 1; 0; 5] ∧
  feasible model [2; 4; 7; 3; 9; 6; 8; 1; 0; 5] ∧
  feasible model [2; 8; 7; 4; 9; 6; 3; 1; 0; 5].
Proof.
  assert (H : feasible model [2; 3; 7; 4; 9; 6; 8; 1; 0; 5]) by compute_done.
  exact (cryptarithm_symmetries 2 3 7 4 9 6 8 1 0 5 H).
Defined.

End cryptarithmetic_theorems.
